(** * Stage-2 segmentation inference of pneumothorax-seg-cnn

    A shallow embedding of [efficientnet_seg/inference/segmentation.py]:
    the prediction runner ([TTA_Segmentation_All], [run_seg_prediction]),
    the merge step ([edit_classification_df]) and the orchestrator
    ([Stage2]), over a small model of numpy arrays and of a pandas table.

    Conventions.
    - A numpy array is its shape and its row-major buffer.
    - Array elements live in an abstract number type [T] with the three
      operations the code uses (sum, division by a count, comparison);
      every law of arithmetic a theorem needs is a hypothesis of that
      theorem.  Two instances are given: numpy's float64 (IEEE 754
      binary64), whose addition is not associative, and the canonical
      rationals, where the laws of exact arithmetic hold.
    - Python exceptions are values of [exn]; [result] is the error monad.
    - The effects of the pipeline (model invocations, the two artifacts
      written to disk) are recorded in a trace by the monad [M].  Console
      output and progress bars are not recorded.

    The file also embeds [efficientnet_seg/models/vae_cnn/models.py]
    ([green_block], [sampling], [loss], [build_model]) as functions on
    the shapes of symbolic tensors, in the module [VaeCnn]. *)

From Stdlib Require Import String Ascii.
From Stdlib Require Import QArith Qcanon.
From Stdlib Require Import List Arith Lia Bool ZArith Permutation Sorted.
From Stdlib Require DecimalString DecimalNat.
From Stdlib Require PrimFloat Uint63.
Import ListNotations.

Local Open Scope nat_scope.
Local Open Scope list_scope.

Set Implicit Arguments.

(* ================================================================== *)
(** * Exceptions and the two monads *)

Inductive exn : Type :=
| AssertionError (msg : string)
| ValueError (msg : string)
| TypeError (msg : string)
| OtherError (msg : string).

Inductive result (A : Type) : Type :=
| Ok (a : A)
| Raise (e : exn).

Arguments Ok {A} a.
Arguments Raise {A} e.

Class Monad (m : Type -> Type) : Type := {
  ret : forall {A}, A -> m A;
  bind : forall {A B}, m A -> (A -> m B) -> m B
}.

Notation "x <- c ;; k" := (bind c (fun x => k))
  (at level 61, c at next level, right associativity).
Notation "c ;;; k" := (bind c (fun _ => k))
  (at level 61, right associativity).

#[export] Instance result_monad : Monad result := {
  ret := fun A a => Ok a;
  bind := fun A B c k => match c with Ok a => k a | Raise e => Raise e end
}.

(** Python's list comprehension [[f x for x in xs]] with a fallible [f]:
    elements are evaluated left to right, the first exception escapes. *)
Fixpoint mapM {m : Type -> Type} `{Monad m} {A B : Type}
         (f : A -> m B) (xs : list A) : m (list B) :=
  match xs with
  | [] => ret []
  | x :: xs' => y <- f x ;; ys <- mapM f xs' ;; ret (y :: ys)
  end.

(* ================================================================== *)
(** * Numbers *)

(** The arithmetic the pipeline performs on array elements. *)
Class Num (T : Type) : Type := {
  zero : T;
  add : T -> T -> T;
  divn : T -> nat -> T;      (* division by an element count *)
  gtb : T -> T -> bool       (* [x > y] *)
}.

(* ================================================================== *)
(** * numpy arrays *)

Section Numpy.

Context {T : Type} {NumT : Num T}.

Record ndarray : Type := mk_array {
  shape : list nat;
  data : list T               (* row-major (C order) buffer *)
}.

Definition size_of (s : list nat) : nat := fold_right Nat.mul 1 s.

(** The invariant numpy maintains for every array. *)
Definition wf (a : ndarray) : Prop := length (data a) = size_of (shape a).

Fixpoint shape_eqb (s1 s2 : list nat) : bool :=
  match s1, s2 with
  | [], [] => true
  | d1 :: s1', d2 :: s2' => (d1 =? d2) && shape_eqb s1' s2'
  | _, _ => false
  end.

(** [n] consecutive blocks of [k] elements. *)
Fixpoint chunks (k n : nat) (l : list T) : list (list T) :=
  match n with
  | 0 => []
  | S n' => firstn k l :: chunks k n' (skipn k l)
  end.

(** [for x in a]: the sub-arrays along the first axis. *)
Definition iter_array (a : ndarray) : result (list ndarray) :=
  match shape a with
  | [] => Raise (TypeError "iteration over a 0-d array")
  | n :: rest => Ok (map (mk_array rest) (chunks (size_of rest) n (data a)))
  end.

(** The buffer of an array of shape [d0 :: d1 :: rest] with its second
    axis reversed; [k] is the number of elements below that axis. *)
Definition flip_data (d0 d1 k : nat) (buf : list T) : list T :=
  concat (map (fun row => concat (rev (chunks k d1 row)))
              (chunks (d1 * k) d0 buf)).

(** [np.fliplr(a)]: reverse the second axis. *)
Definition np_fliplr (a : ndarray) : result ndarray :=
  match shape a with
  | d0 :: d1 :: rest =>
      Ok (mk_array (shape a) (flip_data d0 d1 (size_of rest) (data a)))
  | _ => Raise (ValueError "Input must be >= 2-d.")
  end.

Definition same_shapes (s : list nat) (l : list ndarray) : bool :=
  forallb (fun b => shape_eqb (shape b) s) l.

(** [np.asarray(l)] for a Python list of arrays.  Arrays of different
    shapes do not make an array: numpy raises [ValueError]. *)
Definition np_asarray (l : list ndarray) : result ndarray :=
  match l with
  | [] => Ok (mk_array [0] [])
  | a :: tl =>
      if same_shapes (shape a) tl
      then Ok (mk_array (length l :: shape a) (concat (map data l)))
      else Raise (ValueError "inhomogeneous shape")
  end.

(** [np.stack(l)] along a new first axis. *)
Definition np_stack (l : list ndarray) : result ndarray :=
  match l with
  | [] => Raise (ValueError "need at least one array to stack")
  | a :: tl =>
      if same_shapes (shape a) tl
      then Ok (mk_array (length l :: shape a) (concat (map data l)))
      else Raise (ValueError "all input arrays must have the same shape")
  end.

Fixpoint map2 (f : T -> T -> T) (xs ys : list T) : list T :=
  match xs, ys with
  | x :: xs', y :: ys' => f x y :: map2 f xs' ys'
  | _, _ => []
  end.

(** [np.add.reduce(rows, axis=0)]: the rows are summed in order, starting
    from the first one; an empty reduction yields the additive identity. *)
Definition sum_rows (k : nat) (rows : list (list T)) : list T :=
  match rows with
  | [] => repeat zero k
  | r :: rs => fold_left (map2 add) rs r
  end.

(** [np.mean(a, axis=0)]. *)
Definition np_mean_axis0 (a : ndarray) : result ndarray :=
  match shape a with
  | [] => Raise (ValueError "axis 0 is out of bounds for array of dimension 0")
  | n :: rest =>
      let k := size_of rest in
      Ok (mk_array rest
            (map (fun s => divn s n) (sum_rows k (chunks k n (data a)))))
  end.

(** [a.squeeze()]: every axis of length one is removed. *)
Definition np_squeeze (a : ndarray) : ndarray :=
  mk_array (filter (fun d => negb (d =? 1)) (shape a)) (data a).

(** The element-wise mean of two arrays. *)
Definition mean2 (p q : ndarray) : ndarray :=
  mk_array (shape p) (map2 (fun a b => divn (add a b) 2) (data p) (data q)).

(** [np.full(s, v)] *)
Definition full (s : list nat) (v : T) : ndarray :=
  mk_array s (repeat v (size_of s)).

End Numpy.

Arguments ndarray T : clear implicits.

(* ================================================================== *)
(** * The classification table *)

(** A value of the [EncodedPixels] column.  The classification stage
    writes the integers [1] (positive, mask pending) and [-1] (negative);
    the merge step writes strings. *)
Inductive cell : Type :=
| VInt (z : Z)
| VStr (s : string).

Record row : Type := mk_row {
  ImageId : string;
  EncodedPixels : cell
}.

Definition DataFrame : Type := list row.

(** [c == z] and [c == s] as pandas evaluates them element by element:
    an integer never equals a string. *)
Definition cell_eq_int (c : cell) (z : Z) : bool :=
  match c with VInt z' => Z.eqb z' z | VStr _ => false end.

Definition cell_eq_str (c : cell) (s : string) : bool :=
  match c with VInt _ => false | VStr s' => String.eqb s' s end.

(** [df.loc[cond, "EncodedPixels"] = v]. *)
Definition loc_set (cond : row -> bool) (v : cell) (df : DataFrame) : DataFrame :=
  map (fun r => if cond r then mk_row (ImageId r) v else r) df.

(** [df.loc[cond, "ImageId"].tolist()]. *)
Definition loc_ids (cond : row -> bool) (df : DataFrame) : list string :=
  map ImageId (filter cond df).

(** The pending sentinel and the blank field, as the code tests them. *)
Definition is_pending (r : row) : bool := cell_eq_int (EncodedPixels r) 1.
Definition is_blank (r : row) : bool := cell_eq_str (EncodedPixels r) "".

(** What the injection loop does to one row. *)
Definition inject_row (r : row) (p : string * string) : row :=
  let (id_, rle) := p in
  if String.eqb (ImageId r) id_ then mk_row (ImageId r) (VStr rle) else r.

(** What the final rewrite does to one row. *)
Definition unblank_row (r : row) : row :=
  if is_blank r then mk_row (ImageId r) (VStr "-1") else r.

(* ================================================================== *)
(** * Python built-ins on lists of strings *)

Fixpoint insert_sorted (x : string) (l : list string) : list string :=
  match l with
  | [] => [x]
  | y :: l' => if String.leb x y then x :: l else y :: insert_sorted x l'
  end.

(** [sorted(l)] for a list of strings: ascending in the lexicographic
    order of the characters. *)
Definition sorted (l : list string) : list string :=
  fold_right insert_sorted [] l.

(** The order [sorted] sorts by. *)
Definition str_le (a b : string) : Prop := String.leb a b = true.

(** [x in l]. *)
Definition str_in (x : string) (l : list string) : bool :=
  existsb (String.eqb x) l.

(** [l1 == l2]. *)
Fixpoint strs_eqb (l1 l2 : list string) : bool :=
  match l1, l2 with
  | [], [] => true
  | x :: l1', y :: l2' => String.eqb x y && strs_eqb l1' l2'
  | _, _ => false
  end.

(** [os.path.join(dir, name)]. *)
Definition os_path_join (dir name : string) : string :=
  (dir ++ "/" ++ name)%string.

(* ================================================================== *)
(** * The pipeline *)

Section Pipeline.

Context {T : Type} {NumT : Num T}.

(** A Keras model: [predict(x, batch_size=...)]. *)
Record Model : Type := mk_model {
  predict : ndarray T -> nat -> result (ndarray T)
}.

(** [seg_model] is a single model, or a list/tuple of models. *)
Inductive SegModel : Type :=
| Single (m : Model)
| Ensemble (ms : list Model).

(** What a run leaves behind. *)
Inductive event : Type :=
| EvPredict (x : ndarray T) (batch_size : nat)     (* model.predict *)
| EvSave (path : string) (arr : ndarray T)         (* np.save *)
| EvToCsv (path : string) (df : DataFrame).        (* DataFrame.to_csv *)

(** Computations that raise and leave a trace. *)
Definition M (A : Type) : Type := (list event * result A)%type.

#[export] Instance M_monad : Monad M := {
  ret := fun A a => ([], Ok a);
  bind := fun A B c k =>
    match c with
    | (tr, Ok a) => let (tr', r) := k a in (tr ++ tr', r)
    | (tr, Raise e) => (tr, Raise e)
    end
}.

Definition lift {A : Type} (r : result A) : M A := ([], r).
Definition emit (e : event) : M unit := ([e], Ok tt).

(** The outcome and the trace of a computation. *)
Definition value {A : Type} (c : M A) : result A := snd c.
Definition trace {A : Type} (c : M A) : list event := fst c.

(** [assert cond, msg]. *)
Definition assert (cond : bool) (msg : string) : M unit :=
  if cond then ret tt else lift (Raise (AssertionError msg)).

Definition model_predict (m : Model) (x : ndarray T) (batch_size : nat)
  : M (ndarray T) :=
  emit (EvPredict x batch_size) ;;; lift (predict m x batch_size).

(** [np.asarray([np.fliplr(x) for x in a])]. *)
Definition fliplr_all (a : ndarray T) : result (ndarray T) :=
  xs <- iter_array a ;;
  ys <- mapM np_fliplr xs ;;
  np_asarray ys.

Definition TTA_Segmentation_All (model : Model) (test_arrays : ndarray T)
           (batch_size : nat) : M (ndarray T) :=
  (* predicting original images *)
  preds_test <- model_predict model test_arrays batch_size ;;
  (* predicting the flipped versions *)
  x_test <- lift (fliplr_all test_arrays) ;;
  preds_test_tta <- model_predict model x_test batch_size ;;
  (* flipping them back to their original state *)
  preds_test_tta <- lift (fliplr_all preds_test_tta) ;;
  lift (stacked <- np_asarray [preds_test; preds_test_tta] ;;
        np_mean_axis0 stacked).

Definition run_seg_prediction (x_test : ndarray T) (seg_model : SegModel)
           (batch_size : nat) (tta : bool) : M (ndarray T) :=
  if tta then
    match seg_model with
    | Ensemble ms =>
        ps <- mapM (fun model_ => TTA_Segmentation_All model_ x_test batch_size) ms ;;
        lift (stacked <- np_stack ps ;;
              avg <- np_mean_axis0 stacked ;;
              ret (np_squeeze avg))
    | Single m =>
        p <- TTA_Segmentation_All m x_test batch_size ;;
        ret (np_squeeze p)
    end
  else
    match seg_model with
    | Ensemble ms =>
        ps <- mapM (fun model_ => model_predict model_ x_test batch_size) ms ;;
        lift (stacked <- np_stack ps ;;
              avg <- np_mean_axis0 stacked ;;
              ret (np_squeeze avg))
    | Single m =>
        p <- model_predict m x_test batch_size ;;
        ret (np_squeeze p)
    end.

(** The collaborators of [Stage2] that live outside this file. *)
Section Orchestrator.

(** [pathlib.Path(fpath).stem] *)
Variable stem : string -> string.
(** [efficientnet_seg.inference.utils.load_input(fpath, img_size, channels)] *)
Variable load_input : string -> nat -> nat -> result (ndarray T).
(** [efficientnet_seg.io.utils.preprocess_input(x, model_name=None)] *)
Variable preprocess_input : ndarray T -> result (ndarray T).
(** [efficientnet_seg.inference.utils.post_process_all(arr, threshold, min_size)] *)
Variable post_process_all : ndarray T -> T -> nat -> result (ndarray T).
(** [efficientnet_seg.inference.mask_functions.mask2rle(img, 1024, 1024)] *)
Variable mask2rle : ndarray T -> nat -> nat -> result string.
(** [os.getcwd()] *)
Variable cwd : string.

Definition inject (df : DataFrame) (p : string * string) : DataFrame :=
  let (id_, rle) := p in
  loc_set (fun r => String.eqb (ImageId r) id_) (VStr rle) df.

Definition edit_classification_df (df : DataFrame) (preds_seg : ndarray T)
           (p_ids : list string) : result DataFrame :=
  preds <- iter_array preds_seg ;;
  rles <- mapM (fun pred => mask2rle pred 1024 1024) preds ;;
  (* injecting the run length encodings *)
  let df := fold_left inject (combine p_ids rles) df in
  (* handling empty masks *)
  ret (loc_set (fun r => cell_eq_str (EncodedPixels r) "") (VStr "-1") df).

(** The positive-only ids, as [Stage2] extracts them. *)
Definition select_ids (sub_df : DataFrame) : list string :=
  sorted (loc_ids (fun r => cell_eq_int (EncodedPixels r) 1) sub_df).

Definition select_fpaths (seg_ids test_fpaths : list string) : list string :=
  sorted (filter (fun fpath => str_in (stem fpath) seg_ids) test_fpaths).

Definition Stage2 (seg_model : SegModel) (sub_df : DataFrame)
           (test_fpaths : list string) (channels img_size batch_size : nat)
           (tta : bool) (threshold : T) (save_pred_arr_p : bool)
           (min_roi_size : nat)
           (preprocess_fn : option (ndarray T -> result (ndarray T)))
  : M unit :=
  let preprocess_fn :=
    match preprocess_fn with None => preprocess_input | Some f => f end in
  (* extracting positive only ids *)
  let seg_ids := select_ids sub_df in
  let x_test_fpaths := select_fpaths seg_ids test_fpaths in
  let x_test_ids_from_fpaths := map stem x_test_fpaths in
  assert (strs_eqb x_test_ids_from_fpaths seg_ids)
         "The x_test is loaded must match the ordering of seg_ids." ;;;
  x_test <- lift (imgs <- mapM (fun fpath => load_input fpath img_size channels)
                               x_test_fpaths ;;
                  np_asarray imgs) ;;
  x_test <- lift (preprocess_fn x_test) ;;
  preds_seg <- run_seg_prediction x_test seg_model batch_size tta ;;
  (if save_pred_arr_p
   then emit (EvSave (os_path_join cwd "predicted_probability_masks.npy") preds_seg)
   else ret tt) ;;;
  (* thresholding and zeroing out small ROIs *)
  preds_seg <- lift (post_process_all preds_seg threshold min_roi_size) ;;
  sub_df <- lift (edit_classification_df sub_df preds_seg seg_ids) ;;
  emit (EvToCsv "submission_final.csv" sub_df).

End Orchestrator.

(** The outcome of [TTA_Segmentation_All], effects aside. *)
Definition tta_value (m : Model) (x : ndarray T) (bs : nat)
  : result (ndarray T) :=
  p <- predict m x bs ;;
  x' <- fliplr_all x ;;
  q <- predict m x' bs ;;
  q' <- fliplr_all q ;;
  bind (np_asarray [p; q']) np_mean_axis0.

(** The ensembling step: [np.mean(np.stack(ps), axis=0).squeeze()]. *)
Definition ensemble (ps : list (ndarray T)) : result (ndarray T) :=
  stacked <- np_stack ps ;;
  avg <- np_mean_axis0 stacked ;;
  ret (np_squeeze avg).

(** The outcome of [run_seg_prediction], effects aside. *)
Definition run_value (x : ndarray T) (seg_model : SegModel) (bs : nat)
           (tta : bool) : result (ndarray T) :=
  let one := fun m => if tta then tta_value m x bs else predict m x bs in
  match seg_model with
  | Ensemble ms => ps <- mapM one ms ;; ensemble ps
  | Single m => p <- one m ;; ret (np_squeeze p)
  end.

(** The artifacts a run writes after inference. *)
Definition artifacts (cwd : string) (save : bool) (preds : ndarray T)
           (df : DataFrame) : list event :=
  (if save
   then [EvSave (os_path_join cwd "predicted_probability_masks.npy") preds]
   else []) ++ [EvToCsv "submission_final.csv" df].

End Pipeline.

Arguments M T A : clear implicits.
Arguments Model T : clear implicits.
Arguments SegModel T : clear implicits.
Arguments event T : clear implicits.

(* ================================================================== *)
(** * What is asked of a model *)

Section Contracts.

Context {T : Type} {NumT : Num T}.

(** Whatever [predict] returns is a genuine array. *)
Definition returns_arrays (m : Model T) (bs : nat) : Prop :=
  forall x out, predict m x bs = Ok out -> wf out.

(** A segmentation model for [C]-channel images with [K] output classes:
    on a batch of shape (n, h, w, C) it returns masks of shape
    (n, h, w, K). *)
Definition segments (m : Model T) (bs C K : nat) : Prop :=
  forall x n h w,
    shape x = [n; h; w; C] -> wf x ->
    exists out, predict m x bs = Ok out /\ shape out = [n; h; w; K] /\ wf out.

(** The model commutes with the left-right mirror on batches of shape [s]. *)
Definition flip_equivariant (m : Model T) (bs : nat) (s : list nat) : Prop :=
  forall y, shape y = s -> wf y ->
    bind (fliplr_all y) (fun y' => predict m y' bs) =
    bind (predict m y bs) fliplr_all.

(** Every model of [seg_model] is a one-class segmentation model. *)
Definition models_segment (seg_model : SegModel T) (bs C : nat) : Prop :=
  match seg_model with
  | Single m => segments m bs C 1
  | Ensemble ms => Forall (fun m => segments m bs C 1) ms
  end.

(** [load_input] returns square images of the requested size. *)
Definition loads_images (load_input : string -> nat -> nat -> result (ndarray T))
           (img_size channels : nat) : Prop :=
  forall fpath img,
    load_input fpath img_size channels = Ok img ->
    shape img = [img_size; img_size; channels] /\ wf img.

(** An array-to-array step that keeps the shape. *)
Definition keeps_shape (f : ndarray T -> result (ndarray T)) : Prop :=
  forall a b, f a = Ok b -> shape b = shape a /\ (wf a -> wf b).

End Contracts.

(* ================================================================== *)
(** * The Post-Processor's threshold *)

(** Modelled from the spec: [efficientnet_seg/inference/utils.py]
    ([post_process_single], [post_process_all]) is not part of the
    sources at hand.  The spec gives the binarization step as
    [binary_mask[i,j] = 1 if mask[i,j] > threshold else 0]. *)
Definition binarize {T : Type} `{Num T} (mask : ndarray T) (threshold : T)
  : ndarray bool :=
  mk_array (shape mask) (map (fun v => gtb v threshold) (data mask)).

(* ================================================================== *)
(** * The Mask Codec *)

Module MaskCodec.

(** A binary mask: a list of rows, [true] is foreground. *)
Definition mask : Type := list (list bool).

Definition valid (height width : nat) (m : mask) : Prop :=
  length m = height /\ Forall (fun r => length r = width) m.

Definition zero_mask (height width : nat) : mask :=
  repeat (repeat false width) height.

(** Modelled from the spec: [efficientnet_seg/inference/mask_functions.py]
    is not part of the sources at hand.  Scanning order is column-major:
    down each column, then on to the next column. *)
Definition scan (height width : nat) (m : mask) : list bool :=
  flat_map (fun x => map (fun y => nth x (nth y m []) false) (seq 0 height))
           (seq 0 width).

(** The inverse rearrangement: pixel [(y, x)] sits at scan offset
    [x * height + y]. *)
Definition unscan (height width : nat) (bits : list bool) : mask :=
  map (fun y => map (fun x => nth (x * height + y) bits false) (seq 0 width))
      (seq 0 height).

(** Modelled from the spec: a run is a maximal contiguous sequence of
    foreground pixels in scan order, recorded as (start offset, length)
    with offsets counted from the scan origin 0.  [cur] is the run being
    extended, [pos] the offset of the next pixel. *)
Fixpoint rle_scan (pos : nat) (cur : option (nat * nat)) (bits : list bool)
  : list (nat * nat) :=
  match bits with
  | [] => match cur with Some r => [r] | None => [] end
  | true :: t =>
      rle_scan (S pos)
               (Some (match cur with
                      | Some (s, l) => (s, S l)
                      | None => (pos, 1)
                      end)) t
  | false :: t =>
      match cur with
      | Some r => r :: rle_scan (S pos) None t
      | None => rle_scan (S pos) None t
      end
  end.

Definition runs_of (bits : list bool) : list (nat * nat) :=
  rle_scan 0 None bits.

Definition covers (k : nat) (r : nat * nat) : bool :=
  let (s, l) := r in (s <=? k) && (k <? s + l).

(** The pixels of a scan of length [n] that the runs cover. *)
Definition paint (n : nat) (runs : list (nat * nat)) : list bool :=
  map (fun k => existsb (covers k) runs) (seq 0 n).

(** Decimal numerals. *)
Definition print_nat (n : nat) : string :=
  DecimalString.NilEmpty.string_of_uint (Nat.to_uint n).

Definition parse_nat (s : string) : option nat :=
  match s with
  | EmptyString => None
  | _ => option_map Nat.of_uint (DecimalString.NilEmpty.uint_of_string s)
  end.

Definition space : ascii := " "%char.

(** [" ".join(toks)] *)
Fixpoint join_sp (toks : list string) : string :=
  match toks with
  | [] => EmptyString
  | [t] => t
  | t :: ts => (t ++ String space (join_sp ts))%string
  end.

(** [s.split(" ")] *)
Fixpoint split_sp (s : string) : list string :=
  match s with
  | EmptyString => [EmptyString]
  | String c s' =>
      if Ascii.eqb c space then EmptyString :: split_sp s'
      else match split_sp s' with
           | [] => [String c EmptyString]
           | t :: ts => String c t :: ts
           end
  end.

Fixpoint flatten_pairs (runs : list (nat * nat)) : list nat :=
  match runs with
  | [] => []
  | (s, l) :: t => s :: l :: flatten_pairs t
  end.

Fixpoint pair_up (ns : list nat) : option (list (nat * nat)) :=
  match ns with
  | [] => Some []
  | s :: l :: t => option_map (cons (s, l)) (pair_up t)
  | [_] => None
  end.

Fixpoint parse_all (toks : list string) : option (list nat) :=
  match toks with
  | [] => Some []
  | t :: ts =>
      match parse_nat t, parse_all ts with
      | Some n, Some ns => Some (n :: ns)
      | _, _ => None
      end
  end.

(** The "no mask" sentinel. *)
Definition sentinel : string := "-1".

(** Modelled from the spec: [mask_to_rle(binary_mask, height, width)].
    The (start, length) pairs, space-separated; the all-background mask
    encodes to the sentinel. *)
Definition mask_to_rle (m : mask) (height width : nat) : string :=
  match runs_of (scan height width m) with
  | [] => sentinel
  | runs => join_sp (map print_nat (flatten_pairs runs))
  end.

(** Modelled from the spec: [rle_to_mask(encoding, height, width)].  The
    sentinel is recognised before any numeral is parsed; a field that is
    neither the sentinel nor a list of numeral pairs is reported. *)
Definition rle_to_mask (encoding : string) (height width : nat) : result mask :=
  if String.eqb encoding sentinel then Ok (zero_mask height width)
  else
    match parse_all (split_sp encoding) with
    | Some ns =>
        match pair_up ns with
        | Some runs => Ok (unscan height width (paint (height * width) runs))
        | None => Raise (ValueError "EncodingAmbiguity: odd number of fields")
        end
    | None => Raise (ValueError "EncodingAmbiguity: non-numeric field")
    end.

(** A field of an encoding: neither a space nor a minus sign in it. *)
Fixpoint plain (s : string) : bool :=
  match s with
  | EmptyString => true
  | String c s' =>
      negb (Ascii.eqb c space) && negb (Ascii.eqb c "-") && plain s'
  end.

Definition covered_by (k : nat) (cur : option (nat * nat)) : bool :=
  match cur with Some r => covers k r | None => false end.

(** The run being extended ends where the next pixel starts. *)
Definition adjacent (cur : option (nat * nat)) (pos : nat) : Prop :=
  match cur with Some (s, l) => s + l = pos /\ 0 < l | None => True end.

(** Consecutive runs are non-empty and at least one pixel apart. *)
Fixpoint separated (lo : nat) (runs : list (nat * nat)) : Prop :=
  match runs with
  | [] => True
  | (s, l) :: t => lo <= s /\ 0 < l /\ separated (S (s + l)) t
  end.

Definition column (height : nat) (m : mask) (x : nat) : list bool :=
  map (fun y => nth x (nth y m []) false) (seq 0 height).

End MaskCodec.

(* ================================================================== *)
(** * Exact arithmetic: the canonical rationals *)

(** Array elements as exact rationals.  Division by the count 0 (the mean
    over an empty axis, which the pipeline never takes) is 0 here. *)
Definition Qc_of_nat (n : nat) : Qc := Q2Qc (inject_Z (Z.of_nat n)).

#[export] Instance Qc_num : Num Qc := {
  zero := 0%Qc;
  add := Qcplus;
  divn := fun x n => (x / Qc_of_nat n)%Qc;
  gtb := fun x y => match (x ?= y)%Qc with Gt => true | _ => false end
}.

(** One half. *)
Definition half : Qc := Q2Qc (1 # 2).

(* ================================================================== *)
(** * numpy's float64 *)

(** The float of a count. *)
Definition float_of_nat (n : nat) : PrimFloat.float :=
  PrimFloat.of_uint63 (Uint63.of_Z (Z.of_nat n)).

(** IEEE 754 binary64 with rounding to nearest, the arithmetic of numpy
    on float64 arrays. *)
#[export] Instance float_num : Num PrimFloat.float := {
  zero := float_of_nat 0;
  add := PrimFloat.add;
  divn := fun x n => PrimFloat.div x (float_of_nat n);
  gtb := fun x y => PrimFloat.ltb y x
}.

(** The float nearest to [k / 10]: [tenths 1] is Python's [0.1]. *)
Definition tenths (k : nat) : PrimFloat.float :=
  PrimFloat.div (float_of_nat k) (float_of_nat 10).

(** Two one-channel images of one row and two columns. *)
Definition two_images : ndarray Qc :=
  mk_array [2; 1; 2; 1] [1%Qc; 0%Qc; half; 1%Qc].

(* ================================================================== *)
(** * Concrete models *)

Section Fixtures.

Context {T : Type} {NumT : Num T}.

(** A model that answers [v] at every pixel of every image. *)
Definition const_model (v : T) : Model T :=
  mk_model (fun x _ =>
    match shape x with
    | [n; h; w; _] => Ok (full [n; h; w; 1] v)
    | _ => Raise (ValueError "expected a batch of images")
    end).

(** A model whose mask is the image itself. *)
Definition echo_model : Model T :=
  mk_model (fun x _ =>
    if length (data x) =? size_of (shape x) then Ok x
    else Raise (ValueError "malformed array")).

End Fixtures.

(** The result of the runner on [ms] is its result on every reordering
    of [ms]. *)
Definition same_for_every_order {T : Type} {NumT : Num T}
    (ms : list (Model T)) (x : ndarray T) (bs : nat) (tta : bool) : Prop :=
  forall ms', Permutation ms ms' ->
    value (run_seg_prediction x (Ensemble ms') bs tta)
    = value (run_seg_prediction x (Ensemble ms) bs tta).

(** Two float64 images of one pixel, and three models that answer 0.1,
    0.2 and 0.3 everywhere. *)
Definition float_images : ndarray PrimFloat.float :=
  mk_array [2; 1; 1; 1] [float_of_nat 0; float_of_nat 1].

Definition float_models : list (Model PrimFloat.float) :=
  [const_model (tenths 1); const_model (tenths 2); const_model (tenths 3)].

(* ================================================================== *)
(** * A small run of the orchestrator *)

Section Demo.

Fixpoint has_char (c : ascii) (s : string) : bool :=
  match s with
  | EmptyString => false
  | String a s' => Ascii.eqb a c || has_char c s'
  end.

Fixpoint basename (s : string) : string :=
  match s with
  | EmptyString => EmptyString
  | String a s' =>
      if has_char "/" s' then basename s'
      else if Ascii.eqb a "/" then s' else s
  end.

Fixpoint drop_suffix (s : string) : string :=
  match s with
  | EmptyString => EmptyString
  | String a s' =>
      if has_char "." s' then String a (drop_suffix s')
      else if Ascii.eqb a "." then EmptyString else s
  end.

(** [Path(fpath).stem] on paths of the form [dir/name.ext]. *)
Definition posix_stem (fpath : string) : string :=
  drop_suffix (basename fpath).

(** Images that are white for the id ["c"] and black otherwise. *)
Definition demo_load (fpath : string) (img_size channels : nat)
  : result (ndarray Qc) :=
  Ok (full [img_size; img_size; channels]
           (if String.eqb (posix_stem fpath) "c" then 1%Qc else 0%Qc)).

Definition demo_preprocess (x : ndarray Qc) : result (ndarray Qc) := Ok x.

(** Thresholding alone: no region is large enough to be removed. *)
Definition demo_post_process (a : ndarray Qc) (threshold : Qc) (min_size : nat)
  : result (ndarray Qc) :=
  Ok (mk_array (shape a)
        (map (fun v => if gtb v threshold then 1%Qc else 0%Qc) (data a))).

(** An encoder that answers the empty string for a mask without
    foreground and its two declared dimensions otherwise. *)
Definition demo_mask2rle (img : ndarray Qc) (width height : nat)
  : result string :=
  Ok (if forallb (fun v => negb (gtb v 0%Qc)) (data img) then ""%string
      else (MaskCodec.print_nat width ++ " " ++ MaskCodec.print_nat height)%string).

(** The same encoder, refusing every other pair of dimensions. *)
Definition strict_mask2rle (img : ndarray Qc) (width height : nat)
  : result string :=
  if (width =? 1024) && (height =? 1024) then demo_mask2rle img 1024 1024
  else Raise (ValueError "unexpected dimensions").

Definition demo_table : DataFrame :=
  [mk_row "a" (VInt 1); mk_row "b" (VInt (-1)); mk_row "c" (VInt 1)].

Definition demo_files : list string :=
  ["imgs/c.png"; "imgs/a.png"; "imgs/b.png"]%string.

(** A table without positives. *)
Definition quiet_table : DataFrame :=
  [mk_row "a" (VInt (-1)); mk_row "b" (VStr "3 2")].

Definition demo_run (mask2rle : ndarray Qc -> nat -> nat -> result string)
           (sub_df : DataFrame) (test_fpaths : list string) : M Qc unit :=
  Stage2 posix_stem demo_load demo_preprocess demo_post_process mask2rle
         "/work" (Single echo_model) sub_df test_fpaths 1 2 32 true half
         true 3500 None.

(** A run that is a no-op on [sub_df]: it completes, every table it
    writes is [sub_df], and no model is asked to predict. *)
Definition quiet_noop {T : Type} (c : M T unit) (sub_df : DataFrame) : Prop :=
  value c = Ok tt /\
  (forall path df, In (EvToCsv path df) (trace c) -> df = sub_df) /\
  (forall x bs, ~ In (EvPredict x bs) (trace c)).

End Demo.

(* ================================================================== *)
(** * Reductions *)

(** The left-to-right combination of a non-empty list. *)
Definition reduce1 {L : Type} (f : L -> L -> L) (l : list L) : option L :=
  match l with
  | [] => None
  | a :: t => Some (fold_left f t a)
  end.

(* ================================================================== *)
(** * Elements of a batch *)

Section Items.

Context {T : Type} {NumT : Num T}.

(** [a[n, h, w, c]] for an array of four axes, stored in C order; meant
    for indices within the shape of [a]. *)
Definition item4 (a : ndarray T) (n h w c : nat) : T :=
  match shape a with
  | [_; H; W; C] => nth (((n * H + h) * W + w) * C + c) (data a) zero
  | _ => zero
  end.

End Items.

(* ================================================================== *)
(** * The calls a run makes *)

Section Calls.

Context {T : Type} {NumT : Num T}.

(** The models of [seg_model], in the order the code visits them. *)
Definition models_of (seg_model : SegModel T) : list (Model T) :=
  match seg_model with
  | Single m => [m]
  | Ensemble ms => ms
  end.

(** The [predict] calls one model receives: one on the batch and, with
    test-time augmentation, one on the mirrored batch. *)
Definition predict_calls (x : ndarray T) (bs : nat) (tta : bool)
  : list (event T) :=
  EvPredict x bs ::
  (if tta
   then match fliplr_all x with
        | Ok x' => [EvPredict x' bs]
        | Raise _ => []
        end
   else []).

Definition is_predict (e : event T) : Prop :=
  match e with EvPredict _ _ => True | _ => False end.

End Calls.

(* ================================================================== *)
(** * The network of [models/vae_cnn/models.py], as a graph of shapes

    [build_model] wires Keras layers; what it computes when it is called
    is the graph, and whether the graph can be built is decided by the
    shapes of the symbolic tensors.  A tensor is therefore modelled by
    its static shape, batch axis first, and a layer by the shape it
    gives to its output, or the exception it raises.  Layer names and
    weights play no part in this and are left out; exception messages
    keep the fixed part of the library's text. *)

Module VaeCnn.

Local Notation "' p <- c ;; k" :=
  (bind c (fun x => match x with p => k end))
  (at level 61, p pattern, c at next level, right associativity).

(** An axis of unknown size is [None]. *)
Definition dim := option nat.
Definition tensor := list dim.

(** ** Python statements *)

(** [assert cond, msg]. *)
Definition py_assert (cond : bool) (msg : string) : result unit :=
  if cond then Ok tt else Raise (AssertionError msg).

(** [a, b, c = t]. *)
Definition unpack3 (t : list nat) : result (nat * nat * nat) :=
  match t with
  | [a; b; c] => Ok (a, b, c)
  | _ => Raise (ValueError (if length t <? 3
                            then "not enough values to unpack"
                            else "too many values to unpack"))
  end.

(** Reading a local variable that no branch has bound. *)
Definition bound {A : Type} (name : string) (v : option A) : result A :=
  match v with
  | Some a => Ok a
  | None => Raise (OtherError ("UnboundLocalError: " ++ name))
  end.

(** [str.lower], on ASCII letters. *)
Definition lower_ascii (c : ascii) : ascii :=
  let n := nat_of_ascii c in
  if (65 <=? n) && (n <=? 90) then ascii_of_nat (n + 32) else c.

Fixpoint lower (s : string) : string :=
  match s with
  | EmptyString => EmptyString
  | String c s' => String (lower_ascii c) (lower s')
  end.

(** ** Keras layers *)

Definition normalize_data_format (value : string) : result string :=
  let data_format := lower value in
  if (data_format =? "channels_first")%string
     || (data_format =? "channels_last")%string
  then Ok data_format
  else Raise (ValueError "The `data_format` argument must be one of channels_first, channels_last").

Definition normalize_padding (value : string) : result string :=
  let padding := lower value in
  if (padding =? "valid")%string || (padding =? "same")%string
  then Ok padding
  else Raise (ValueError "The `padding` argument must be one of valid, same").

(** [Input(shape)]: the batch axis is unknown. *)
Definition Input (shape : list nat) : tensor := None :: map Some shape.

(** [conv_utils.conv_output_length]; a negative length is refused when the
    output shape is formed. *)
Definition conv_output_length (input_length : dim) (filter_size : nat)
    (padding : string) (stride : nat) : result dim :=
  match input_length with
  | None => Ok None
  | Some n =>
      if (padding =? "same")%string
      then Ok (Some ((n + stride - 1) / stride))
      else if n + 1 <? filter_size
           then Raise (ValueError "One of the dimensions in the output is <= 0 due to downsampling")
           else Ok (Some ((n + 1 - filter_size + stride - 1) / stride))
  end.

(** [Conv2D(filters, kernel_size, strides, padding, data_format)(inp)],
    on a batch of images (four axes). *)
Definition Conv2D (filters : nat) (kernel_size : nat * nat) (strides : nat)
    (padding data_format : string) (inp : tensor) : result tensor :=
  _ <- (if filters =? 0
        then Raise (ValueError "Invalid value for argument `filters`. Expected a strictly positive value")
        else Ok tt) ;;
  _ <- (if strides =? 0
        then Raise (ValueError "The `strides` argument must be a positive integer")
        else Ok tt) ;;
  padding <- normalize_padding padding ;;
  data_format <- normalize_data_format data_format ;;
  match inp with
  | [b; d1; d2; d3] =>
      let first := (data_format =? "channels_first")%string in
      let '(c, h, w) := if first then (d1, d2, d3) else (d3, d1, d2) in
      match c with
      | None => Raise (ValueError "The channel dimension of the inputs should be defined")
      | Some _ =>
          h' <- conv_output_length h (fst kernel_size) padding strides ;;
          w' <- conv_output_length w (snd kernel_size) padding strides ;;
          Ok (if first then [b; Some filters; h'; w']
              else [b; h'; w'; Some filters])
      end
  | _ => Raise (ValueError "Input 0 of layer is incompatible with the layer: expected ndim=4")
  end.

(** [Activation(name)(x)] and [Dropout(rate)(x)] keep the shape. *)
Definition Activation (name : string) (x : tensor) : tensor := x.
Definition Dropout (rate : Q) (x : tensor) : tensor := x.

(** [repr] of a shape, a Python tuple of sizes. *)
Definition repr_dim (d : dim) : string :=
  match d with
  | Some n => MaskCodec.print_nat n
  | None => "None"
  end.

Fixpoint join_comma (toks : list string) : string :=
  match toks with
  | [] => EmptyString
  | [t] => t
  | t :: rest => (t ++ ", " ++ join_comma rest)%string
  end.

Definition repr_shape (s : tensor) : string :=
  match s with
  | [d] => ("(" ++ repr_dim d ++ ",)")%string
  | _ => ("(" ++ join_comma (map repr_dim s) ++ ")")%string
  end.

(** The message of a merge layer whose inputs do not fit. *)
Definition incompatible_shapes (shape1 shape2 : tensor) : string :=
  ("Inputs have incompatible shapes. Received shapes "
   ++ repr_shape shape1 ++ " and " ++ repr_shape shape2)%string.

(** [_Merge._compute_elemwise_op_output_shape], the loop over two shapes
    of equal length; [msg] is the message of its error. *)
Fixpoint elemwise_dims (msg : string) (shape1 shape2 : tensor)
  : result tensor :=
  match shape1, shape2 with
  | i :: s1, j :: s2 =>
      d <- match i, j with
           | Some a, Some b =>
               if a =? 1 then Ok j
               else if b =? 1 then Ok i
               else if a =? b then Ok i
               else Raise (ValueError msg)
           | _, _ => Ok None
           end ;;
      r <- elemwise_dims msg s1 s2 ;;
      Ok (d :: r)
  | _, _ => Ok []
  end.

Definition compute_elemwise_op_output_shape (shape1 shape2 : tensor)
  : result tensor :=
  let '(shape1, shape2) :=
    if length shape1 <? length shape2 then (shape2, shape1)
    else (shape1, shape2) in
  let k := length shape1 - length shape2 in
  r <- elemwise_dims (incompatible_shapes shape1 shape2)
                     (skipn k shape1) shape2 ;;
  Ok (firstn k shape1 ++ r).

(** The batch sizes that are known, without repetition. *)
Fixpoint batch_sizes (shapes : list tensor) : list nat :=
  match shapes with
  | [] => []
  | s :: rest =>
      let bs := batch_sizes rest in
      match s with
      | Some b :: _ => if existsb (Nat.eqb b) bs then bs else b :: bs
      | _ => bs
      end
  end.

(** [Add()(inputs)]. *)
Definition Add (inputs : list tensor) : result tensor :=
  match inputs with
  | first :: (_ :: _) as others =>
      let bs := batch_sizes inputs in
      if 1 <? length bs
      then Raise (ValueError "Cannot merge tensors with different batch sizes")
      else
        out <- fold_left
                 (fun acc s => o <- acc ;;
                               compute_elemwise_op_output_shape o (tl s))
                 others (Ok (tl first)) ;;
        Ok (match bs with [b] => Some b | _ => None end :: out)
  | _ => Raise (ValueError "A merge layer should be called on a list of at least 2 inputs")
  end.

(** [UpSampling2D(size, data_format)(inp)]. *)
Definition UpSampling2D (size : nat) (data_format : string) (inp : tensor)
  : result tensor :=
  data_format <- normalize_data_format data_format ;;
  match inp with
  | [b; d1; d2; d3] =>
      let up := option_map (Nat.mul size) in
      Ok (if (data_format =? "channels_first")%string
          then [b; d1; up d2; up d3]
          else [b; up d1; up d2; d3])
  | _ => Raise (ValueError "Input 0 of layer is incompatible with the layer: expected ndim=4")
  end.

(** The product of the sizes, when all are known and none is zero. *)
Fixpoint prod_known (s : tensor) : option nat :=
  match s with
  | [] => Some 1
  | Some (S n) :: s' => option_map (Nat.mul (S n)) (prod_known s')
  | _ => None
  end.

(** [Flatten()(inp)]. *)
Definition Flatten (inp : tensor) : result tensor :=
  match inp with
  | [] => Raise (ValueError "Input 0 of layer is incompatible with the layer: expected min_ndim=1")
  | b :: rest => Ok [b; prod_known rest]
  end.

(** [Dense(units)(inp)]. *)
Definition Dense (units : nat) (inp : tensor) : result tensor :=
  match inp with
  | [] | [_] => Raise (ValueError "Input 0 of layer is incompatible with the layer: expected min_ndim=2")
  | _ =>
      match last inp None with
      | None => Raise (ValueError "The last dimension of the inputs to `Dense` should be defined")
      | Some _ => Ok (removelast inp ++ [Some units])
      end
  end.

(** The sizes of a shape, when all are known. *)
Fixpoint known (s : tensor) : option (list nat) :=
  match s with
  | [] => Some []
  | Some n :: s' => option_map (cons n) (known s')
  | None :: _ => None
  end.

(** [Reshape(target_shape)(inp)], for a target without [-1]. *)
Definition Reshape (target_shape : list nat) (inp : tensor) : result tensor :=
  match inp with
  | [] => Raise (OtherError "IndexError: list index out of range")
  | b :: rest =>
      match known rest with
      | None => Ok (b :: map Some target_shape)
      | Some ns =>
          if fold_right Nat.mul 1 ns =? fold_right Nat.mul 1 target_shape
          then Ok (b :: map Some target_shape)
          else Raise (ValueError "total size of new array must be unchanged")
      end
  end.

(** ** Backend operations *)

(** The shape of an element-wise operation of the backend on two tensors:
    trailing axes are aligned, an axis of size 1 stretches. *)
Definition broadcast_dim (x y : dim) : result dim :=
  match x, y with
  | Some a, Some b =>
      if a =? 1 then Ok y
      else if b =? 1 then Ok x
      else if a =? b then Ok x
      else Raise (ValueError "Dimensions must be equal")
  | Some a, None => Ok (if 1 <? a then x else None)
  | None, Some b => Ok (if 1 <? b then y else None)
  | None, None => Ok None
  end.

Fixpoint broadcast_rev (x y : tensor) : result tensor :=
  match x, y with
  | [], _ => Ok y
  | _, [] => Ok x
  | a :: x', b :: y' =>
      d <- broadcast_dim a b ;;
      r <- broadcast_rev x' y' ;;
      Ok (d :: r)
  end.

Definition broadcast (x y : tensor) : result tensor :=
  r <- broadcast_rev (rev x) (rev y) ;;
  Ok (rev r).

(** [K.mean(x, axis=(1, 2, 3))]. *)
Definition K_mean_123 (x : tensor) : result tensor :=
  match x with
  | b :: _ :: _ :: _ :: rest => Ok (b :: rest)
  | _ => Raise (ValueError "Invalid reduction dimension")
  end.

(** [K.sum(x, axis=-1)]. *)
Definition K_sum_last (x : tensor) : result tensor :=
  match x with
  | [] => Raise (ValueError "Invalid reduction dimension")
  | _ => Ok (removelast x)
  end.

(** ** The functions of the module *)

Section Network.

(** [GroupNormalization(groups, axis)(x)] comes from a module of the
    repository that is outside the sources at hand: it is a parameter. *)
Variable GroupNormalization : nat -> Z -> tensor -> result tensor.

(** [green_block(inp, filters, data_format)]. *)
Definition green_block (inp : tensor) (filters : nat) (data_format : string)
  : result tensor :=
  let axis := if (data_format =? "channels_first")%string
              then 1%Z else (-1)%Z in
  inp_res <- Conv2D filters (1, 1) 1 "valid" data_format inp ;;
  x <- GroupNormalization 8 axis inp ;;
  let x := Activation "relu" x in
  x <- Conv2D filters (3, 3) 1 "same" data_format x ;;
  x <- GroupNormalization 8 axis x ;;
  let x := Activation "relu" x in
  x <- Conv2D filters (3, 3) 1 "same" data_format x ;;
  Add [x; inp_res].

(** [sampling([z_mean, z_var])]. *)
Definition sampling (z_mean z_var : tensor) : result tensor :=
  batch <- match z_mean with
           | [] => Raise (ValueError "slice index 0 of dimension 0 out of bounds")
           | b :: _ => Ok b
           end ;;
  dim <- match z_mean with
         | _ :: d :: _ => Ok d
         | _ => Raise (OtherError "IndexError: tuple index out of range")
         end ;;
  epsilon <- match dim with
             | Some _ => Ok [batch; dim]
             | None => Raise (TypeError "Failed to convert elements of the shape to Tensor")
             end ;;
  p <- broadcast z_var epsilon ;;
  broadcast z_mean p.

(** What the closure returned by [loss] has captured. *)
Record Loss : Type := mk_loss {
  loss_L2 : tensor;
  loss_KL : tensor;
  e : Q;
  weight_L2 : Q;
  weight_KL : Q
}.

(** [loss(input_shape, inp, out_VAE, z_mean, z_var, e, weight_L2,
    weight_KL, data_format)]. *)
Definition loss (input_shape : list nat) (inp out_VAE z_mean z_var : tensor)
    (e weight_L2 weight_KL : Q) (data_format : string) : result Loss :=
  n <- (if (data_format =? "channels_last")%string
        then '(H, W, c) <- unpack3 input_shape ;; Ok (Some (c * H * W))
        else if (data_format =? "channels_first")%string
        then '(c, H, W) <- unpack3 input_shape ;; Ok (Some (c * H * W))
        else Ok None) ;;
  d <- broadcast inp out_VAE ;;
  loss_L2 <- K_mean_123 d ;;
  n <- bound "n" n ;;
  _ <- (if n =? 0 then Raise (OtherError "ZeroDivisionError: division by zero")
        else Ok tt) ;;
  s <- broadcast z_var z_mean ;;
  s <- broadcast s z_var ;;
  loss_KL <- K_sum_last s ;;
  Ok (mk_loss loss_L2 loss_KL e weight_L2 weight_KL).

(** The compiled model: its input, its output and its loss. *)
Record KerasModel : Type := mk_model {
  inputs : tensor;
  outputs : tensor;
  compiled_loss : Loss
}.

(** [build_model(input_shape, output_channels, weight_L2, weight_KL,
    data_format)].  Every [green_block] call leaves [data_format] to its
    default. *)
Definition build_model (input_shape : list nat) (output_channels : nat)
    (weight_L2 weight_KL : Q) (data_format : string) : result KerasModel :=
  dims <- (if (data_format =? "channels_last")%string
           then '(H, W, c) <- unpack3 input_shape ;; Ok (Some (H, W, c))
           else if (data_format =? "channels_first")%string
           then '(c, H, W) <- unpack3 input_shape ;; Ok (Some (H, W, c))
           else Ok None) ;;
  py_assert (length input_shape =? 3) "Input shape must be a 3-tuple" ;;;
  '(H, W, c) <- bound "H" dims ;;
  py_assert ((H mod 16 =? 0) && (W mod 16 =? 0))
            "All the input dimensions must be divisible by 16" ;;;
  (* Encoder *)
  let inp := Input input_shape in
  x <- Conv2D 32 (3, 3) 1 "same" data_format inp ;;
  let x := Dropout (2 # 10) x in
  x1 <- green_block x 32 "channels_last" ;;
  x <- Conv2D 32 (3, 3) 2 "same" data_format x1 ;;
  x <- green_block x 64 "channels_last" ;;
  x2 <- green_block x 64 "channels_last" ;;
  x <- Conv2D 64 (3, 3) 2 "same" data_format x2 ;;
  x <- green_block x 128 "channels_last" ;;
  x3 <- green_block x 128 "channels_last" ;;
  x <- Conv2D 128 (3, 3) 2 "same" data_format x3 ;;
  x <- green_block x 256 "channels_last" ;;
  x <- green_block x 256 "channels_last" ;;
  x <- green_block x 256 "channels_last" ;;
  x4 <- green_block x 256 "channels_last" ;;
  (* Decoder, ground-truth part *)
  x <- Conv2D 128 (1, 1) 1 "valid" data_format x4 ;;
  x <- UpSampling2D 2 data_format x ;;
  x <- Add [x; x3] ;;
  x <- green_block x 128 "channels_last" ;;
  x <- Conv2D 64 (1, 1) 1 "valid" data_format x ;;
  x <- UpSampling2D 2 data_format x ;;
  x <- Add [x; x2] ;;
  x <- green_block x 64 "channels_last" ;;
  x <- Conv2D 32 (1, 1) 1 "valid" data_format x ;;
  x <- UpSampling2D 2 data_format x ;;
  x <- Add [x; x1] ;;
  x <- green_block x 32 "channels_last" ;;
  x <- Conv2D 32 (3, 3) 1 "same" data_format x ;;
  out_GT <- Conv2D output_channels (1, 1) 1 "valid" data_format x ;;
  (* Decoder, variational part *)
  x <- GroupNormalization 8
         (if (data_format =? "channels_first")%string then 1%Z else (-1)%Z)
         x4 ;;
  let x := Activation "relu" x in
  x <- Conv2D 16 (3, 3) 2 "same" data_format x ;;
  x <- Flatten x ;;
  x <- Dense 256 x ;;
  z_mean <- Dense 128 x ;;
  z_var <- Dense 128 x ;;
  x <- sampling z_mean z_var ;;
  x <- (if c <? 4
        then
          x <- Dense (c * (H / 16) * (W / 16)) x ;;
          let x := Activation "relu" x in
          Reshape [H / 16; W / 16; c] x
        else
          py_assert (c mod 4 =? 0)
                    "The no. of channels must be divisible by 4" ;;;
          x <- Dense ((c / 4) * (H / 16) * (W / 16)) x ;;
          let x := Activation "relu" x in
          Reshape [H / 16; W / 16; c / 4] x) ;;
  x <- Conv2D 256 (1, 1) 1 "valid" data_format x ;;
  x <- UpSampling2D 2 data_format x ;;
  x <- Conv2D 128 (1, 1) 1 "valid" data_format x ;;
  x <- UpSampling2D 2 data_format x ;;
  x <- green_block x 128 "channels_last" ;;
  x <- Conv2D 64 (1, 1) 1 "valid" data_format x ;;
  x <- UpSampling2D 2 data_format x ;;
  x <- green_block x 64 "channels_last" ;;
  x <- Conv2D 32 (1, 1) 1 "valid" data_format x ;;
  x <- UpSampling2D 2 data_format x ;;
  x <- green_block x 32 "channels_last" ;;
  x <- Conv2D 32 (3, 3) 1 "same" data_format x ;;
  out_VAE <- Conv2D 4 (1, 1) 1 "valid" data_format x ;;
  (* Build and compile *)
  let out := out_GT in
  l <- loss input_shape inp out_VAE z_mean z_var (1 # 100000000)
            weight_L2 weight_KL data_format ;;
  Ok (mk_model inp out l).

End Network.

(** ** What the theorems ask of group normalisation *)

(** Group normalisation gives its output the shape of its input. *)
Definition keeps_shape (GN : nat -> Z -> tensor -> result tensor) : Prop :=
  forall groups axis x y, GN groups axis x = Ok y -> y = x.

(** Group normalisation over the last axis, in eight groups, accepts a
    tensor whose last axis is a positive multiple of eight. *)
Definition accepts_last (GN : nat -> Z -> tensor -> result tensor) : Prop :=
  forall x c, last x None = Some c -> 0 < c -> c mod 8 = 0 ->
              GN 8 (-1)%Z x = Ok x.

(** ** A group normalisation for the examples *)

Definition demo_group_norm (groups : nat) (axis : Z) (x : tensor)
  : result tensor :=
  let i := if (axis <? 0)%Z
           then Z.to_nat (Z.of_nat (length x) + axis)
           else Z.to_nat axis in
  match nth_error x i with
  | Some (Some c) =>
      if (0 <? c) && (c mod groups =? 0) then Ok x
      else Raise (ValueError "Number of channels must be a multiple of the number of groups")
  | _ => Raise (ValueError "Axis of input tensor should have a defined dimension")
  end.

End VaeCnn.

(* ================================================================== *)
(** * Facts about results and lists *)

Lemma Ok_inj {A : Type} (a b : A) : Ok a = Ok b -> a = b.
Proof. congruence. Qed.

Lemma map_nth_seq {A : Type} (l : list A) (d : A) :
  map (fun k => nth k l d) (seq 0 (length l)) = l.
Proof.
  induction l as [|a l IH]; [reflexivity|].
  cbn [length seq map nth]. f_equal.
  rewrite <- seq_shift, map_map. exact IH.
Qed.

Lemma nth_map_seq {A : Type} (f : nat -> A) (n k : nat) (d : A) :
  k < n -> nth k (map f (seq 0 n)) d = f k.
Proof.
  intros Hk. rewrite (nth_indep _ d (f 0)) by now rewrite length_map, length_seq.
  rewrite map_nth, seq_nth by assumption. reflexivity.
Qed.

Lemma nth_concat_blocks {A : Type} (h : nat) (cols : list (list A)) (d : A) :
  Forall (fun c => length c = h) cols ->
  forall x y, y < h ->
    nth (x * h + y) (concat cols) d = nth y (nth x cols []) d.
Proof.
  induction 1 as [|c cols Hc _ IH]; intros x y Hy.
  - replace (nth x [] []) with (@nil A) by (now destruct x).
    cbn [concat]. now destruct (x * h + y), y.
  - destruct x as [|x]; cbn [concat nth].
    + rewrite app_nth1 by lia. reflexivity.
    + rewrite app_nth2 by (cbn; lia).
      replace (S x * h + y - length c) with (x * h + y) by (cbn; lia).
      now apply IH.
Qed.

(* ================================================================== *)
(** * Facts about the array model *)

Section NumpyFacts.

Context {T : Type} {NumT : Num T}.

Lemma shape_eqb_eq (s1 s2 : list nat) : shape_eqb s1 s2 = true <-> s1 = s2.
Proof.
  revert s2; induction s1 as [|d s1 IH]; intros [|d' s2]; simpl;
    try (split; [discriminate | congruence]); try tauto.
  rewrite andb_true_iff, Nat.eqb_eq, IH.
  split; [intros [-> ->]; reflexivity | intros [= -> ->]; auto].
Qed.

Lemma shape_eqb_refl (s : list nat) : shape_eqb s s = true.
Proof. apply shape_eqb_eq; reflexivity. Qed.

Lemma same_shapes_Forall (s : list nat) (l : list (ndarray T)) :
  same_shapes s l = true <-> Forall (fun b => shape b = s) l.
Proof.
  unfold same_shapes. rewrite forallb_forall, Forall_forall.
  split; intros Hl b Hb; apply shape_eqb_eq; auto.
Qed.

Lemma chunks_length (k n : nat) (l : list T) : length (chunks k n l) = n.
Proof. revert l; induction n; simpl; intros; auto. Qed.

Lemma chunks_cons (k n : nat) (c l : list T) :
  length c = k -> chunks k (S n) (c ++ l) = c :: chunks k n l.
Proof.
  intros Hc; subst k; simpl.
  rewrite firstn_app, skipn_app, Nat.sub_diag, firstn_all, skipn_all; simpl.
  now rewrite app_nil_r.
Qed.

Lemma chunks_concat (k : nat) (ls : list (list T)) :
  Forall (fun c => length c = k) ls ->
  chunks k (length ls) (concat ls) = ls.
Proof.
  induction 1 as [|c ls Hc _ IH]; [reflexivity|].
  cbn [length concat]. rewrite chunks_cons by assumption. now rewrite IH.
Qed.

Lemma concat_chunks (k n : nat) (l : list T) :
  length l = n * k -> concat (chunks k n l) = l.
Proof.
  revert l; induction n as [|n IH]; intros l Hl; simpl in *.
  - now destruct l.
  - rewrite IH by (rewrite length_skipn; lia). apply firstn_skipn.
Qed.

Lemma Forall_chunks (k n : nat) (l : list T) :
  length l = n * k -> Forall (fun c => length c = k) (chunks k n l).
Proof.
  revert l; induction n as [|n IH]; intros l Hl; simpl in *; constructor.
  - rewrite length_firstn; lia.
  - apply IH. rewrite length_skipn; lia.
Qed.

Lemma length_concat_blocks (k : nat) (ls : list (list T)) :
  Forall (fun c => length c = k) ls -> length (concat ls) = length ls * k.
Proof.
  induction 1 as [|c ls Hc _ IH]; simpl; [reflexivity|].
  rewrite length_app, IH, Hc; reflexivity.
Qed.

Lemma flip_row_length (d1 k : nat) (row : list T) :
  length row = d1 * k -> length (concat (rev (chunks k d1 row))) = d1 * k.
Proof.
  intros Hr. rewrite (@length_concat_blocks k).
  - now rewrite length_rev, chunks_length.
  - apply Forall_rev, Forall_chunks, Hr.
Qed.

Lemma flip_row_involutive (d1 k : nat) (row : list T) :
  length row = d1 * k ->
  concat (rev (chunks k d1 (concat (rev (chunks k d1 row))))) = row.
Proof.
  intros Hr.
  assert (Hlen : length (rev (chunks k d1 row)) = d1)
    by now rewrite length_rev, chunks_length.
  rewrite <- Hlen at 1.
  rewrite chunks_concat by (apply Forall_rev, Forall_chunks, Hr).
  rewrite rev_involutive. now apply concat_chunks.
Qed.

Lemma flip_rows_Forall (d0 d1 k : nat) (buf : list T) :
  length buf = d0 * (d1 * k) ->
  Forall (fun c => length c = d1 * k)
         (map (fun row => concat (rev (chunks k d1 row)))
              (chunks (d1 * k) d0 buf)).
Proof.
  intros Hb. apply Forall_map.
  eapply Forall_impl; [|apply Forall_chunks, Hb].
  intros row Hr; now apply flip_row_length.
Qed.

Lemma flip_data_length (d0 d1 k : nat) (buf : list T) :
  length buf = d0 * (d1 * k) -> length (flip_data d0 d1 k buf) = d0 * (d1 * k).
Proof.
  intros Hb. unfold flip_data.
  rewrite (@length_concat_blocks (d1 * k)) by now apply flip_rows_Forall.
  now rewrite length_map, chunks_length.
Qed.

Lemma flip_data_involutive (d0 d1 k : nat) (buf : list T) :
  length buf = d0 * (d1 * k) ->
  flip_data d0 d1 k (flip_data d0 d1 k buf) = buf.
Proof.
  intros Hb. unfold flip_data.
  set (rows := chunks (d1 * k) d0 buf).
  assert (Hrows : Forall (fun c => length c = d1 * k) rows)
    by apply Forall_chunks, Hb.
  assert (Hn : length (map (fun row => concat (rev (chunks k d1 row))) rows) = d0)
    by (unfold rows; now rewrite length_map, chunks_length).
  rewrite <- Hn at 1.
  rewrite chunks_concat by (unfold rows; now apply flip_rows_Forall).
  rewrite map_map.
  transitivity (concat rows); [|unfold rows; now apply concat_chunks].
  f_equal. rewrite <- (map_id rows) at 2.
  apply map_ext_Forall.
  eapply Forall_impl; [|exact Hrows].
  intros row Hr; now apply flip_row_involutive.
Qed.

Lemma nth_chunks (k n i : nat) (l : list T) :
  i < n -> nth i (chunks k n l) [] = firstn k (skipn (i * k) l).
Proof.
  revert i l; induction n as [|n IH]; intros i l Hi; [lia|].
  destruct i as [|i]; cbn [chunks nth]; [reflexivity|].
  rewrite IH by lia. rewrite skipn_skipn. do 2 f_equal. cbn. lia.
Qed.

Lemma nth_block (k a j : nat) (l : list T) (d : T) :
  j < k -> nth j (firstn k (skipn a l)) d = nth (a + j) l d.
Proof.
  intros Hj. rewrite nth_firstn.
  destruct (Nat.ltb_spec j k); [|lia]. apply nth_skipn.
Qed.

(** [flip_data] mirrors: the element at row [h], column [w] and offset [c]
    comes from column [d1 - 1 - w] of the same row. *)
Lemma flip_data_mirrors (d0 d1 k h w c : nat) (buf : list T) (d : T) :
  length buf = d0 * (d1 * k) ->
  h < d0 -> w < d1 -> c < k ->
  nth (h * (d1 * k) + (w * k + c)) (flip_data d0 d1 k buf) d =
  nth (h * (d1 * k) + ((d1 - 1 - w) * k + c)) buf d.
Proof.
  intros Hb Hh Hw Hc. unfold flip_data.
  assert (Hwc : w * k + c < d1 * k) by nia.
  rewrite (nth_concat_blocks (h := d1 * k))
    by (now apply flip_rows_Forall || exact Hwc).
  set (flip := fun row => concat (rev (chunks k d1 row))).
  rewrite (nth_indep _ [] (flip []))
    by now rewrite length_map, chunks_length.
  rewrite map_nth, nth_chunks by exact Hh. unfold flip.
  set (row := firstn (d1 * k) (skipn (h * (d1 * k)) buf)).
  assert (Hrow : length row = d1 * k).
  { unfold row. rewrite length_firstn, length_skipn. nia. }
  rewrite (nth_concat_blocks (h := k))
    by (apply Forall_rev, Forall_chunks, Hrow || exact Hc).
  rewrite rev_nth by now rewrite chunks_length.
  rewrite chunks_length, nth_chunks by lia.
  rewrite nth_block by exact Hc. unfold row.
  replace (d1 - S w) with (d1 - 1 - w) by lia.
  apply nth_block. nia.
Qed.

(** [np.fliplr] on an image of shape (H, W, C): pixel (h, w) of the result
    is pixel (h, W - 1 - w) of the image, channel by channel. *)
Lemma np_fliplr_mirrors (a b : ndarray T) (H W C h w c : nat) (d : T) :
  shape a = [H; W; C] -> wf a -> np_fliplr a = Ok b ->
  h < H -> w < W -> c < C ->
  shape b = [H; W; C] /\
  nth ((h * W + w) * C + c) (data b) d =
  nth ((h * W + (W - 1 - w)) * C + c) (data a) d.
Proof.
  unfold wf, np_fliplr. intros Hs Hwf. rewrite Hs in *. intros E Hh Hw Hc.
  apply Ok_inj in E. subst b. cbn [shape data size_of fold_right] in *.
  split; [reflexivity|].
  replace ((h * W + w) * C + c) with (h * (W * (C * 1)) + (w * (C * 1) + c))
    by nia.
  replace ((h * W + (W - 1 - w)) * C + c)
    with (h * (W * (C * 1)) + ((W - 1 - w) * (C * 1) + c)) by nia.
  apply flip_data_mirrors; lia.
Qed.

End NumpyFacts.

(* ================================================================== *)
(** * Facts about the monads *)

Section MonadFacts.

Context {T : Type} {NumT : Num T}.

Lemma value_bind {A B : Type} (c : M T A) (k : A -> M T B) :
  value (bind c k) = bind (value c) (fun a => value (k a)).
Proof.
  destruct c as [tr [a|e]]; simpl; [|reflexivity].
  destruct (k a); reflexivity.
Qed.

Lemma trace_bind {A B : Type} (c : M T A) (k : A -> M T B) :
  trace (bind c k) =
  trace c ++ match value c with Ok a => trace (k a) | Raise _ => [] end.
Proof.
  destruct c as [tr [a|e]]; simpl; [|now rewrite app_nil_r].
  destruct (k a); reflexivity.
Qed.

Lemma value_lift {A : Type} (r : result A) : value (lift (T:=T) r) = r.
Proof. reflexivity. Qed.

Lemma trace_lift {A : Type} (r : result A) : trace (lift (T:=T) r) = [].
Proof. reflexivity. Qed.

Lemma value_mapM {A B : Type} (f : A -> M T B) (l : list A) :
  value (mapM f l) = mapM (fun x => value (f x)) l.
Proof.
  induction l as [|x l IH]; [reflexivity|].
  cbn [mapM]. rewrite value_bind. cbn [bind result_monad].
  destruct (value (f x)); [|reflexivity].
  rewrite value_bind, IH. cbn [bind result_monad].
  destruct (mapM _ l); reflexivity.
Qed.

Lemma mapM_ext {A B : Type} (f g : A -> result B) (l : list A) :
  (forall x, f x = g x) -> mapM f l = mapM g l.
Proof.
  intros Hfg. induction l as [|x l IH]; cbn [mapM]; [reflexivity|].
  now rewrite Hfg, IH.
Qed.

Lemma mapM_Ok_Forall2 {A B : Type} (f : A -> result B) (l : list A)
      (ys : list B) :
  mapM f l = Ok ys <-> Forall2 (fun x y => f x = Ok y) l ys.
Proof.
  revert ys; induction l as [|x l IH]; intros ys; cbn [mapM bind ret result_monad].
  - split; [intros [= <-]; constructor | inversion 1; reflexivity].
  - split.
    + destruct (f x) as [y|] eqn:Hy; [|discriminate].
      destruct (mapM f l) as [ys'|] eqn:Hys; [|discriminate].
      intros [= <-]. constructor; [assumption|]. now apply IH.
    + inversion 1 as [|? y ? ys' Hy Hys]; subst.
      rewrite Hy. apply IH in Hys. now rewrite Hys.
Qed.

Lemma mapM_total {A B : Type} (f : A -> result B) (g : A -> B) (l : list A) :
  Forall (fun x => f x = Ok (g x)) l -> mapM f l = Ok (map g l).
Proof.
  induction 1 as [|x l Hx _ IH]; cbn [mapM bind ret result_monad map];
    [reflexivity|].
  now rewrite Hx, IH.
Qed.

End MonadFacts.

(* ================================================================== *)
(** * Facts about the prediction runner *)

Section PredictionFacts.

Context {T : Type} {NumT : Num T}.

Lemma mapM_fliplr (d0 d1 : nat) (rest : list nat) (cs : list (list T)) :
  mapM np_fliplr (map (mk_array (d0 :: d1 :: rest)) cs) =
  Ok (map (fun c => mk_array (d0 :: d1 :: rest)
                             (flip_data d0 d1 (size_of rest) c)) cs).
Proof.
  rewrite (mapM_total np_fliplr
             (fun a => mk_array (d0 :: d1 :: rest)
                                (flip_data d0 d1 (size_of rest) (data a)))).
  - now rewrite map_map.
  - apply Forall_map, Forall_forall. intros c _. reflexivity.
Qed.

Lemma fliplr_all_empty (a : ndarray T) (rest : list nat) :
  shape a = 0 :: rest -> fliplr_all a = Ok (mk_array [0] []).
Proof. unfold fliplr_all, iter_array. intros ->. reflexivity. Qed.

Lemma fliplr_all_batch (a : ndarray T) (n d0 d1 : nat) (rest : list nat) :
  shape a = S n :: d0 :: d1 :: rest ->
  fliplr_all a =
  Ok (mk_array (shape a)
        (concat (map (flip_data d0 d1 (size_of rest))
                     (chunks (size_of (d0 :: d1 :: rest)) (S n) (data a))))).
Proof.
  intros Hs. unfold fliplr_all, iter_array. rewrite Hs.
  cbn [bind result_monad]. rewrite mapM_fliplr.
  set (f := fun c => _).
  set (cs := chunks _ (S n) (data a)).
  assert (Hlen : length (map f cs) = S n)
    by (unfold cs; now rewrite length_map, chunks_length).
  assert (Hall : Forall (fun b => shape b = d0 :: d1 :: rest) (map f cs))
    by (apply Forall_map, Forall_forall; intros c _; reflexivity).
  destruct (map f cs) as [|b tl] eqn:Hm; [discriminate|].
  unfold np_asarray. inversion Hall as [|? ? Hb Htl]; subst.
  rewrite Hb. apply same_shapes_Forall in Htl. rewrite Htl, Hlen.
  f_equal. f_equal. rewrite <- Hm, map_map. reflexivity.
Qed.

Lemma fliplr_all_wf (a b : ndarray T) :
  wf a -> fliplr_all a = Ok b -> wf b.
Proof.
  unfold wf. intros Ha Hb.
  destruct (shape a) as [|n s] eqn:Hs.
  { unfold fliplr_all, iter_array in Hb. now rewrite Hs in Hb. }
  destruct n as [|n].
  { rewrite (fliplr_all_empty a Hs) in Hb. now inversion Hb. }
  destruct s as [|d0 [|d1 rest]];
    try (unfold fliplr_all, iter_array in Hb; rewrite Hs in Hb;
         cbn in Hb; discriminate).
  rewrite (fliplr_all_batch a Hs) in Hb. apply Ok_inj in Hb; subst b.
  cbn [shape data]. rewrite Hs in *.
  set (k := size_of (d0 :: d1 :: rest)) in *.
  assert (Hk : k = d0 * (d1 * size_of rest)) by reflexivity.
  rewrite (@length_concat_blocks _ k).
  - rewrite length_map, chunks_length. reflexivity.
  - apply Forall_map.
    eapply Forall_impl; [|apply (Forall_chunks k (S n)); exact Ha].
    intros c Hc. rewrite Hk in *. now apply flip_data_length.
Qed.

Lemma fliplr_all_shape (a b : ndarray T) (n d0 d1 : nat) (rest : list nat) :
  shape a = S n :: d0 :: d1 :: rest -> fliplr_all a = Ok b -> shape b = shape a.
Proof.
  intros Hs Hb. rewrite (fliplr_all_batch a Hs) in Hb. now inversion Hb.
Qed.

(** Mirroring a batch twice gives the batch back. *)
Lemma fliplr_all_involutive (a b : ndarray T) (n d0 d1 : nat) (rest : list nat) :
  wf a -> shape a = S n :: d0 :: d1 :: rest ->
  fliplr_all a = Ok b -> fliplr_all b = Ok a.
Proof.
  intros Ha Hs Hb.
  assert (Hsb : shape b = S n :: d0 :: d1 :: rest)
    by (rewrite <- Hs; eapply fliplr_all_shape; eauto).
  rewrite (fliplr_all_batch b Hsb).
  rewrite (fliplr_all_batch a Hs) in Hb. apply Ok_inj in Hb; subst b.
  cbn [shape data] in *. destruct a as [sa da]; cbn [shape data] in *.
  subst sa. f_equal. f_equal. unfold wf in Ha; cbn [shape data] in Ha.
  set (k := size_of (d0 :: d1 :: rest)) in *.
  assert (Hk : k = d0 * (d1 * size_of rest)) by reflexivity.
  set (cs := chunks k (S n) da).
  assert (Hcs : Forall (fun c => length c = k) cs)
    by (apply Forall_chunks; exact Ha).
  assert (Hn : length (map (flip_data d0 d1 (size_of rest)) cs) = S n)
    by (unfold cs; now rewrite length_map, chunks_length).
  rewrite <- Hn at 1.
  rewrite chunks_concat.
  - rewrite map_map.
    transitivity (concat cs); [|unfold cs; now apply concat_chunks].
    f_equal. rewrite <- (map_id cs) at 2. apply map_ext_Forall.
    eapply Forall_impl; [|exact Hcs].
    intros c Hc. rewrite Hk in Hc. now apply flip_data_involutive.
  - apply Forall_map. eapply Forall_impl; [|exact Hcs].
    intros c Hc. rewrite Hk in *. now apply flip_data_length.
Qed.

Lemma map_map2 (f : T -> T) (g : T -> T -> T) (xs ys : list T) :
  map f (map2 g xs ys) = map2 (fun a b => f (g a b)) xs ys.
Proof.
  revert ys; induction xs as [|x xs IH]; intros [|y ys]; simpl; auto.
  now rewrite IH.
Qed.

Lemma map2_length (g : T -> T -> T) (xs ys : list T) :
  length (map2 g xs ys) = Nat.min (length xs) (length ys).
Proof.
  revert ys; induction xs as [|x xs IH]; intros [|y ys]; simpl; auto.
Qed.

(** [np.mean([p, q], axis=0)] *)
Lemma np_mean_pair (p q : ndarray T) :
  wf p -> wf q -> shape q = shape p ->
  bind (np_asarray [p; q]) np_mean_axis0 = Ok (mean2 p q).
Proof.
  intros Hp Hq Hs. unfold np_asarray, same_shapes. cbn [forallb].
  rewrite Hs, shape_eqb_refl. cbn [andb bind result_monad].
  unfold np_mean_axis0. cbn [shape data length].
  change (concat (map data [p; q])) with (concat [data p; data q]).
  assert (E : chunks (size_of (shape p)) 2 (concat [data p; data q]) =
              [data p; data q]).
  { apply (chunks_concat (ls := [data p; data q])).
    repeat constructor; [exact Hp | unfold wf in Hq; now rewrite Hq, Hs]. }
  rewrite E. cbn [sum_rows fold_left length]. unfold mean2.
  now rewrite map_map2.
Qed.

Lemma mean2_wf (p q : ndarray T) :
  wf p -> wf q -> shape q = shape p -> wf (mean2 p q).
Proof.
  unfold wf, mean2; cbn [shape data]. intros Hp Hq Hs.
  rewrite map2_length, Hp, Hq, Hs. apply Nat.min_id.
Qed.

End PredictionFacts.

Section RunnerFacts.

Context {T : Type} {NumT : Num T}.

Lemma value_model_predict (m : Model T) (x : ndarray T) (bs : nat) :
  value (model_predict m x bs) = predict m x bs.
Proof. reflexivity. Qed.

Lemma trace_model_predict (m : Model T) (x : ndarray T) (bs : nat) :
  trace (model_predict m x bs) = [EvPredict x bs].
Proof. reflexivity. Qed.

Lemma value_TTA (m : Model T) (x : ndarray T) (bs : nat) :
  value (TTA_Segmentation_All m x bs) = tta_value m x bs.
Proof.
  unfold TTA_Segmentation_All, tta_value.
  rewrite value_bind, value_model_predict. cbn [bind result_monad].
  destruct (predict m x bs) as [p|]; [|reflexivity].
  rewrite value_bind, value_lift. cbn [bind result_monad].
  destruct (fliplr_all x) as [x'|]; [|reflexivity].
  rewrite value_bind, value_model_predict. cbn [bind result_monad].
  destruct (predict m x' bs) as [q|]; [|reflexivity].
  rewrite value_bind, value_lift. cbn [bind result_monad].
  destruct (fliplr_all q) as [q'|]; reflexivity.
Qed.

Lemma value_run_seg_prediction (x : ndarray T) (seg_model : SegModel T)
      (bs : nat) (tta : bool) :
  value (run_seg_prediction x seg_model bs tta) = run_value x seg_model bs tta.
Proof.
  unfold run_seg_prediction, run_value.
  destruct tta, seg_model as [m|ms]; rewrite value_bind;
    rewrite ?value_mapM, ?value_TTA, ?value_model_predict.
  - destruct (tta_value m x bs); reflexivity.
  - rewrite (mapM_ext _ (fun m => tta_value m x bs) ms
               (fun m => value_TTA m x bs)).
    destruct (mapM _ ms); reflexivity.
  - destruct (predict m x bs); reflexivity.
  - destruct (mapM _ ms); reflexivity.
Qed.

End RunnerFacts.

(* ================================================================== *)
(** * The prediction runner: theorems *)

Section RunnerTheorems.

Context {T : Type} {NumT : Num T}.

Lemma map2_diag (f : T -> T -> T) (xs : list T) :
  (forall a, f a a = a) -> map2 f xs xs = xs.
Proof. intros Hf; induction xs as [|x xs IH]; simpl; congruence. Qed.

Lemma tta_value_wf (m : Model T) (x out : ndarray T) (bs : nat) :
  returns_arrays m bs -> tta_value m x bs = Ok out -> wf out.
Proof.
  intros Hm. unfold tta_value. cbn [bind result_monad].
  destruct (predict m x bs) as [p|] eqn:Hp; [|discriminate].
  destruct (fliplr_all x) as [x'|]; [|discriminate].
  destruct (predict m x' bs) as [q|] eqn:Hq; [|discriminate].
  destruct (fliplr_all q) as [q'|] eqn:Hq'; [|discriminate].
  apply Hm in Hp, Hq. pose proof (fliplr_all_wf Hq Hq') as Hwq'.
  destruct (shape_eqb (shape q') (shape p)) eqn:Hs.
  - apply shape_eqb_eq in Hs.
    pose proof (np_mean_pair Hp Hwq' Hs) as E. cbn [bind result_monad] in E.
    rewrite E. intros [= <-]. now apply mean2_wf.
  - unfold np_asarray, same_shapes. cbn [forallb]. rewrite Hs. discriminate.
Qed.

Lemma tta_value_closed (m : Model T) (bs C K N H W : nat) (x : ndarray T) :
  segments m bs C K ->
  shape x = [S N; H; W; C] -> wf x ->
  exists x' p q q',
    fliplr_all x = Ok x' /\
    predict m x bs = Ok p /\ shape p = [S N; H; W; K] /\ wf p /\
    predict m x' bs = Ok q /\
    fliplr_all q = Ok q' /\
    tta_value m x bs = Ok (mean2 p q').
Proof.
  intros Hseg Hsx Hwx.
  destruct (Hseg x _ _ _ Hsx Hwx) as (p & Hp & Hsp & Hwp).
  pose proof (fliplr_all_batch x Hsx) as Hx'.
  set (x' := mk_array _ _) in Hx'.
  assert (Hsx' : shape x' = [S N; H; W; C]) by (unfold x'; exact Hsx).
  pose proof (fliplr_all_wf Hwx Hx') as Hwx'.
  destruct (Hseg x' _ _ _ Hsx' Hwx') as (q & Hq & Hsq & Hwq).
  pose proof (fliplr_all_batch q Hsq) as Hq'.
  set (q' := mk_array _ _) in Hq'.
  assert (Hsq' : shape q' = shape p) by (unfold q'; cbn [shape]; congruence).
  pose proof (fliplr_all_wf Hwq Hq') as Hwq'.
  exists x', p, q, q'. repeat split; auto.
  unfold tta_value. rewrite Hp. cbn [bind result_monad]. rewrite Hx'.
  rewrite Hq. rewrite Hq'. now apply np_mean_pair.
Qed.

(** Where [squeeze] leaves the batch axis alone. *)
Lemma run_seg_prediction_shape (m : Model T) (bs C N H W : nat)
      (x : ndarray T) :
  segments m bs C 1 ->
  shape x = [N; H; W; C] -> wf x ->
  N <> 1 -> H <> 1 -> W <> 1 ->
  exists r, value (run_seg_prediction x (Single m) bs false) = Ok r /\
            shape r = [N; H; W].
Proof.
  intros Hseg Hsx Hwx HN HH HW.
  destruct (Hseg x _ _ _ Hsx Hwx) as (p & Hp & Hsp & Hwp).
  exists (np_squeeze p). rewrite value_run_seg_prediction.
  unfold run_value. rewrite Hp. split; [reflexivity|].
  unfold np_squeeze. cbn [shape]. rewrite Hsp. cbn [filter].
  apply Nat.eqb_neq in HN, HH, HW. now rewrite HN, HH, HW.
Qed.

Lemma ensemble_singleton (p : ndarray T) :
  (forall a : T, divn a 1 = a) -> wf p -> ensemble [p] = Ok (np_squeeze p).
Proof.
  intros Hone Hp. unfold ensemble, np_stack, same_shapes.
  cbn [forallb bind ret result_monad]. unfold np_mean_axis0.
  cbn [shape data length map concat chunks sum_rows bind ret result_monad].
  rewrite app_nil_r. unfold wf in Hp. rewrite <- Hp, firstn_all.
  do 2 f_equal. rewrite (map_ext _ (fun a => a)) by assumption.
  rewrite map_id. now destruct p.
Qed.

(** C7.  A collection holding one model gives what the model alone gives,
    with and without test-time augmentation. *)
Theorem singleton_ensemble_is_single
        (m : Model T) (x : ndarray T) (bs : nat) (tta : bool) :
  (forall a : T, divn a 1 = a) ->
  returns_arrays m bs ->
  value (run_seg_prediction x (Ensemble [m]) bs tta) =
  value (run_seg_prediction x (Single m) bs tta).
Proof.
  intros Hone Hm. rewrite !value_run_seg_prediction. unfold run_value.
  cbn [mapM bind ret result_monad].
  destruct tta.
  - destruct (tta_value m x bs) as [p|] eqn:Hp; [|reflexivity].
    apply ensemble_singleton; [assumption|]. eapply tta_value_wf; eauto.
  - destruct (predict m x bs) as [p|] eqn:Hp; [|reflexivity].
    apply ensemble_singleton; [assumption|]. eapply Hm; eauto.
Qed.

End RunnerTheorems.

(* ================================================================== *)
(** * Ensembling does not depend on the order of the models *)

Section FoldPermutation.

Variable L : Type.
Variable f : L -> L -> L.
Hypothesis f_comm : forall a b, f a b = f b a.
Hypothesis f_assoc : forall a b c, f (f a b) c = f a (f b c).

Lemma fold_left_push (l : list L) (a x : L) :
  fold_left f l (f a x) = f (fold_left f l a) x.
Proof.
  revert a; induction l as [|y l IH]; intros a; simpl; [reflexivity|].
  rewrite <- IH. f_equal.
  rewrite !f_assoc. f_equal. apply f_comm.
Qed.

Lemma reduce1_perm (l l' : list L) :
  Permutation l l' -> reduce1 f l = reduce1 f l'.
Proof.
  induction 1 as [|x l l' Hp IH|x y l|l l' l'' _ IH1 _ IH2]; simpl.
  - reflexivity.
  - destruct l as [|a t], l' as [|b t']; simpl in *;
      try discriminate; try reflexivity.
    injection IH as IH. f_equal.
    rewrite (f_comm x a), (f_comm x b), !fold_left_push. now rewrite IH.
  - now rewrite f_comm.
  - congruence.
Qed.

End FoldPermutation.

Section EnsembleOrder.

Context {T : Type} {NumT : Num T}.

Hypothesis add_comm : forall a b : T, add a b = add b a.
Hypothesis add_assoc : forall a b c : T, add (add a b) c = add a (add b c).

Lemma map2_add_comm (xs ys : list T) : map2 add xs ys = map2 add ys xs.
Proof.
  revert ys; induction xs as [|x xs IH]; intros [|y ys]; simpl; auto.
  now rewrite add_comm, IH.
Qed.

Lemma map2_add_assoc (xs ys zs : list T) :
  map2 add (map2 add xs ys) zs = map2 add xs (map2 add ys zs).
Proof.
  revert ys zs; induction xs as [|x xs IH]; intros [|y ys] [|z zs];
    simpl; auto.
  now rewrite add_assoc, IH.
Qed.

Lemma sum_rows_perm (k : nat) (rows rows' : list (list T)) :
  Permutation rows rows' -> sum_rows k rows = sum_rows k rows'.
Proof.
  intros Hp.
  pose proof (@reduce1_perm _ (map2 add) map2_add_comm map2_add_assoc _ _ Hp) as E.
  destruct rows, rows'; simpl in *; congruence.
Qed.

End EnsembleOrder.

Section EnsembleFacts.

Context {T : Type} {NumT : Num T}.

Lemma ensemble_Ok_inv (ps : list (ndarray T)) (r : ndarray T) :
  ensemble ps = Ok r ->
  exists p tl, ps = p :: tl /\ Forall (fun b => shape b = shape p) ps.
Proof.
  unfold ensemble, np_stack. destruct ps as [|p tl]; [discriminate|].
  destruct (same_shapes (shape p) tl) eqn:Hs; [|discriminate].
  intros _. exists p, tl. split; [reflexivity|].
  constructor; [reflexivity | now apply same_shapes_Forall].
Qed.

Lemma ensemble_closed (ps : list (ndarray T)) (s : list nat) :
  ps <> [] -> Forall (fun b => shape b = s) ps -> Forall wf ps ->
  ensemble ps =
  Ok (np_squeeze
        (mk_array s (map (fun v => divn v (length ps))
                         (sum_rows (size_of s) (map data ps))))).
Proof.
  intros Hne Hs Hwf. destruct ps as [|p tl]; [congruence|].
  unfold ensemble, np_stack.
  inversion Hs as [|? ? Hp Htl]; subst.
  apply same_shapes_Forall in Htl. rewrite Htl.
  cbn [bind ret result_monad]. unfold np_mean_axis0.
  cbn [shape data bind ret result_monad].
  assert (E : chunks (size_of (shape p)) (length (p :: tl))
                     (concat (map data (p :: tl))) = map data (p :: tl)).
  { rewrite <- (length_map data (p :: tl)). apply chunks_concat.
    apply Forall_map. rewrite Forall_forall in *.
    intros b Hb. rewrite <- (Hs b Hb). now apply Hwf. }
  now rewrite E.
Qed.

End EnsembleFacts.

Section EnsembleTheorem.

Context {T : Type} {NumT : Num T}.

Lemma predictions_wf (ms : list (Model T)) (ps : list (ndarray T))
      (x : ndarray T) (bs : nat) (tta : bool) :
  Forall (fun m => returns_arrays m bs) ms ->
  Forall2 (fun m p => (if tta then tta_value m x bs else predict m x bs) = Ok p)
          ms ps ->
  Forall wf ps.
Proof.
  intros Hms Hps. induction Hps as [|m p ms ps Hp _ IH]; constructor;
    inversion Hms; subst; auto.
  destruct tta; [eapply tta_value_wf | ]; eauto.
Qed.

(** With an addition that is commutative and associative, handing the
    models over in another order leaves the result of
    [run_seg_prediction] as it is, with and without test-time
    augmentation. *)
Lemma ensemble_order_exact
        (ms ms' : list (Model T)) (x : ndarray T) (bs : nat) (tta : bool)
        (r : ndarray T) :
  (forall a b : T, add a b = add b a) ->
  (forall a b c : T, add (add a b) c = add a (add b c)) ->
  Forall (fun m => returns_arrays m bs) ms ->
  Permutation ms ms' ->
  value (run_seg_prediction x (Ensemble ms) bs tta) = Ok r ->
  value (run_seg_prediction x (Ensemble ms') bs tta) = Ok r.
Proof.
  intros Hcomm Hassoc Hms Hperm. rewrite !value_run_seg_prediction.
  unfold run_value. cbn [bind result_monad].
  destruct (mapM _ ms) as [ps|] eqn:Hps; [|discriminate].
  intros Hr. apply mapM_Ok_Forall2 in Hps.
  destruct (Permutation_Forall2 Hperm Hps) as (ps' & Hpp & Hps').
  pose proof (predictions_wf x tta Hms Hps) as Hwf.
  apply mapM_Ok_Forall2 in Hps'. rewrite Hps'.
  destruct (ensemble_Ok_inv _ Hr) as (p & tl & -> & Hshape).
  rewrite (ensemble_closed (s := shape p)) in Hr; [|discriminate|auto|auto].
  rewrite (ensemble_closed (s := shape p)).
  - rewrite <- Hr. rewrite <- (Permutation_length Hpp).
    rewrite (sum_rows_perm Hcomm Hassoc (size_of (shape p))
               (Permutation_map data (Permutation_sym Hpp))).
    reflexivity.
  - intros ->. apply Permutation_sym, Permutation_nil in Hpp. discriminate.
  - eapply Permutation_Forall; eauto.
  - eapply Permutation_Forall; eauto.
Qed.

Lemma map2_comm_Forall2 (f : T -> T -> T) (xs ys : list T) :
  Forall2 (fun a b => f a b = f b a) xs ys -> map2 f xs ys = map2 f ys xs.
Proof. induction 1 as [|a b xs ys Hab _ IH]; cbn; congruence. Qed.

Lemma shape_eqb_sym (s1 s2 : list nat) : shape_eqb s1 s2 = shape_eqb s2 s1.
Proof.
  revert s2; induction s1 as [|d s1 IH]; intros [|d' s2]; cbn;
    try reflexivity.
  now rewrite IH, Nat.eqb_sym.
Qed.

(** C6, as the code has it.  The ensemble is the sum of the predictions
    in list order, divided by their number.  Two models may be swapped as
    soon as the two sums of each pixel agree, which IEEE addition
    grants; any reordering of any number of models leaves the result as
    it is when addition is commutative and associative, which holds of
    exact arithmetic and not of floats. *)
Theorem ensemble_order_where_sums_agree
        (m1 m2 : Model T) (x : ndarray T) (bs : nat) (tta : bool)
        (p1 p2 : ndarray T) :
  (if tta then tta_value m1 x bs else predict m1 x bs) = Ok p1 ->
  (if tta then tta_value m2 x bs else predict m2 x bs) = Ok p2 ->
  wf p1 -> wf p2 ->
  Forall2 (fun a b => add a b = add b a) (data p1) (data p2) ->
  value (run_seg_prediction x (Ensemble [m1; m2]) bs tta)
  = value (run_seg_prediction x (Ensemble [m2; m1]) bs tta)
  /\
  ((forall a b : T, add a b = add b a) ->
   (forall a b c : T, add (add a b) c = add a (add b c)) ->
   forall (ms ms' : list (Model T)) (r : ndarray T),
     Forall (fun m => returns_arrays m bs) ms ->
     Permutation ms ms' ->
     value (run_seg_prediction x (Ensemble ms) bs tta) = Ok r ->
     value (run_seg_prediction x (Ensemble ms') bs tta) = Ok r).
Proof.
  intros Hp1 Hp2 Hw1 Hw2 Hsums. split.
  - rewrite !value_run_seg_prediction. unfold run_value.
    cbn [mapM bind ret result_monad]. rewrite Hp1, Hp2.
    cbn [bind ret result_monad].
    destruct (shape_eqb (shape p2) (shape p1)) eqn:Hs.
    + apply shape_eqb_eq in Hs.
      rewrite (ensemble_closed (ps := [p1; p2]) (s := shape p1));
        [|discriminate|repeat constructor; congruence|repeat constructor; auto].
      rewrite (ensemble_closed (ps := [p2; p1]) (s := shape p1));
        [|discriminate|repeat constructor; congruence|repeat constructor; auto].
      cbn [map sum_rows fold_left length].
      now rewrite (map2_comm_Forall2 add Hsums).
    + unfold ensemble, np_stack, same_shapes. cbn [forallb].
      rewrite Hs, (shape_eqb_sym (shape p1) (shape p2)), Hs. reflexivity.
  - intros Hcomm Hassoc ms ms' r. now apply ensemble_order_exact.
Qed.

End EnsembleTheorem.

(* ================================================================== *)
(** * Concrete models and the laws of exact arithmetic *)

Section FixtureFacts.

Context {T : Type} {NumT : Num T}.

Lemma full_wf (s : list nat) (v : T) : wf (full s v).
Proof. unfold wf, full; cbn [shape data]. apply repeat_length. Qed.

Lemma const_model_segments (v : T) (bs C : nat) :
  segments (const_model v) bs C 1.
Proof.
  intros x n h w Hs _. exists (full [n; h; w; 1] v).
  cbn [predict const_model]. rewrite Hs. repeat split. apply full_wf.
Qed.

Lemma const_model_returns_arrays (v : T) (bs : nat) :
  returns_arrays (const_model v) bs.
Proof.
  intros x out. cbn [predict const_model].
  destruct (shape x) as [|n [|h [|w [|c [|]]]]]; try discriminate.
  intros [= <-]. apply full_wf.
Qed.

Lemma echo_model_predict (x : ndarray T) (bs : nat) :
  wf x -> predict echo_model x bs = Ok x.
Proof.
  unfold wf. intros Hw. cbn [predict echo_model]. now rewrite Hw, Nat.eqb_refl.
Qed.

Lemma echo_model_segments (bs C : nat) :
  segments (echo_model (T:=T)) bs C C.
Proof.
  intros x n h w Hs Hw. exists x. now rewrite echo_model_predict.
Qed.

Lemma echo_model_returns_arrays (bs : nat) :
  returns_arrays (echo_model (T:=T)) bs.
Proof.
  intros x out. cbn [predict echo_model].
  destruct (Nat.eqb_spec (length (data x)) (size_of (shape x))) as [E|];
    [|discriminate].
  now intros [= <-].
Qed.

Lemma echo_model_flip_equivariant (bs : nat) (s : list nat) :
  flip_equivariant (echo_model (T:=T)) bs s.
Proof.
  intros y _ Hw. rewrite (echo_model_predict bs Hw).
  cbn [bind result_monad].
  destruct (fliplr_all y) as [y'|] eqn:Hy'; [|reflexivity].
  apply echo_model_predict. eapply fliplr_all_wf; eauto.
Qed.

End FixtureFacts.

Section ExactArithmetic.

Lemma Qc_of_nat_1 : Qc_of_nat 1 = 1%Qc.
Proof. apply Qc_is_canon. reflexivity. Qed.

Lemma Qc_of_nat_2 : Qc_of_nat 2 = (1 + 1)%Qc.
Proof. apply Qc_is_canon. reflexivity. Qed.

Lemma Qc_add_comm (a b : Qc) : add a b = add b a.
Proof. apply Qcplus_comm. Qed.

Lemma Qc_add_assoc (a b c : Qc) : add (add a b) c = add a (add b c).
Proof. symmetry. apply Qcplus_assoc. Qed.

Lemma Qc_divn_1 (a : Qc) : divn a 1 = a.
Proof.
  cbn [divn Qc_num]. rewrite Qc_of_nat_1. field. discriminate.
Qed.

Lemma Qc_mean_same (a : Qc) : divn (add a a) 2 = a.
Proof.
  cbn [divn add Qc_num]. rewrite Qc_of_nat_2. field. discriminate.
Qed.

Lemma Qc_mean_one_zero : divn (add 1%Qc 0%Qc) 2 = half.
Proof. apply Qc_is_canon. reflexivity. Qed.

Lemma Qc_gtb_spec (v t : Qc) : gtb v t = true <-> (t < v)%Qc.
Proof.
  cbn [gtb Qc_num]. rewrite (Qcgt_alt v t).
  destruct (v ?= t)%Qc; split; congruence.
Qed.

Lemma Qc_gtb_irrefl (t : Qc) : gtb t t = false.
Proof.
  destruct (gtb t t) eqn:E; [|reflexivity].
  apply Qc_gtb_spec in E. exfalso. now apply Qclt_not_eq in E.
Qed.

End ExactArithmetic.

(* ================================================================== *)
(** * The prediction runner at concrete inputs *)

Section RunnerExamples.

Lemma singleton_ensemble_is_single_witness :
  value (run_seg_prediction two_images (Ensemble [echo_model]) 32 true) =
  value (run_seg_prediction two_images (Single echo_model) 32 true).
Proof.
  apply singleton_ensemble_is_single.
  - exact Qc_divn_1.
  - apply echo_model_returns_arrays.
Defined.

(** The exact case, at the rationals. *)
Lemma ensemble_order_exact_at_rationals :
  value (run_seg_prediction two_images
           (Ensemble [const_model 0%Qc; const_model 1%Qc; echo_model])
           32 false) =
  Ok (mk_array [2; 2]
        (map (fun v => divn v 3)
             (map2 add (map2 add [1%Qc; 1%Qc; 1%Qc; 1%Qc]
                                 [1%Qc; 0%Qc; half; 1%Qc])
                       [0%Qc; 0%Qc; 0%Qc; 0%Qc]))).
Proof.
  apply (@ensemble_order_exact Qc _
           [const_model 1%Qc; echo_model; const_model 0%Qc]).
  - exact Qc_add_comm.
  - exact Qc_add_assoc.
  - repeat constructor;
      first [apply const_model_returns_arrays | apply echo_model_returns_arrays].
  - apply Permutation_sym, (Permutation_cons_app [_; _] []). reflexivity.
  - reflexivity.
Qed.

(** C6 fails in float64: the three models that answer 0.1, 0.2 and 0.3
    are averaged to one number in this order and to another in the
    reverse order, since (0.1 + 0.2) + 0.3 and (0.3 + 0.2) + 0.1 round
    differently. *)
Lemma float_ensemble_depends_on_order :
  Forall (fun m => returns_arrays m 32) float_models /\
  ~ same_for_every_order float_models float_images 32 false.
Proof.
  split.
  - repeat constructor; apply const_model_returns_arrays.
  - intros Hsame. specialize (Hsame (rev float_models) (Permutation_rev _)).
    apply (f_equal (fun r => match r with
                             | Ok a => nth 0 (data a) zero
                             | Raise _ => zero
                             end)) in Hsame.
    vm_compute in Hsame. rename Hsame into E.
    assert (Hne : forall a b : PrimFloat.float,
               PrimFloat.eqb a b = false -> PrimFloat.eqb b b = true ->
               a <> b).
    { intros a b Hab Hbb ->. congruence. }
    revert E. apply Hne; vm_compute; reflexivity.
Qed.

Lemma ensemble_order_where_sums_agree_witness :
  value (run_seg_prediction float_images
           (Ensemble [const_model (tenths 1); const_model (tenths 3)])
           32 false)
  = value (run_seg_prediction float_images
             (Ensemble [const_model (tenths 3); const_model (tenths 1)])
             32 false).
Proof.
  apply (@ensemble_order_where_sums_agree PrimFloat.float float_num
           (const_model (tenths 1)) (const_model (tenths 3))
           float_images 32 false
           (full [2; 1; 1; 1] (tenths 1)) (full [2; 1; 1; 1] (tenths 3)));
    try reflexivity.
  repeat constructor; vm_compute; reflexivity.
Defined.

End RunnerExamples.

Section SqueezeTheorems.

Context {T : Type} {NumT : Num T}.

(** A batch of one image: [squeeze] removes the batch axis as well. *)
Lemma run_seg_prediction_single_image (m : Model T) (bs C H W : nat)
      (x : ndarray T) :
  segments m bs C 1 ->
  shape x = [1; H; W; C] -> wf x ->
  H <> 1 -> W <> 1 ->
  exists r, value (run_seg_prediction x (Single m) bs false) = Ok r /\
            shape r = [H; W].
Proof.
  intros Hseg Hsx Hwx HH HW.
  destruct (Hseg x _ _ _ Hsx Hwx) as (p & Hp & Hsp & Hwp).
  exists (np_squeeze p). rewrite value_run_seg_prediction.
  unfold run_value. rewrite Hp. split; [reflexivity|].
  unfold np_squeeze. cbn [shape]. rewrite Hsp. cbn [filter Nat.eqb negb].
  apply Nat.eqb_neq in HH, HW. now rewrite HH, HW.
Qed.

(** C5, at a batch that holds one image.  The batch is (1, h+2, w+2, c),
    the model returns one-class masks of shape (1, h+2, w+2, 1), and
    [run_seg_prediction] returns an array of shape (h+2, w+2): the leading
    count is gone, where the docstring promises (n, x, y). *)
Theorem single_image_batch_loses_its_axis (h w c bs : nat) (v : T) :
  exists r,
    value (run_seg_prediction (full [1; S (S h); S (S w); c] zero)
                              (Single (const_model v)) bs false) = Ok r /\
    shape r = [S (S h); S (S w)] /\
    shape r <> [1; S (S h); S (S w)].
Proof.
  destruct (@run_seg_prediction_single_image (const_model v) bs c
              (S (S h)) (S (S w)) (full [1; S (S h); S (S w); c] zero))
    as (r & Hr & Hs);
    try (apply const_model_segments || apply full_wf || reflexivity
         || discriminate).
  exists r. rewrite Hs. repeat split; [assumption | discriminate].
Qed.

End SqueezeTheorems.

(* ================================================================== *)
(** * Thresholding *)

Section Thresholding.

Lemma map2_repeat {T : Type} (f : T -> T -> T) (a b : T) (k : nat) :
  map2 f (repeat a k) (repeat b k) = repeat (f a b) k.
Proof. induction k as [|k IH]; simpl; [reflexivity | now rewrite IH]. Qed.

Lemma binarize_pixels (p : ndarray Qc) (t : Qc) :
  Forall2 (fun v b => b = true <-> (t < v)%Qc) (data p) (data (binarize p t)).
Proof.
  unfold binarize; cbn [data].
  induction (data p) as [|v l IH]; cbn [map]; constructor; [|exact IH].
  apply Qc_gtb_spec.
Qed.

(** C9.  A pixel is foreground exactly when its probability is strictly
    above the threshold.  Ensembling (without test-time augmentation) a
    model that answers 1 everywhere with a model that answers 0 everywhere
    gives the probability 1/2 everywhere, and at threshold 1/2 every pixel
    of that map is background. *)
Theorem binarize_strict_tie_is_background :
  (forall (p : ndarray Qc) (t : Qc),
      shape (binarize p t) = shape p /\
      Forall2 (fun v b => b = true <-> (t < v)%Qc)
              (data p) (data (binarize p t))) /\
  (forall (n h w c bs : nat) (d : list Qc),
      exists avg,
        value (run_seg_prediction (mk_array [n; h; w; c] d)
                 (Ensemble [const_model 1%Qc; const_model 0%Qc]) bs false)
          = Ok avg /\
        data avg = repeat half (size_of [n; h; w; 1]) /\
        data (binarize avg half) = repeat false (size_of [n; h; w; 1])).
Proof.
  split.
  - intros p t. split; [reflexivity | apply binarize_pixels].
  - intros n h w c bs d. rewrite value_run_seg_prediction.
    unfold run_value.
    cbn [mapM bind ret result_monad predict const_model shape].
    rewrite (ensemble_closed (s := [n; h; w; 1]));
      [|discriminate| repeat constructor | repeat constructor; apply full_wf].
    eexists. split; [reflexivity|].
    cbn [np_squeeze data map full sum_rows fold_left length].
    rewrite map2_repeat, map_repeat, Qc_mean_one_zero.
    split; [reflexivity|].
    unfold binarize, np_squeeze; cbn [data].
    now rewrite map_repeat, Qc_gtb_irrefl.
Qed.

End Thresholding.

(* ================================================================== *)
(** * Facts about [sorted] and about the table *)

Section ListFacts.

Lemma strs_eqb_eq (l1 l2 : list string) : strs_eqb l1 l2 = true <-> l1 = l2.
Proof.
  revert l2; induction l1 as [|x l1 IH]; intros [|y l2]; simpl;
    try (split; [discriminate | congruence]); try tauto.
  rewrite andb_true_iff, String.eqb_eq, IH.
  split; [intros [-> ->]; reflexivity | intros [= -> ->]; auto].
Qed.

Lemma insert_sorted_perm (x : string) (l : list string) :
  Permutation (insert_sorted x l) (x :: l).
Proof.
  induction l as [|y l IH]; simpl; [reflexivity|].
  destruct (String.leb x y); [reflexivity|].
  rewrite IH. apply perm_swap.
Qed.

Lemma sorted_perm (l : list string) : Permutation (sorted l) l.
Proof.
  induction l as [|x l IH]; simpl; [reflexivity|].
  rewrite insert_sorted_perm. now constructor.
Qed.

Lemma in_sorted (x : string) (l : list string) : In x (sorted l) <-> In x l.
Proof.
  split; apply Permutation_in;
    [apply sorted_perm | apply Permutation_sym, sorted_perm].
Qed.

Lemma insert_sorted_hd (x y : string) (l : list string) :
  str_le y x -> HdRel str_le y l -> HdRel str_le y (insert_sorted x l).
Proof.
  intros Hyx Hl. destruct l as [|z l]; simpl; [now constructor|].
  destruct (String.leb x z); constructor; [assumption|].
  now inversion Hl.
Qed.

Lemma insert_sorted_Sorted (x : string) (l : list string) :
  Sorted str_le l -> Sorted str_le (insert_sorted x l).
Proof.
  induction 1 as [|y l Hl IH Hy]; simpl; [repeat constructor|].
  destruct (String.leb x y) eqn:Hxy.
  - repeat constructor; assumption.
  - constructor; [assumption|].
    apply insert_sorted_hd; [|assumption].
    destruct (String.leb_total x y) as [E|E]; [congruence | exact E].
Qed.

Lemma sorted_Sorted (l : list string) : Sorted str_le (sorted l).
Proof.
  induction l as [|x l IH]; simpl; [constructor|].
  now apply insert_sorted_Sorted.
Qed.

Lemma sorted_fixpoint (l : list string) : Sorted str_le l -> sorted l = l.
Proof.
  induction 1 as [|x l Hl IH Hx]; simpl; [reflexivity|].
  rewrite IH. destruct Hx as [|y l Hxy]; simpl; [reflexivity|].
  unfold str_le in Hxy. now rewrite Hxy.
Qed.

Lemma sorted_idempotent (l : list string) : sorted (sorted l) = sorted l.
Proof. apply sorted_fixpoint, sorted_Sorted. Qed.

Lemma str_in_In (x : string) (l : list string) :
  str_in x l = true <-> In x l.
Proof.
  unfold str_in. rewrite existsb_exists. split.
  - intros (y & Hy & E). apply String.eqb_eq in E. now subst.
  - intros Hx. exists x. split; [assumption | apply String.eqb_refl].
Qed.

End ListFacts.

Section TableFacts.

Lemma is_pending_spec (r : row) :
  is_pending r = true <-> EncodedPixels r = VInt 1.
Proof.
  unfold is_pending. destruct (EncodedPixels r) as [z|s]; simpl.
  - rewrite Z.eqb_eq. split; congruence.
  - split; discriminate.
Qed.

Lemma is_blank_spec (r : row) :
  is_blank r = true <-> EncodedPixels r = VStr "".
Proof.
  unfold is_blank. destruct (EncodedPixels r) as [z|s]; simpl.
  - split; discriminate.
  - rewrite String.eqb_eq. split; congruence.
Qed.

Lemma fold_inject_rows (pairs : list (string * string)) (df : DataFrame) :
  fold_left inject pairs df = map (fun r => fold_left inject_row pairs r) df.
Proof.
  revert df; induction pairs as [|[id_ rle] pairs IH]; intros df; simpl.
  - now rewrite map_id.
  - rewrite IH. unfold loc_set. now rewrite map_map.
Qed.

Lemma inject_rows_id (pairs : list (string * string)) (r : row) :
  ImageId (fold_left inject_row pairs r) = ImageId r.
Proof.
  revert r; induction pairs as [|[id_ rle] pairs IH]; intros r; simpl;
    [reflexivity|].
  rewrite IH. now destruct (String.eqb (ImageId r) id_).
Qed.

Lemma inject_rows_untouched (pairs : list (string * string)) (r : row) :
  ~ In (ImageId r) (map fst pairs) -> fold_left inject_row pairs r = r.
Proof.
  revert r; induction pairs as [|[id_ rle] pairs IH]; intros r Hr; simpl;
    [reflexivity|].
  simpl in Hr. destruct (String.eqb_spec (ImageId r) id_) as [E|E].
  - exfalso; apply Hr; now left.
  - apply IH. intros Hin; apply Hr; now right.
Qed.

Lemma inject_rows_touched (pairs : list (string * string)) (r : row) :
  In (ImageId r) (map fst pairs) ->
  exists rle, In rle (map snd pairs) /\
              EncodedPixels (fold_left inject_row pairs r) = VStr rle.
Proof.
  revert r; induction pairs as [|[id_ rle] pairs IH]; intros r Hr; simpl in *;
    [contradiction|].
  destruct (in_dec string_dec (ImageId r) (map fst pairs)) as [Hin|Hout].
  - destruct (IH (if String.eqb (ImageId r) id_
                  then mk_row (ImageId r) (VStr rle) else r)) as (s & Hs & E).
    { now destruct (String.eqb (ImageId r) id_). }
    exists s. split; [now right | exact E].
  - destruct Hr as [E|Hin]; [|contradiction]. subst id_.
    rewrite String.eqb_refl. exists rle. split; [now left|].
    rewrite inject_rows_untouched; [reflexivity | exact Hout].
Qed.

Lemma map_fst_combine (ids rles : list string) :
  length ids <= length rles -> map fst (combine ids rles) = ids.
Proof.
  revert rles; induction ids as [|i ids IH]; intros [|s rles] Hl; simpl in *;
    try reflexivity; try lia.
  now rewrite IH by lia.
Qed.

Lemma in_map_snd_combine (ids rles : list string) (s : string) :
  In s (map snd (combine ids rles)) -> In s rles.
Proof.
  rewrite in_map_iff. intros ([i s'] & E & Hin). simpl in E; subst s'.
  eapply in_combine_r; eauto.
Qed.

Lemma pending_is_selected (df : DataFrame) (r : row) :
  In r df -> EncodedPixels r = VInt 1 ->
  In (ImageId r)
     (sorted (loc_ids (fun r => cell_eq_int (EncodedPixels r) 1) df)).
Proof.
  intros Hr Hp. apply in_sorted. unfold loc_ids. apply in_map.
  apply filter_In. split; [assumption|]. now apply is_pending_spec.
Qed.

End TableFacts.

(* ================================================================== *)
(** * The orchestrator *)

Section OrchestratorFacts.

Context {T : Type} {NumT : Num T}.

Variable stem : string -> string.
Variable load_input : string -> nat -> nat -> result (ndarray T).
Variable preprocess_input : ndarray T -> result (ndarray T).
Variable post_process_all : ndarray T -> T -> nat -> result (ndarray T).
Variable mask2rle : ndarray T -> nat -> nat -> result string.
Variable cwd : string.

Variable seg_model : SegModel T.
Variable sub_df : DataFrame.
Variable test_fpaths : list string.
Variables channels img_size batch_size : nat.
Variable tta : bool.
Variable threshold : T.
Variable save_pred_arr_p : bool.
Variable min_roi_size : nat.
Variable preprocess_fn : option (ndarray T -> result (ndarray T)).

Local Notation "'the_run'" :=
  (Stage2 stem load_input preprocess_input post_process_all mask2rle cwd
          seg_model sub_df test_fpaths channels img_size batch_size tta
          threshold save_pred_arr_p min_roi_size preprocess_fn).

Local Notation "'seg_ids'" := (select_ids sub_df).
Local Notation "'x_test_fpaths'" := (select_fpaths stem seg_ids test_fpaths).
Local Notation "'preprocess'" :=
  (match preprocess_fn with None => preprocess_input | Some f => f end).

Lemma Stage2_mismatch :
  strs_eqb (map stem x_test_fpaths) seg_ids = false ->
  the_run =
  ([], Raise (AssertionError
                "The x_test is loaded must match the ordering of seg_ids.")).
Proof. intros E. unfold Stage2, assert. rewrite E. reflexivity. Qed.

Lemma Stage2_completes_inv :
  value the_run = Ok tt ->
  exists imgs x0 x preds post df',
    map stem x_test_fpaths = seg_ids /\
    mapM (fun fpath => load_input fpath img_size channels) x_test_fpaths
      = Ok imgs /\
    np_asarray imgs = Ok x0 /\
    preprocess x0 = Ok x /\
    value (run_seg_prediction x seg_model batch_size tta) = Ok preds /\
    post_process_all preds threshold min_roi_size = Ok post /\
    edit_classification_df mask2rle sub_df post seg_ids = Ok df' /\
    trace the_run =
      trace (run_seg_prediction x seg_model batch_size tta) ++
      artifacts cwd save_pred_arr_p preds df'.
Proof.
  unfold Stage2, assert, artifacts, value, trace.
  destruct (strs_eqb _ _) eqn:Hids; [|discriminate].
  apply strs_eqb_eq in Hids.
  cbn [bind ret lift M_monad result_monad app fst snd].
  destruct (mapM _ x_test_fpaths) as [imgs|] eqn:Himgs; [|discriminate].
  destruct (np_asarray imgs) as [x0|] eqn:Hx0; [|discriminate].
  destruct (preprocess x0) as [x|] eqn:Hx; [|discriminate].
  destruct (run_seg_prediction x seg_model batch_size tta)
    as [tr [preds|]] eqn:Hrun; [|discriminate].
  destruct (post_process_all preds threshold min_roi_size) as [post|] eqn:Hpost;
    [|destruct save_pred_arr_p; discriminate].
  destruct (edit_classification_df mask2rle sub_df post seg_ids)
    as [df'|] eqn:Hdf; [|destruct save_pred_arr_p; discriminate].
  intros _. exists imgs, x0, x, preds, post, df'.
  rewrite Hrun. repeat split; try assumption.
  destruct save_pred_arr_p; cbn; now rewrite ?app_nil_r.
Qed.

(** C2.  The ids selected are exactly those of the rows whose field is the
    pending sentinel, in ascending lexicographic order; and when the sorted
    stems of the resolved files differ from that list, the run raises its
    assertion error with an empty trace: nothing was predicted, nothing
    was written. *)
Theorem selection_is_checked_before_inference :
  (forall id, In id seg_ids <->
              exists r, In r sub_df /\ ImageId r = id /\
                        EncodedPixels r = VInt 1) /\
  Permutation seg_ids (loc_ids is_pending sub_df) /\
  Sorted str_le seg_ids /\
  (sorted (map stem x_test_fpaths) <> seg_ids ->
   exists msg, value the_run = Raise (AssertionError msg) /\
               trace the_run = []).
Proof.
  repeat split.
  - unfold select_ids. rewrite in_sorted. unfold loc_ids. rewrite in_map_iff.
    intros (r & Hid & Hr). apply filter_In in Hr. destruct Hr as [Hr Hp].
    exists r. repeat split; auto. now apply is_pending_spec.
  - intros (r & Hr & Hid & Hp). subst id. now apply pending_is_selected.
  - apply sorted_perm.
  - apply sorted_Sorted.
  - intros Hne.
    destruct (strs_eqb (map stem x_test_fpaths) seg_ids) eqn:E.
    + apply strs_eqb_eq in E. exfalso. apply Hne. rewrite E.
      apply sorted_idempotent.
    + rewrite (Stage2_mismatch E). eexists. split; reflexivity.
Qed.

Lemma np_asarray_shape_wf (imgs : list (ndarray T)) (x0 : ndarray T)
      (s : list nat) :
  imgs <> [] ->
  Forall (fun a => shape a = s /\ wf a) imgs ->
  np_asarray imgs = Ok x0 ->
  shape x0 = length imgs :: s /\ wf x0.
Proof.
  intros Hne Hall. destruct imgs as [|a tl]; [congruence|].
  unfold np_asarray. destruct (same_shapes (shape a) tl); [|discriminate].
  intros E. apply Ok_inj in E. subst x0. unfold wf. cbn [shape data].
  inversion Hall as [|? ? [Hsa _] _]; subst. split; [reflexivity|].
  rewrite (@length_concat_blocks _ (size_of (shape a))).
  - now rewrite length_map.
  - apply Forall_map. eapply Forall_impl; [|exact Hall].
    intros b [Hsb Hwb]. unfold wf in Hwb. now rewrite Hwb, Hsb.
Qed.

Lemma iter_array_length (a : ndarray T) (l : list (ndarray T)) :
  iter_array a = Ok l -> exists rest, shape a = length l :: rest.
Proof.
  unfold iter_array. destruct (shape a) as [|d rest]; [discriminate|].
  intros E. apply Ok_inj in E. subst l. exists rest.
  now rewrite length_map, chunks_length.
Qed.

Lemma one_prediction_shape (m : Model T) (x p : ndarray T)
      (bs C N H W : nat) (use_tta : bool) :
  segments m bs C 1 ->
  shape x = [S N; H; W; C] -> wf x ->
  (if use_tta then tta_value m x bs else predict m x bs) = Ok p ->
  shape p = [S N; H; W; 1].
Proof.
  intros Hseg Hsx Hwx Hp. destruct use_tta.
  - destruct (tta_value_closed Hseg Hsx Hwx)
      as (x' & p0 & q & q' & _ & _ & Hsp & _ & _ & _ & Htta).
    rewrite Htta in Hp. apply Ok_inj in Hp. now subst p.
  - destruct (Hseg x _ _ _ Hsx Hwx) as (out & Hout & Hso & _).
    rewrite Hout in Hp. apply Ok_inj in Hp. now subst p.
Qed.

Lemma ensemble_shape (p r : ndarray T) (tl : list (ndarray T)) :
  ensemble (p :: tl) = Ok r ->
  shape r = filter (fun d => negb (d =? 1)) (shape p).
Proof.
  unfold ensemble, np_stack.
  destruct (same_shapes (shape p) tl); [|discriminate].
  cbn [bind ret result_monad np_mean_axis0 shape].
  intros E. apply Ok_inj in E. now subst r.
Qed.

Lemma run_seg_prediction_squeezed_shape (model : SegModel T)
      (x r : ndarray T) (bs C N H W : nat) (use_tta : bool) :
  models_segment model bs C ->
  shape x = [S N; H; W; C] -> wf x ->
  value (run_seg_prediction x model bs use_tta) = Ok r ->
  shape r = filter (fun d => negb (d =? 1)) [S N; H; W; 1].
Proof.
  intros Hseg Hsx Hwx. rewrite value_run_seg_prediction. unfold run_value.
  destruct model as [m|ms]; cbn [models_segment bind ret result_monad] in *.
  - destruct (if use_tta then _ else _) as [p|] eqn:Hp; [|discriminate].
    intros E. apply Ok_inj in E. subst r.
    unfold np_squeeze; cbn [shape].
    assert (Hsp : shape p = [S N; H; W; 1])
      by (eapply one_prediction_shape; eauto).
    now rewrite Hsp.
  - destruct (mapM _ ms) as [ps|] eqn:Hps; [|discriminate].
    intros Hr. apply mapM_Ok_Forall2 in Hps.
    destruct (ensemble_Ok_inv _ Hr) as (p & tl & -> & _).
    rewrite (ensemble_shape _ _ Hr).
    inversion Hps as [|m ? ms' ? Hp _]; subst.
    inversion Hseg as [|? ? Hm _]; subst.
    assert (Hsp : shape p = [S N; H; W; 1])
      by (eapply one_prediction_shape; eauto).
    now rewrite Hsp.
Qed.

(** One mask reaches the encoder for every selected id. *)
Lemma enough_masks (imgs masks : list (ndarray T))
      (x0 x preds post : ndarray T) :
  loads_images load_input img_size channels ->
  keeps_shape preprocess ->
  models_segment seg_model batch_size channels ->
  (forall a b, post_process_all a threshold min_roi_size = Ok b ->
               shape b = shape a) ->
  0 < img_size ->
  mapM (fun fpath => load_input fpath img_size channels) x_test_fpaths
    = Ok imgs ->
  np_asarray imgs = Ok x0 ->
  preprocess x0 = Ok x ->
  value (run_seg_prediction x seg_model batch_size tta) = Ok preds ->
  post_process_all preds threshold min_roi_size = Ok post ->
  iter_array post = Ok masks ->
  length x_test_fpaths <= length masks.
Proof.
  intros Hload Hpre Hseg Hpost Hsize Himgs Hx0 Hx Hrun Hp Hmasks.
  apply mapM_Ok_Forall2 in Himgs.
  pose proof (Forall2_length Himgs) as Hlen.
  destruct imgs as [|img0 tl] eqn:Eimgs; [simpl in Hlen; lia|].
  assert (Hall : Forall (fun a => shape a = [img_size; img_size; channels] /\
                                  wf a) (img0 :: tl)).
  { clear -Himgs Hload. induction Himgs; constructor; eauto. }
  assert (Hne : img0 :: tl <> []) by discriminate.
  destruct (np_asarray_shape_wf Hne Hall Hx0) as [Hs0 Hw0].
  destruct (Hpre _ _ Hx) as [Hsx Hwx]. rewrite Hs0 in Hsx.
  cbn [length] in Hsx.
  assert (Hsr : shape preds =
                filter (fun d => negb (d =? 1))
                       [S (length tl); img_size; img_size; 1])
    by (eapply run_seg_prediction_squeezed_shape; eauto).
  apply Hpost in Hp. rewrite Hsr in Hp.
  destruct (iter_array_length _ Hmasks) as (rest & Hsm).
  rewrite Hsm in Hp. rewrite Hlen. cbn [length].
  cbn [filter] in Hp.
  destruct (length tl) as [|n].
  - cbn [Nat.eqb negb] in Hp.
    destruct (Nat.eqb_spec img_size 1) as [E1|E1]; cbn [negb] in Hp.
    + discriminate.
    + injection Hp as Hp _. lia.
  - cbn [Nat.eqb negb] in Hp. injection Hp as Hp _. lia.
Qed.

Lemma edit_classification_df_inv (df df' : DataFrame) (post : ndarray T)
      (ids : list string) :
  edit_classification_df mask2rle df post ids = Ok df' ->
  exists masks rles,
    iter_array post = Ok masks /\
    mapM (fun pred => mask2rle pred 1024 1024) masks = Ok rles /\
    df' = map (fun r => unblank_row
                          (fold_left inject_row (combine ids rles) r)) df.
Proof.
  unfold edit_classification_df. cbn [bind ret result_monad].
  destruct (iter_array post) as [masks|]; [|discriminate].
  destruct (mapM _ masks) as [rles|] eqn:Hrles; [|discriminate].
  intros E. apply Ok_inj in E. subst df'. exists masks, rles.
  split; [reflexivity|]. split; [assumption|].
  rewrite fold_inject_rows. unfold loc_set. now rewrite map_map.
Qed.

Lemma unblank_row_spec (x : row) :
  ImageId (unblank_row x) = ImageId x /\
  EncodedPixels (unblank_row x) <> VStr "" /\
  (EncodedPixels (unblank_row x) = EncodedPixels x \/
   EncodedPixels (unblank_row x) = VStr "-1").
Proof.
  unfold unblank_row. destruct (is_blank x) eqn:E; cbn [ImageId EncodedPixels].
  - repeat split; [discriminate | now right].
  - repeat split; [|now left].
    intros Hb. apply is_blank_spec in Hb. congruence.
Qed.

Lemma Forall2_map_self {A B : Type} (P : A -> B -> Prop) (g : A -> B)
      (l : list A) :
  (forall a, In a l -> P a (g a)) -> Forall2 P l (map g l).
Proof.
  induction l as [|a l IH]; intros Hl; simpl; constructor.
  - apply Hl. now left.
  - apply IH. intros b Hb. apply Hl. now right.
Qed.

Lemma Forall2_in_r {A B : Type} (P : A -> B -> Prop) (l : list A)
      (l' : list B) (y : B) :
  Forall2 P l l' -> In y l' -> exists x, In x l /\ P x y.
Proof.
  induction 1 as [|a b l l' Hab _ IH]; simpl; [contradiction|].
  intros [<-|Hy].
  - exists a. split; [now left | assumption].
  - destruct (IH Hy) as (x & Hx & Hp). exists x. split; [now right | assumption].
Qed.

(** C1.  When a run completes, the table it writes has a row for every row
    of the classification table, and no field of it is the pending
    sentinel or the empty string: a field is either the one the
    classification stage wrote (never the pending sentinel), or ["-1"], or
    a string the encoder returned for a mask at 1024 x 1024.  Asked of the
    collaborators: images of the requested size, a preprocessing and a
    post-processing that keep shapes, one-class segmentation models. *)
Theorem stage2_leaves_no_pending_or_blank :
  loads_images load_input img_size channels ->
  keeps_shape preprocess ->
  models_segment seg_model batch_size channels ->
  (forall a b, post_process_all a threshold min_roi_size = Ok b ->
               shape b = shape a) ->
  0 < img_size ->
  value the_run = Ok tt ->
  exists tr df',
    trace the_run = tr ++ [EvToCsv "submission_final.csv" df'] /\
    Forall2
      (fun r r' =>
         ImageId r' = ImageId r /\
         EncodedPixels r' <> VInt 1 /\
         EncodedPixels r' <> VStr "" /\
         ((EncodedPixels r <> VInt 1 /\ EncodedPixels r' = EncodedPixels r) \/
          EncodedPixels r' = VStr "-1" \/
          exists pred rle, mask2rle pred 1024 1024 = Ok rle /\
                           EncodedPixels r' = VStr rle))
      sub_df df'.
Proof.
  intros Hload Hpre Hseg Hpost Hsize Hrun.
  destruct (Stage2_completes_inv Hrun)
    as (imgs & x0 & x & preds & post & df' & Hids & Himgs & Hx0 & Hx & Hpreds
        & Hp & Hdf & Htr).
  destruct (edit_classification_df_inv _ _ _ Hdf)
    as (masks & rles & Hmasks & Hrles & ->).
  assert (Hcount : length x_test_fpaths <= length masks)
    by (eapply enough_masks; eauto).
  apply mapM_Ok_Forall2 in Hrles.
  pose proof (Forall2_length Hrles) as Hlen.
  assert (Hfst : map fst (combine seg_ids rles) = seg_ids).
  { apply map_fst_combine. rewrite <- Hids at 1. rewrite length_map. lia. }
  eexists. eexists. split.
  { rewrite Htr. unfold artifacts. rewrite app_assoc. reflexivity. }
  apply Forall2_map_self. intros r Hr.
  set (x1 := fold_left inject_row (combine seg_ids rles) r).
  destruct (unblank_row_spec x1) as (Hid & Hnb & Hcases).
  assert (Hnp : EncodedPixels r = VInt 1 -> In (ImageId r) seg_ids)
    by (intros E; now apply pending_is_selected).
  destruct (in_dec string_dec (ImageId r) seg_ids) as [Hin|Hout].
  - destruct (inject_rows_touched (combine seg_ids rles) r) as (rle & Hrle & E).
    { now rewrite Hfst. }
    fold x1 in E. apply in_map_snd_combine in Hrle.
    destruct (@Forall2_in_r _ _ _ _ _ rle Hrles Hrle) as (pred & _ & Hpred).
    repeat split.
    + rewrite Hid. apply inject_rows_id.
    + destruct Hcases as [Hc|Hc]; rewrite Hc; [rewrite E|]; discriminate.
    + exact Hnb.
    + destruct Hcases as [Hc|Hc]; [|now right; left].
      right; right. exists pred, rle. split; [assumption | congruence].
  - assert (Ex : x1 = r).
    { apply inject_rows_untouched. now rewrite Hfst. }
    rewrite Ex in *. repeat split; auto.
    + destruct Hcases as [Hc|Hc]; rewrite Hc; [|discriminate].
      intros E. apply Hout, Hnp, E.
    + destruct Hcases as [Hc|Hc]; [|now right; left].
      left. split; [|exact Hc]. intros E. apply Hout, Hnp, E.
Qed.

Lemma select_fpaths_nil (fpaths : list string) :
  select_fpaths stem [] fpaths = [].
Proof.
  unfold select_fpaths.
  replace (filter _ fpaths) with (@nil string); [reflexivity|].
  induction fpaths as [|f l IH]; simpl; auto.
Qed.

Lemma trace_TTA_starts (m : Model T) (x : ndarray T) (bs : nat) :
  exists tr, trace (TTA_Segmentation_All m x bs) = EvPredict x bs :: tr.
Proof.
  unfold TTA_Segmentation_All. rewrite trace_bind, trace_model_predict.
  eexists. reflexivity.
Qed.

Lemma trace_run_starts (x : ndarray T) (model : SegModel T) (bs : nat)
      (use_tta : bool) :
  model <> Ensemble [] ->
  exists tr, trace (run_seg_prediction x model bs use_tta)
             = EvPredict x bs :: tr.
Proof.
  intros Hne. unfold run_seg_prediction.
  destruct use_tta, model as [m|[|m ms]]; try congruence;
    rewrite trace_bind; cbn [mapM]; rewrite ?trace_bind.
  - destruct (trace_TTA_starts m x bs) as (tr & ->). eexists. reflexivity.
  - destruct (trace_TTA_starts m x bs) as (tr & ->). eexists. reflexivity.
  - rewrite trace_model_predict. eexists. reflexivity.
  - rewrite trace_model_predict. eexists. reflexivity.
Qed.

Lemma Stage2_trace_after_selection (imgs : list (ndarray T))
      (x0 x : ndarray T) :
  map stem x_test_fpaths = seg_ids ->
  mapM (fun fpath => load_input fpath img_size channels) x_test_fpaths
    = Ok imgs ->
  np_asarray imgs = Ok x0 ->
  preprocess x0 = Ok x ->
  exists tr,
    trace the_run = trace (run_seg_prediction x seg_model batch_size tta) ++ tr.
Proof.
  intros Hids Himgs Hx0 Hx. apply strs_eqb_eq in Hids.
  unfold Stage2, assert, trace. rewrite Hids.
  cbn [bind ret lift M_monad result_monad app fst snd].
  rewrite Himgs, Hx0, Hx.
  destruct (run_seg_prediction x seg_model batch_size tta) as [tr [preds|]].
  - destruct (post_process_all preds threshold min_roi_size) as [post|];
      [destruct (edit_classification_df mask2rle sub_df post seg_ids)|];
      destruct save_pred_arr_p; cbn; eexists; reflexivity.
  - exists []. cbn. now rewrite app_nil_r.
Qed.

(** C4, as the code has it.  When no identifier carries the pending
    sentinel the selection check passes and the prediction runner is
    invoked on the preprocessed empty batch; if the run completes, the
    table written is the input table with blank fields forced to ["-1"],
    hence the input table itself when it holds no blank field. *)
Theorem empty_selection_still_runs_inference :
  seg_ids = [] ->
  (forall x, preprocess (mk_array [0] []) = Ok x ->
             seg_model <> Ensemble [] ->
             exists tr, trace the_run = EvPredict x batch_size :: tr) /\
  (value the_run = Ok tt ->
   exists tr, trace the_run =
              tr ++ [EvToCsv "submission_final.csv" (map unblank_row sub_df)]) /\
  ((forall r, In r sub_df -> EncodedPixels r <> VStr "") ->
   map unblank_row sub_df = sub_df).
Proof.
  intros Hnone.
  assert (Hfp : x_test_fpaths = []) by (rewrite Hnone; apply select_fpaths_nil).
  repeat split.
  - intros x Hx Hne.
    destruct (@Stage2_trace_after_selection [] (mk_array [0] []) x)
      as (tr & Htr); try (rewrite Hfp, ?Hnone; reflexivity); auto.
    destruct (trace_run_starts x batch_size tta Hne) as (tr' & Htr').
    rewrite Htr, Htr'. eexists. reflexivity.
  - intros Hrun.
    destruct (Stage2_completes_inv Hrun)
      as (imgs & x0 & x & preds & post & df' & _ & _ & _ & _ & _ & _ & Hdf
          & Htr).
    destruct (edit_classification_df_inv _ _ _ Hdf)
      as (masks & rles & _ & _ & ->).
    rewrite Hnone in Htr. cbn [combine fold_left] in Htr.
    rewrite Htr. unfold artifacts. rewrite app_assoc. eexists. reflexivity.
  - intros Hnb. rewrite <- (map_id sub_df) at 2. apply map_ext_in.
    intros r Hr. unfold unblank_row.
    destruct (is_blank r) eqn:E; [|reflexivity].
    apply is_blank_spec in E. now apply Hnb in E.
Qed.

End OrchestratorFacts.

(* ================================================================== *)
(** * The declared dimensions of the encoder *)

Section DeclaredDimensions.

Context {T : Type} {NumT : Num T}.

Lemma M_bind_ext {A B : Type} (c : M T A) (k k' : A -> M T B) :
  (forall a, k a = k' a) -> bind c k = bind c k'.
Proof. intros Hk. destruct c as [tr [a|e]]; cbn; now rewrite ?Hk. Qed.

(** C10.  In a run that completes, the images are loaded at [img_size],
    and every mask of the post-processed prediction is handed to the
    encoder with the declared dimensions 1024 and 1024, whatever
    [img_size] is: the encodings written into the table are the results
    of [mask2rle mask 1024 1024], mask by mask. *)
Theorem encoding_dimensions_are_fixed
        (stem : string -> string)
        (load_input : string -> nat -> nat -> result (ndarray T))
        (preprocess_input : ndarray T -> result (ndarray T))
        (post_process_all : ndarray T -> T -> nat -> result (ndarray T))
        (mask2rle : ndarray T -> nat -> nat -> result string)
        (cwd : string) (seg_model : SegModel T) (sub_df : DataFrame)
        (test_fpaths : list string) (channels img_size batch_size : nat)
        (tta : bool) (threshold : T) (save_pred_arr_p : bool)
        (min_roi_size : nat)
        (preprocess_fn : option (ndarray T -> result (ndarray T))) :
  value (Stage2 stem load_input preprocess_input post_process_all mask2rle
                cwd seg_model sub_df test_fpaths channels img_size
                batch_size tta threshold save_pred_arr_p min_roi_size
                preprocess_fn) = Ok tt ->
  exists imgs x preds post masks rles df',
    mapM (fun fpath => load_input fpath img_size channels)
         (select_fpaths stem (select_ids sub_df) test_fpaths) = Ok imgs /\
    value (run_seg_prediction x seg_model batch_size tta) = Ok preds /\
    post_process_all preds threshold min_roi_size = Ok post /\
    iter_array post = Ok masks /\
    Forall2 (fun mask rle => mask2rle mask 1024 1024 = Ok rle) masks rles /\
    df' = map (fun r => unblank_row
                          (fold_left inject_row
                                     (combine (select_ids sub_df) rles) r))
              sub_df /\
    In (EvToCsv "submission_final.csv" df')
       (trace (Stage2 stem load_input preprocess_input post_process_all
                      mask2rle cwd seg_model sub_df test_fpaths channels
                      img_size batch_size tta threshold save_pred_arr_p
                      min_roi_size preprocess_fn)).
Proof.
  intros Hrun.
  destruct (Stage2_completes_inv _ _ _ _ _ _ _ _ _ _ _ _ _ _ _ _ _ Hrun)
    as (imgs & x0 & x & preds & post & df' & _ & Himgs & _ & _ & Hpreds
        & Hpost & Hdf & Htr).
  destruct (edit_classification_df_inv _ _ _ _ Hdf)
    as (masks & rles & Hmasks & Hrles & Hdf').
  exists imgs, x, preds, post, masks, rles, df'.
  repeat split; try assumption.
  - now apply mapM_Ok_Forall2.
  - rewrite Htr. apply in_or_app. right. unfold artifacts.
    apply in_or_app. right. now left.
Qed.

End DeclaredDimensions.

Section DemoFacts.

Lemma demo_load_images (img_size channels : nat) :
  loads_images demo_load img_size channels.
Proof.
  intros fpath img E. apply Ok_inj in E. subst img.
  split; [reflexivity | apply full_wf].
Qed.

Lemma demo_preprocess_keeps_shape : keeps_shape demo_preprocess.
Proof. intros a b E. apply Ok_inj in E. now subst b. Qed.

Lemma demo_post_process_keeps_shape (a b : ndarray Qc) (t : Qc) (n : nat) :
  demo_post_process a t n = Ok b -> shape b = shape a.
Proof. intros E. apply Ok_inj in E. now subst b. Qed.

Lemma stage2_leaves_no_pending_or_blank_witness :
  exists tr df',
    trace (demo_run demo_mask2rle demo_table demo_files) =
      tr ++ [EvToCsv "submission_final.csv" df'] /\
    Forall2
      (fun r r' =>
         ImageId r' = ImageId r /\
         EncodedPixels r' <> VInt 1 /\
         EncodedPixels r' <> VStr "" /\
         ((EncodedPixels r <> VInt 1 /\ EncodedPixels r' = EncodedPixels r) \/
          EncodedPixels r' = VStr "-1" \/
          exists pred rle, demo_mask2rle pred 1024 1024 = Ok rle /\
                           EncodedPixels r' = VStr rle))
      demo_table df'.
Proof.
  apply (@stage2_leaves_no_pending_or_blank Qc _ posix_stem demo_load
           demo_preprocess demo_post_process demo_mask2rle "/work"
           (Single echo_model) demo_table demo_files 1 2 32 true half true
           3500 None).
  - apply demo_load_images.
  - exact demo_preprocess_keeps_shape.
  - apply echo_model_segments.
  - intros a b. apply demo_post_process_keeps_shape.
  - lia.
  - vm_compute. reflexivity.
Defined.

Lemma selection_is_checked_before_inference_witness :
  exists msg,
    value (demo_run demo_mask2rle demo_table ["imgs/a.png"; "imgs/b.png"]%string)
      = Raise (AssertionError msg) /\
    trace (demo_run demo_mask2rle demo_table ["imgs/a.png"; "imgs/b.png"]%string)
      = [].
Proof.
  apply (@selection_is_checked_before_inference Qc _ posix_stem demo_load
           demo_preprocess demo_post_process demo_mask2rle "/work"
           (Single echo_model) demo_table ["imgs/a.png"; "imgs/b.png"]%string
           1 2 32 true half true 3500 None).
  vm_compute. discriminate.
Defined.

(** C4 fails at a table without positives: the run completes and writes
    the table back, but the model was asked to predict on the empty
    batch. *)
Lemma empty_selection_invokes_predict :
  select_ids quiet_table = [] /\
  ~ quiet_noop (demo_run demo_mask2rle quiet_table demo_files) quiet_table.
Proof.
  split; [reflexivity|].
  intros (_ & _ & Hquiet).
  apply (Hquiet (mk_array [0] []) 32).
  vm_compute. left. reflexivity.
Qed.

Lemma empty_selection_still_runs_inference_witness :
  (exists tr, trace (demo_run demo_mask2rle quiet_table demo_files) =
              EvPredict (mk_array [0] []) 32 :: tr) /\
  (exists tr, trace (demo_run demo_mask2rle quiet_table demo_files) =
              tr ++ [EvToCsv "submission_final.csv" quiet_table]).
Proof.
  destruct (@empty_selection_still_runs_inference Qc _ posix_stem demo_load
              demo_preprocess demo_post_process demo_mask2rle "/work"
              (Single echo_model) quiet_table demo_files 1 2 32 true half
              true 3500 None eq_refl) as (Hpredict & Hwrite & _).
  split.
  - apply Hpredict; [reflexivity | discriminate].
  - apply Hwrite. vm_compute. reflexivity.
Defined.

Lemma encoding_dimensions_are_fixed_witness :
  exists imgs x preds post masks rles df',
    mapM (fun fpath => demo_load fpath 2 1)
         (select_fpaths posix_stem (select_ids demo_table) demo_files)
      = Ok imgs /\
    value (run_seg_prediction x (Single echo_model) 32 true) = Ok preds /\
    demo_post_process preds half 3500 = Ok post /\
    iter_array post = Ok masks /\
    Forall2 (fun mask rle => demo_mask2rle mask 1024 1024 = Ok rle)
            masks rles /\
    df' = map (fun r => unblank_row
                          (fold_left inject_row
                                     (combine (select_ids demo_table) rles) r))
              demo_table /\
    In (EvToCsv "submission_final.csv" df')
       (trace (demo_run demo_mask2rle demo_table demo_files)).
Proof.
  apply (@encoding_dimensions_are_fixed Qc _ posix_stem demo_load
           demo_preprocess demo_post_process demo_mask2rle "/work"
           (Single echo_model) demo_table demo_files 1 2 32 true half
           true 3500 None).
  vm_compute. reflexivity.
Defined.

(** With images of size 2, the encoding written for the one mask that has
    foreground reports the declared dimensions 1024 and 1024. *)
Lemma demo_encodings_declare_1024 :
  In (EvToCsv "submission_final.csv"
        [mk_row "a" (VStr "-1"); mk_row "b" (VInt (-1));
         mk_row "c" (VStr "1024 1024")])
     (trace (demo_run demo_mask2rle demo_table demo_files)).
Proof. vm_compute. do 3 right. left. reflexivity. Qed.

End DemoFacts.

(* ================================================================== *)
(** * The Mask Codec: round trip *)

Module MaskCodecFacts.

Import MaskCodec.

(** ** Numerals and fields *)

Lemma plain_string_of_uint (d : Decimal.uint) :
  plain (DecimalString.NilEmpty.string_of_uint d) = true.
Proof. induction d; simpl; auto. Qed.

Lemma plain_print_nat (n : nat) : plain (print_nat n) = true.
Proof. apply plain_string_of_uint. Qed.

Lemma print_nat_nonempty (n : nat) : print_nat n <> EmptyString.
Proof.
  unfold print_nat. intros E.
  pose proof (DecimalString.NilEmpty.usu (Nat.to_uint n)) as Hu.
  rewrite E in Hu. simpl in Hu. injection Hu as Hu.
  pose proof (DecimalNat.Unsigned.of_to n) as Hn.
  rewrite <- Hu in Hn. simpl in Hn. subst n. discriminate.
Qed.

Lemma parse_print_nat (n : nat) : parse_nat (print_nat n) = Some n.
Proof.
  unfold parse_nat. pose proof (print_nat_nonempty n) as Hne.
  destruct (print_nat n) eqn:E; [congruence|].
  rewrite <- E. unfold print_nat.
  rewrite DecimalString.NilEmpty.usu. simpl.
  now rewrite DecimalNat.Unsigned.of_to.
Qed.

Lemma parse_all_print (ns : list nat) :
  parse_all (map print_nat ns) = Some ns.
Proof.
  induction ns as [|n ns IH]; simpl; [reflexivity|].
  now rewrite parse_print_nat, IH.
Qed.

Lemma pair_up_flatten (runs : list (nat * nat)) :
  pair_up (flatten_pairs runs) = Some runs.
Proof.
  induction runs as [|[s l] runs IH]; simpl; [reflexivity|].
  now rewrite IH.
Qed.

Lemma split_sp_plain (t : string) : plain t = true -> split_sp t = [t].
Proof.
  induction t as [|c t IH]; simpl; [reflexivity|].
  rewrite !andb_true_iff, !negb_true_iff. intros [[Hc _] Ht].
  now rewrite Hc, IH.
Qed.

Lemma split_sp_field (t rest : string) :
  plain t = true ->
  split_sp (t ++ String space rest) = t :: split_sp rest.
Proof.
  induction t as [|c t IH]; simpl; [reflexivity|].
  rewrite !andb_true_iff, !negb_true_iff. intros [[Hc _] Ht].
  now rewrite Hc, IH.
Qed.

Lemma split_join (toks : list string) :
  toks <> [] -> Forall (fun t => plain t = true) toks ->
  split_sp (join_sp toks) = toks.
Proof.
  intros Hne Hall. induction Hall as [|t toks Ht Hall IH]; [congruence|].
  destruct toks as [|t2 toks].
  - simpl. now apply split_sp_plain.
  - cbn [join_sp]. rewrite split_sp_field by assumption.
    f_equal. apply IH. discriminate.
Qed.

Lemma join_not_sentinel (t : string) (toks : list string) :
  t <> EmptyString -> plain t = true -> join_sp (t :: toks) <> sentinel.
Proof.
  intros Hne Ht. destruct t as [|c t]; [congruence|].
  simpl in Ht. rewrite !andb_true_iff, !negb_true_iff in Ht.
  destruct Ht as [[_ Hc] _].
  assert (Hd : c <> "-"%char) by (intros ->; discriminate).
  unfold sentinel. destruct toks; simpl; intros E; injection E; congruence.
Qed.

(** ** Runs *)

Lemma covers_iff (k s l : nat) : covers k (s, l) = true <-> s <= k < s + l.
Proof.
  unfold covers. rewrite andb_true_iff, Nat.leb_le, Nat.ltb_lt. tauto.
Qed.

Lemma nth_later (k pos : nat) (b : bool) (bits : list bool) :
  pos < k -> nth (k - pos) (b :: bits) false = nth (k - S pos) bits false.
Proof. intros Hk. replace (k - pos) with (S (k - S pos)) by lia. reflexivity. Qed.

Lemma rle_scan_covers_iff (bits : list bool) :
  forall pos cur k,
    adjacent cur pos ->
    existsb (covers k) (rle_scan pos cur bits) = true <->
    covered_by k cur = true \/ (pos <= k /\ nth (k - pos) bits false = true).
Proof.
  induction bits as [|b bits IH]; intros pos cur k Hadj.
  - cbn [rle_scan]. destruct cur as [[s l]|]; cbn [existsb covered_by].
    + rewrite orb_false_r. destruct (k - pos); cbn [nth]; intuition congruence.
    + destruct (k - pos); cbn [nth]; intuition congruence.
  - destruct b; cbn [rle_scan].
    + rewrite IH by (destruct cur as [[s l]|]; cbn in *; lia).
      destruct (Nat.lt_trichotomy k pos) as [Hk|[Hk|Hk]].
      * destruct cur as [[s l]|]; cbn [covered_by adjacent] in *;
          rewrite ?covers_iff; intuition (try lia; try discriminate).
      * subst k. rewrite Nat.sub_diag. cbn [nth].
        destruct cur as [[s l]|]; cbn [covered_by adjacent] in *;
          rewrite ?covers_iff; intuition (try lia; try discriminate).
      * rewrite (nth_later _ _ Hk).
        destruct cur as [[s l]|]; cbn [covered_by adjacent] in *;
          rewrite ?covers_iff; intuition (try lia; try discriminate).
    + assert (Hrest :
                existsb (covers k) (rle_scan (S pos) None bits) = true <->
                S pos <= k /\ nth (k - S pos) bits false = true).
      { rewrite IH by exact I. cbn [covered_by]. intuition discriminate. }
      destruct (Nat.lt_trichotomy k pos) as [Hk|[Hk|Hk]].
      * destruct cur as [[s l]|]; cbn [existsb covered_by adjacent] in *;
          rewrite ?orb_true_iff, ?Hrest, ?covers_iff;
          intuition (try lia; try discriminate).
      * subst k. rewrite Nat.sub_diag. cbn [nth].
        destruct cur as [[s l]|]; cbn [existsb covered_by adjacent] in *;
          rewrite ?orb_true_iff, ?Hrest, ?covers_iff;
          intuition (try lia; try discriminate).
      * rewrite (nth_later _ _ Hk).
        destruct cur as [[s l]|]; cbn [existsb covered_by adjacent] in *;
          rewrite ?orb_true_iff, ?Hrest, ?covers_iff;
          intuition (try lia; try discriminate).
Qed.

Lemma rle_scan_covers (bits : list bool) (k : nat) :
  existsb (covers k) (runs_of bits) = nth k bits false.
Proof.
  apply eq_true_iff_eq. unfold runs_of.
  rewrite rle_scan_covers_iff by exact I.
  cbn [covered_by]. rewrite Nat.sub_0_r. intuition (try lia; discriminate).
Qed.

(** Painting the runs of a scan gives the scan back. *)
Lemma paint_runs (bits : list bool) :
  paint (length bits) (runs_of bits) = bits.
Proof.
  unfold paint.
  transitivity (map (fun k => nth k bits false) (seq 0 (length bits))).
  - apply map_ext. intros k. apply rle_scan_covers.
  - apply map_nth_seq.
Qed.

Lemma rle_scan_separated (bits : list bool) :
  forall pos cur lo,
    adjacent cur pos ->
    match cur with Some (s, _) => lo <= s | None => lo <= pos end ->
    separated lo (rle_scan pos cur bits).
Proof.
  induction bits as [|b bits IH]; intros pos cur lo Hadj Hlo.
  - destruct cur as [[s l]|]; cbn in *; intuition.
  - destruct b; cbn [rle_scan].
    + apply IH; destruct cur as [[s l]|]; cbn in *; lia.
    + destruct cur as [[s l]|]; cbn [separated].
      * cbn in Hadj. repeat split; try lia. apply IH; cbn; lia.
      * apply IH; cbn; lia.
Qed.

Lemma runs_separated (bits : list bool) : separated 0 (runs_of bits).
Proof. apply rle_scan_separated; cbn; auto. Qed.

Lemma rle_scan_background (bits : list bool) (pos : nat) :
  forallb negb bits = true -> rle_scan pos None bits = [].
Proof.
  revert pos; induction bits as [|b bits IH]; intros pos; [reflexivity|].
  cbn [forallb]. rewrite andb_true_iff. intros [Hb Hbits].
  destruct b; [discriminate|]. cbn [rle_scan]. now apply IH.
Qed.

(** ** Scan order *)

Lemma scan_columns (height width : nat) (m : mask) :
  scan height width m = concat (map (column height m) (seq 0 width)).
Proof. unfold scan. now rewrite flat_map_concat_map. Qed.

Lemma columns_height (height width : nat) (m : mask) :
  Forall (fun c => length c = height) (map (column height m) (seq 0 width)).
Proof.
  apply Forall_map, Forall_forall. intros x _.
  unfold column. now rewrite length_map, length_seq.
Qed.

Lemma scan_length (height width : nat) (m : mask) :
  length (scan height width m) = height * width.
Proof.
  rewrite scan_columns.
  rewrite (@length_concat_blocks _ height) by apply columns_height.
  rewrite length_map, length_seq. apply Nat.mul_comm.
Qed.

(** Column-major order: the pixel of row [y] and column [x] is at offset
    [x * height + y] of the scan. *)
Lemma nth_scan (height width : nat) (m : mask) (x y : nat) :
  x < width -> y < height ->
  nth (x * height + y) (scan height width m) false = nth x (nth y m []) false.
Proof.
  intros Hx Hy. rewrite scan_columns.
  rewrite (nth_concat_blocks (h := height)) by (apply columns_height || exact Hy).
  rewrite nth_map_seq by exact Hx. unfold column.
  now rewrite nth_map_seq by exact Hy.
Qed.

Lemma unscan_scan (height width : nat) (m : mask) :
  valid height width m -> unscan height width (scan height width m) = m.
Proof.
  intros [Hh Hw]. unfold unscan.
  transitivity (map (fun y => nth y m []) (seq 0 height)).
  - apply map_ext_in. intros y Hy. apply in_seq in Hy.
    transitivity (map (fun x => nth x (nth y m []) false) (seq 0 width)).
    + apply map_ext_in. intros x Hx. apply in_seq in Hx.
      apply nth_scan; lia.
    + assert (Hrow : length (nth y m []) = width).
      { rewrite Forall_forall in Hw. apply Hw, nth_In. lia. }
      rewrite <- Hrow. apply map_nth_seq.
  - rewrite <- Hh. apply map_nth_seq.
Qed.

(** ** The all-background mask *)

Lemma map_const_seq {A : Type} (a : A) (s n : nat) :
  map (fun _ => a) (seq s n) = repeat a n.
Proof.
  revert s; induction n as [|n IH]; intros s; simpl; [reflexivity|].
  now rewrite IH.
Qed.

Lemma nth_background (bits : list bool) (k : nat) :
  forallb negb bits = true -> nth k bits false = false.
Proof.
  revert k; induction bits as [|b bits IH]; intros k; [now destruct k|].
  cbn [forallb]. rewrite andb_true_iff. intros [Hb Hbits].
  destruct k; cbn [nth]; [now destruct b | now apply IH].
Qed.

Lemma paint_nothing (n : nat) : forallb negb (paint n []) = true.
Proof.
  unfold paint. cbn [existsb]. rewrite map_const_seq.
  induction n; simpl; auto.
Qed.

Lemma unscan_background (height width : nat) (bits : list bool) :
  forallb negb bits = true ->
  unscan height width bits = zero_mask height width.
Proof.
  intros Hbits. unfold unscan, zero_mask.
  rewrite <- (map_const_seq (repeat false width) 0 height).
  apply map_ext. intros y.
  rewrite <- (map_const_seq false 0 width).
  apply map_ext. intros x. now apply nth_background.
Qed.

Lemma nth_repeat_cases {A : Type} (a d : A) (n k : nat) :
  nth k (repeat a n) d = a \/ nth k (repeat a n) d = d.
Proof.
  revert k; induction n as [|n IH]; intros [|k]; simpl; auto.
Qed.

Lemma zero_mask_pixel (height width x y : nat) :
  nth x (nth y (zero_mask height width) []) false = false.
Proof.
  unfold zero_mask.
  destruct (nth_repeat_cases (repeat false width) [] height y) as [-> | ->].
  - destruct (nth_repeat_cases false false width x) as [-> | ->]; reflexivity.
  - now destruct x.
Qed.

Lemma scan_zero_mask (height width : nat) :
  forallb negb (scan height width (zero_mask height width)) = true.
Proof.
  apply forallb_forall. intros b Hb. unfold scan in Hb.
  apply in_flat_map in Hb. destruct Hb as (x & _ & Hb).
  apply in_map_iff in Hb. destruct Hb as (y & <- & _).
  now rewrite zero_mask_pixel.
Qed.

(** ** Round trip *)

Lemma decode_runs (runs : list (nat * nat)) (height width : nat) :
  runs <> [] ->
  rle_to_mask (join_sp (map print_nat (flatten_pairs runs))) height width =
  Ok (unscan height width (paint (height * width) runs)).
Proof.
  intros Hne. unfold rle_to_mask.
  destruct runs as [|[s l] runs]; [congruence|].
  assert (Hns : String.eqb
                  (join_sp (map print_nat (flatten_pairs ((s, l) :: runs))))
                  sentinel = false).
  { apply String.eqb_neq. cbn [flatten_pairs map].
    apply join_not_sentinel; [apply print_nat_nonempty | apply plain_print_nat]. }
  rewrite Hns, split_join.
  - now rewrite parse_all_print, pair_up_flatten.
  - discriminate.
  - apply Forall_map, Forall_forall. intros n _. apply plain_print_nat.
Qed.

(** C8.  Decoding the encoding of a valid mask gives the mask back.  The
    all-background mask encodes to the sentinel ["-1"], which is not the
    empty string, and the sentinel decodes to the all-background mask.
    The scan is column-major (row [y], column [x] at offset
    [x * height + y]); the runs of the encoding cover exactly the
    foreground pixels of the scan, each run is non-empty and two
    consecutive runs are at least one pixel apart, so every run is
    maximal. *)
Theorem rle_roundtrip (height width : nat) (m : mask) :
  valid height width m ->
  rle_to_mask (mask_to_rle m height width) height width = Ok m /\
  mask_to_rle (zero_mask height width) height width = "-1"%string /\
  rle_to_mask "-1" height width = Ok (zero_mask height width) /\
  (forall x y, x < width -> y < height ->
     nth (x * height + y) (scan height width m) false
     = nth x (nth y m []) false) /\
  (forall k, existsb (covers k) (runs_of (scan height width m))
             = nth k (scan height width m) false) /\
  separated 0 (runs_of (scan height width m)).
Proof.
  intros Hv. repeat split.
  - unfold mask_to_rle.
    pose proof (paint_runs (scan height width m)) as Hpaint.
    rewrite scan_length in Hpaint.
    destruct (runs_of (scan height width m)) as [|r rs] eqn:Hruns.
    + change (rle_to_mask sentinel height width)
        with (Ok (zero_mask height width)).
      f_equal. transitivity (unscan height width (scan height width m));
        [|now apply unscan_scan].
      symmetry. apply unscan_background.
      rewrite <- Hpaint. apply paint_nothing.
    + rewrite decode_runs by discriminate.
      now rewrite Hpaint, unscan_scan.
  - unfold mask_to_rle, runs_of.
    now rewrite rle_scan_background by apply scan_zero_mask.
  - intros x y. apply nth_scan.
  - intros k. apply rle_scan_covers.
  - apply runs_separated.
Qed.

Lemma rle_roundtrip_witness :
  rle_to_mask (mask_to_rle [[true; false; true]; [true; true; false]] 2 3) 2 3
  = Ok [[true; false; true]; [true; true; false]].
Proof.
  apply (@rle_roundtrip 2 3 [[true; false; true]; [true; true; false]]).
  split; [reflexivity | repeat constructor].
Defined.

End MaskCodecFacts.

(* ================================================================== *)
(** * The merge step, row by row *)

Section MergeFacts.

Context {T : Type} {NumT : Num T}.

Variable mask2rle : ndarray T -> nat -> nat -> result string.

Lemma Forall2_nth_error {A B : Type} (P : A -> B -> Prop) (l : list A)
      (l' : list B) (i : nat) (x : A) :
  Forall2 P l l' -> nth_error l i = Some x ->
  exists y, nth_error l' i = Some y /\ P x y.
Proof.
  intros Hl. revert i. induction Hl as [|a b l l' Hab _ IH]; intros i Hi.
  - now destruct i.
  - destruct i as [|i]; cbn in *.
    + injection Hi as <-. eauto.
    + now apply IH.
Qed.

Lemma nth_error_combine {A B : Type} (l : list A) (l' : list B) (i : nat)
      (x : A) (y : B) :
  nth_error l i = Some x -> nth_error l' i = Some y -> In (x, y) (combine l l').
Proof.
  revert l' i; induction l as [|a l IH]; intros [|b l'] [|i] Hx Hy;
    cbn in *; try discriminate.
  - injection Hx as <-. injection Hy as <-. now left.
  - right. eapply IH; eauto.
Qed.

Lemma map_fst_combine_firstn (ids rles : list string) :
  map fst (combine ids rles) = firstn (length rles) ids.
Proof.
  revert rles; induction ids as [|i ids IH]; intros [|s rles]; cbn;
    try reflexivity.
  now rewrite IH.
Qed.

Lemma inject_rows_nodup (pairs : list (string * string)) (r : row)
      (id_ rle : string) :
  NoDup (map fst pairs) -> In (id_, rle) pairs -> ImageId r = id_ ->
  EncodedPixels (fold_left inject_row pairs r) = VStr rle.
Proof.
  revert r; induction pairs as [|[id0 rle0] pairs IH]; intros r Hnd Hin Hid;
    [contradiction|].
  cbn [map fst] in Hnd. inversion Hnd as [|? ? Hout Hnd']; subst.
  cbn [fold_left inject_row]. destruct Hin as [E|Hin].
  - injection E as -> ->. rewrite String.eqb_refl.
    rewrite inject_rows_untouched; [reflexivity | exact Hout].
  - apply IH; auto. now destruct (String.eqb (ImageId r) id0).
Qed.

Lemma unblank_row_field (x : row) (s : string) :
  EncodedPixels x = VStr s ->
  EncodedPixels (unblank_row x) = VStr (if String.eqb s "" then "-1" else s).
Proof.
  intros E. unfold unblank_row, is_blank. rewrite E. cbn [cell_eq_str].
  destruct (String.eqb s ""); [reflexivity | exact E].
Qed.

(** X1.  With distinct ids and at least as many masks as ids, the merge
    step gives every row of the i-th id the encoding of the i-th mask
    (["-1"] when that encoding is the empty string). *)
Theorem edit_gives_each_id_its_own_mask
        (df df' : DataFrame) (post : ndarray T) (ids : list string)
        (masks : list (ndarray T)) (i : nat) (id_ : string) :
  NoDup ids ->
  iter_array post = Ok masks ->
  length ids <= length masks ->
  edit_classification_df mask2rle df post ids = Ok df' ->
  nth_error ids i = Some id_ ->
  exists mask rle,
    nth_error masks i = Some mask /\
    mask2rle mask 1024 1024 = Ok rle /\
    Forall (fun r' => ImageId r' = id_ ->
                      EncodedPixels r' =
                      VStr (if String.eqb rle "" then "-1" else rle)) df'.
Proof.
  intros Hnd Hmasks Hlen Hedit Hi.
  destruct (edit_classification_df_inv _ _ _ _ Hedit)
    as (masks' & rles & Hmasks' & Hrles & ->).
  rewrite Hmasks in Hmasks'. apply Ok_inj in Hmasks'. subst masks'.
  apply mapM_Ok_Forall2 in Hrles.
  assert (Hsome : exists mask, nth_error masks i = Some mask).
  { destruct (nth_error masks i) as [mask|] eqn:E; [eauto|].
    apply nth_error_None in E.
    assert (i < length ids) by (apply nth_error_Some; congruence). lia. }
  destruct Hsome as (mask & Hmask).
  destruct (Forall2_nth_error _ Hrles Hmask) as (rle & Hrle & Hcode).
  exists mask, rle. repeat split; auto.
  apply Forall_map, Forall_forall. intros r _ Hid.
  rewrite (proj1 (unblank_row_spec _)), inject_rows_id in Hid.
  apply unblank_row_field. eapply inject_rows_nodup; eauto.
  - rewrite map_fst_combine; [assumption|].
    rewrite <- (Forall2_length Hrles). exact Hlen.
  - eapply nth_error_combine; eauto.
Qed.

(** X2.  The merge step does not compare the number of masks with the
    number of ids: whenever every mask encodes it returns a table, and
    the rows of the ids beyond the last mask are left as they were (blank
    fields aside), so a pending sentinel stays pending. *)
Theorem edit_leaves_surplus_ids_untouched
        (df : DataFrame) (post : ndarray T) (ids : list string)
        (masks : list (ndarray T)) (rles : list string) :
  iter_array post = Ok masks ->
  mapM (fun pred => mask2rle pred 1024 1024) masks = Ok rles ->
  exists df',
    edit_classification_df mask2rle df post ids = Ok df' /\
    Forall2
      (fun r r' =>
         ~ In (ImageId r) (firstn (length masks) ids) ->
         r' = unblank_row r /\
         (EncodedPixels r = VInt 1 -> EncodedPixels r' = VInt 1))
      df df'.
Proof.
  intros Hmasks Hrles.
  assert (Hedit : edit_classification_df mask2rle df post ids =
                  Ok (map (fun r => unblank_row
                             (fold_left inject_row (combine ids rles) r)) df)).
  { unfold edit_classification_df. rewrite Hmasks.
    cbn [bind ret result_monad]. rewrite Hrles.
    rewrite fold_inject_rows. unfold loc_set. now rewrite map_map. }
  eexists. split; [exact Hedit|].
  apply Forall2_map_self. intros r _ Hout.
  rewrite inject_rows_untouched.
  - split; [reflexivity|]. intros E. unfold unblank_row, is_blank.
    now rewrite E.
  - rewrite map_fst_combine_firstn.
    apply mapM_Ok_Forall2, Forall2_length in Hrles. now rewrite <- Hrles.
Qed.

End MergeFacts.

(* ================================================================== *)
(** * The effects of the prediction runner *)

Section RunnerEffects.

Context {T : Type} {NumT : Num T}.

Lemma trace_mapM_Forall {A B : Type} (P : event T -> Prop)
      (f : A -> M T B) (l : list A) :
  (forall a, Forall P (trace (f a))) -> Forall P (trace (mapM f l)).
Proof.
  intros Hf. induction l as [|a l IH]; cbn [mapM]; [constructor|].
  rewrite trace_bind. apply Forall_app. split; [apply Hf|].
  destruct (value (f a)); [|constructor].
  rewrite trace_bind. apply Forall_app. split; [exact IH|].
  destruct (value (mapM f l)); constructor.
Qed.

Lemma trace_mapM_ok {A B : Type} (f : A -> M T B) (l : list A)
      (c : list (event T)) (ys : list B) :
  (forall a y, value (f a) = Ok y -> trace (f a) = c) ->
  value (mapM f l) = Ok ys ->
  trace (mapM f l) = flat_map (fun _ => c) l.
Proof.
  intros Hf. revert ys; induction l as [|a l IH]; intros ys; cbn [mapM flat_map];
    [reflexivity|].
  rewrite value_bind, trace_bind. cbn [bind result_monad].
  destruct (value (f a)) as [y|] eqn:Hy; [|discriminate].
  rewrite value_bind, trace_bind. cbn [bind result_monad].
  destruct (value (mapM f l)) as [ys'|] eqn:Hys; [|discriminate].
  intros _. rewrite (Hf a y Hy), (IH ys' eq_refl). cbn. now rewrite app_nil_r.
Qed.

Lemma trace_TTA (m : Model T) (x : ndarray T) (bs : nat) :
  Forall is_predict (trace (TTA_Segmentation_All m x bs)) /\
  (forall p, value (TTA_Segmentation_All m x bs) = Ok p ->
             trace (TTA_Segmentation_All m x bs) = predict_calls x bs true).
Proof.
  unfold TTA_Segmentation_All, predict_calls, model_predict, value, trace.
  cbn [bind ret lift emit M_monad result_monad app fst snd].
  destruct (predict m x bs) as [p|]; cbn [app fst snd];
    [|split; [repeat constructor | discriminate]].
  destruct (fliplr_all x) as [x'|]; cbn [app fst snd];
    [|split; [repeat constructor | discriminate]].
  destruct (predict m x' bs) as [q|]; cbn [app fst snd];
    [|split; [repeat constructor | discriminate]].
  destruct (fliplr_all q) as [q'|]; cbn [app fst snd];
    [|split; [repeat constructor | discriminate]].
  split; [repeat constructor | reflexivity].
Qed.

Lemma trace_run_only_predicts (x : ndarray T) (seg_model : SegModel T)
      (bs : nat) (tta : bool) :
  Forall is_predict (trace (run_seg_prediction x seg_model bs tta)).
Proof.
  unfold run_seg_prediction.
  destruct tta, seg_model as [m|ms]; rewrite trace_bind;
    apply Forall_app; split;
    try (apply trace_mapM_Forall; intros a);
    try apply trace_TTA;
    try (rewrite trace_model_predict; repeat constructor);
    match goal with |- context [match ?v with Ok _ => _ | Raise _ => _ end] =>
      destruct v; constructor end.
Qed.

Lemma trace_run_ok (x r : ndarray T) (seg_model : SegModel T)
      (bs : nat) (tta : bool) :
  value (run_seg_prediction x seg_model bs tta) = Ok r ->
  trace (run_seg_prediction x seg_model bs tta) =
  flat_map (fun _ => predict_calls x bs tta) (models_of seg_model).
Proof.
  unfold run_seg_prediction.
  destruct tta, seg_model as [m|ms]; rewrite value_bind, trace_bind;
    cbn [bind result_monad models_of flat_map].
  - destruct (value (TTA_Segmentation_All m x bs)) as [p|] eqn:Hp;
      [|discriminate].
    intros _. rewrite (proj2 (trace_TTA m x bs) p Hp). cbn.
    now rewrite !app_nil_r.
  - destruct (value (mapM _ ms)) as [ps|] eqn:Hps; [|discriminate].
    intros _. rewrite (@trace_mapM_ok _ _ _ ms (predict_calls x bs true) ps).
    + cbn. now rewrite app_nil_r.
    + intros a y. apply trace_TTA.
    + exact Hps.
  - destruct (value (model_predict m x bs)) as [p|] eqn:Hp; [|discriminate].
    intros _. rewrite trace_model_predict. reflexivity.
  - destruct (value (mapM _ ms)) as [ps|] eqn:Hps; [|discriminate].
    intros _. rewrite (@trace_mapM_ok _ _ _ ms (predict_calls x bs false) ps).
    + cbn. now rewrite app_nil_r.
    + intros a y _. apply trace_model_predict.
    + exact Hps.
Qed.

(** X3.  The runner's only effects are [predict] calls.  When it returns,
    every model was called in list order, once on the batch and, with
    test-time augmentation, once more on the mirrored batch. *)
Theorem runner_calls_each_model_in_order
        (x : ndarray T) (seg_model : SegModel T) (bs : nat) (tta : bool) :
  Forall is_predict (trace (run_seg_prediction x seg_model bs tta)) /\
  (forall r, value (run_seg_prediction x seg_model bs tta) = Ok r ->
     trace (run_seg_prediction x seg_model bs tta) =
     flat_map (fun _ => predict_calls x bs tta) (models_of seg_model) /\
     (tta = true -> exists x', fliplr_all x = Ok x' /\
                               predict_calls x bs true
                               = [EvPredict x bs; EvPredict x' bs])).
Proof.
  split; [apply trace_run_only_predicts|].
  intros r Hr. split; [now apply (trace_run_ok _ _ _ _ Hr)|].
  intros ->. rewrite value_run_seg_prediction in Hr. unfold run_value in Hr.
  unfold predict_calls.
  destruct (fliplr_all x) as [x'|e] eqn:Hx; [eauto|].
  exfalso. assert (Hone : forall m, tta_value m x bs <> Ok r /\
                                    forall p, tta_value m x bs <> Ok p).
  { intros m. unfold tta_value. cbn [bind result_monad]. rewrite Hx.
    split; [|intros p]; destruct (predict m x bs); discriminate. }
  destruct seg_model as [m|[|m ms]]; cbn [mapM bind ret result_monad] in Hr.
  - destruct (tta_value m x bs) eqn:E; [|discriminate].
    now apply (proj2 (Hone m)) in E.
  - discriminate.
  - destruct (tta_value m x bs) eqn:E; [|discriminate].
    now apply (proj2 (Hone m)) in E.
Qed.

End RunnerEffects.

(* ================================================================== *)
(** * The effects of the orchestrator *)

Section OrchestratorEffects.

Context {T : Type} {NumT : Num T}.

Variable stem : string -> string.
Variable load_input : string -> nat -> nat -> result (ndarray T).
Variable preprocess_input : ndarray T -> result (ndarray T).
Variable post_process_all : ndarray T -> T -> nat -> result (ndarray T).
Variable mask2rle : ndarray T -> nat -> nat -> result string.
Variable cwd : string.

Variable seg_model : SegModel T.
Variable sub_df : DataFrame.
Variable test_fpaths : list string.
Variables channels img_size batch_size : nat.
Variable tta : bool.
Variable threshold : T.
Variable save_pred_arr_p : bool.
Variable min_roi_size : nat.
Variable preprocess_fn : option (ndarray T -> result (ndarray T)).

Local Notation "'the_run'" :=
  (Stage2 stem load_input preprocess_input post_process_all mask2rle cwd
          seg_model sub_df test_fpaths channels img_size batch_size tta
          threshold save_pred_arr_p min_roi_size preprocess_fn).

Local Notation "'seg_ids'" := (select_ids sub_df).
Local Notation "'x_test_fpaths'" := (select_fpaths stem seg_ids test_fpaths).
Local Notation "'preprocess'" :=
  (match preprocess_fn with None => preprocess_input | Some f => f end).

(** X4.  A run that completes has asked every model to predict (in list
    order, on the preprocessed batch), then saved the runner's result as
    it came back, before thresholding, if and only if [save_pred_arr_p]
    is set, and written the table last. *)
Theorem stage2_effects_in_order :
  value the_run = Ok tt ->
  exists x preds post df',
    value (run_seg_prediction x seg_model batch_size tta) = Ok preds /\
    post_process_all preds threshold min_roi_size = Ok post /\
    edit_classification_df mask2rle sub_df post seg_ids = Ok df' /\
    trace the_run =
      flat_map (fun _ => predict_calls x batch_size tta) (models_of seg_model)
      ++ (if save_pred_arr_p
          then [EvSave (os_path_join cwd "predicted_probability_masks.npy")
                       preds]
          else [])
      ++ [EvToCsv "submission_final.csv" df'].
Proof.
  intros Hrun.
  destruct (Stage2_completes_inv _ _ _ _ _ _ _ _ _ _ _ _ _ _ _ _ _ Hrun)
    as (imgs & x0 & x & preds & post & df' & _ & _ & _ & _ & Hpreds & Hpost
        & Hdf & Htr).
  exists x, preds, post, df'. repeat split; auto.
  rewrite Htr, (trace_run_ok _ _ _ _ Hpreds). reflexivity.
Qed.

(** X5.  A run that raises has written no table: whatever the exception,
    its trace holds no [to_csv]. *)
Theorem failed_run_writes_no_table (e : exn) :
  value the_run = Raise e ->
  forall path df, ~ In (EvToCsv path df) (trace the_run).
Proof.
  intros Hrun path df Hin.
  assert (Hnot : forall tr : list (event T),
             Forall is_predict tr -> ~ In (EvToCsv path df) tr).
  { intros tr Htr Hc. rewrite Forall_forall in Htr. exact (Htr _ Hc). }
  revert Hrun Hin. unfold Stage2, assert, value, trace.
  destruct (strs_eqb _ _); [|intros _ []].
  cbn [bind ret lift M_monad result_monad app fst snd].
  destruct (mapM _ x_test_fpaths) as [imgs|]; [|intros _ []].
  destruct (np_asarray imgs) as [x0|]; [|intros _ []].
  destruct (preprocess x0) as [x|]; [|intros _ []].
  pose proof (trace_run_only_predicts x seg_model batch_size tta) as Honly.
  unfold trace in Honly.
  destruct (run_seg_prediction x seg_model batch_size tta)
    as [tr [preds|]]; cbn [fst snd] in *; [|intros _; now apply Hnot].
  destruct (post_process_all preds threshold min_roi_size) as [post|].
  - destruct (edit_classification_df mask2rle sub_df post seg_ids) as [df'|];
      destruct save_pred_arr_p; cbn [fst snd app]; try discriminate;
      intros _ Hc; apply in_app_or in Hc; destruct Hc as [Hc|Hc];
      try (now apply (Hnot tr)); cbn in Hc; intuition discriminate.
  - destruct save_pred_arr_p; cbn [fst snd app];
      intros _ Hc; apply in_app_or in Hc; destruct Hc as [Hc|Hc];
      try (now apply (Hnot tr)); cbn in Hc; intuition discriminate.
Qed.

(** X6.  In every run that has an effect, whether it then completes or
    raises, the images are aligned with the ids: the i-th image handed to
    [np.asarray] was loaded from a listed file whose stem is the i-th
    selected id, and the first effect of the run is a prediction on the
    preprocessed batch of these images. *)
Theorem images_follow_the_ids :
  trace the_run <> [] ->
  exists imgs x0 x tr,
    Forall2 (fun id_ img =>
               exists fpath, In fpath test_fpaths /\ stem fpath = id_ /\
                             load_input fpath img_size channels = Ok img)
            (select_ids sub_df) imgs /\
    np_asarray imgs = Ok x0 /\
    preprocess x0 = Ok x /\
    trace the_run = EvPredict x batch_size :: tr.
Proof.
  intros Hrun.
  destruct (strs_eqb (map stem x_test_fpaths) seg_ids) eqn:Hids.
  2:{ exfalso. apply Hrun. now rewrite Stage2_mismatch. }
  assert (Hids' := proj1 (strs_eqb_eq _ _) Hids).
  destruct (mapM (fun fpath => load_input fpath img_size channels)
                 x_test_fpaths) as [imgs|e] eqn:Himgs.
  2:{ exfalso. apply Hrun. unfold Stage2, assert, trace. rewrite Hids.
      cbn [bind ret lift M_monad result_monad app fst snd].
      now rewrite Himgs. }
  destruct (np_asarray imgs) as [x0|e] eqn:Hx0.
  2:{ exfalso. apply Hrun. unfold Stage2, assert, trace. rewrite Hids.
      cbn [bind ret lift M_monad result_monad app fst snd].
      now rewrite Himgs, Hx0. }
  destruct (preprocess x0) as [x|e] eqn:Hx.
  2:{ exfalso. apply Hrun. unfold Stage2, assert, trace. rewrite Hids.
      cbn [bind ret lift M_monad result_monad app fst snd].
      now rewrite Himgs, Hx0, Hx. }
  edestruct Stage2_trace_after_selection as (tr' & Htr);
    [exact Hids' | exact Himgs | exact Hx0 | exact Hx |].
  assert (Hne : seg_model <> Ensemble []).
  { intros ->. apply Hrun. unfold Stage2, assert, trace. rewrite Hids.
    cbn [bind ret lift M_monad result_monad app fst snd].
    rewrite Himgs, Hx0, Hx. destruct tta; reflexivity. }
  destruct (trace_run_starts x batch_size tta Hne) as (tr0 & Htr0).
  exists imgs, x0, x, (tr0 ++ tr'). repeat split; auto.
  - change (select_ids sub_df) with seg_ids. rewrite <- Hids'.
    apply mapM_Ok_Forall2 in Himgs.
    assert (Hsub : forall f, In f x_test_fpaths -> In f test_fpaths).
    { intros f Hf. unfold select_fpaths in Hf.
      apply (proj1 (in_sorted _ _)) in Hf. now apply filter_In in Hf. }
    assert (Hgen : forall fs l,
               Forall2 (fun f img => load_input f img_size channels = Ok img)
                       fs l ->
               (forall f, In f fs -> In f test_fpaths) ->
               Forall2 (fun id_ img =>
                          exists fpath, In fpath test_fpaths /\
                                        stem fpath = id_ /\
                                        load_input fpath img_size channels
                                        = Ok img)
                       (map stem fs) l).
    { induction 1 as [|f img fs l Hf _ IH]; intros Hin; cbn [map];
        constructor.
      - exists f. repeat split; auto. apply Hin. now left.
      - apply IH. intros g Hg. apply Hin. now right. }
    now apply Hgen.
  - rewrite Htr, Htr0. reflexivity.
Qed.

End OrchestratorEffects.

(* ================================================================== *)
(** * [sorted] does not depend on the order of its input *)

Section SortFacts.

Lemma ascii_compare_trans (a b c : ascii) (r : comparison) :
  Ascii.compare a b = r -> Ascii.compare b c = r -> Ascii.compare a c = r.
Proof.
  unfold Ascii.compare. intros Hab Hbc. destruct r.
  - apply N.compare_eq_iff in Hab, Hbc. apply N.compare_eq_iff. congruence.
  - rewrite N.compare_lt_iff in *. lia.
  - rewrite N.compare_gt_iff in *. lia.
Qed.

Lemma ascii_compare_eq_l (a b c : ascii) :
  Ascii.compare a b = Eq -> Ascii.compare a c = Ascii.compare b c.
Proof. intros E. apply Ascii.compare_eq_iff in E. now subst. Qed.

Lemma str_compare_trans (r : comparison) :
  forall a b c : string,
    String.compare a b = r -> String.compare b c = r -> String.compare a c = r.
Proof.
  induction a as [|x a IH]; intros [|y b] [|z c]; cbn; try congruence.
  destruct (Ascii.compare x y) eqn:Hxy, (Ascii.compare y z) eqn:Hyz;
    intros Hab Hbc; subst;
    try (rewrite (ascii_compare_eq_l _ _ z Hxy), Hyz; auto; fail);
    try (apply Ascii.compare_eq_iff in Hyz; subst z; rewrite Hxy; auto; fail);
    try discriminate;
    try (rewrite (ascii_compare_trans _ _ _ Hxy Hyz); reflexivity).
  - rewrite (ascii_compare_eq_l _ _ z Hxy), Hyz. now apply IH with b.
Qed.

Lemma str_le_trans (a b c : string) : str_le a b -> str_le b c -> str_le a c.
Proof.
  unfold str_le, String.leb. intros Hab Hbc.
  destruct (String.compare a b) eqn:Eab; [| |discriminate];
    destruct (String.compare b c) eqn:Ebc; try discriminate.
  - apply String.compare_eq_iff in Eab. subst. now rewrite Ebc.
  - apply String.compare_eq_iff in Eab. subst. now rewrite Ebc.
  - apply String.compare_eq_iff in Ebc. subst. now rewrite Eab.
  - now rewrite (str_compare_trans _ _ _ Eab Ebc).
Qed.

Lemma str_le_cases (a b : string) :
  (String.leb a b = true /\ (String.leb b a = true -> a = b)) \/
  (String.leb a b = false /\ String.leb b a = true).
Proof.
  destruct (String.leb a b) eqn:E.
  - left. split; [reflexivity|]. intros E'. now apply String.leb_antisym.
  - right. split; [reflexivity|].
    destruct (String.leb_total a b) as [H|H]; congruence.
Qed.

Ltac leb_cases :=
  repeat match goal with
  | |- context [String.leb ?a ?b] =>
      let E := fresh "E" in
      destruct (String.leb a b) eqn:E; cbn [insert_sorted]
  end.

Ltac leb_saturate :=
  repeat match goal with
  | H : String.leb ?a ?b = false |- _ =>
      lazymatch goal with
      | _ : String.leb b a = true |- _ => fail
      | _ => assert (String.leb b a = true)
               by (destruct (String.leb_total a b); congruence)
      end
  | H1 : String.leb ?a ?b = true, H2 : String.leb ?b ?c = true |- _ =>
      lazymatch goal with
      | _ : String.leb a c = true |- _ => fail
      | _ => assert (String.leb a c = true) by exact (str_le_trans H1 H2)
      end
  end.

Ltac leb_close :=
  try reflexivity; leb_saturate; try congruence;
  repeat match goal with
  | H1 : String.leb ?a ?b = true, H2 : String.leb ?b ?a = true |- _ =>
      first [ constr_eq a b; fail 1
            | pose proof (String.leb_antisym _ _ H1 H2); subst ]
  end;
  try reflexivity; try congruence.

Lemma insert_sorted_comm (x y : string) (l : list string) :
  insert_sorted x (insert_sorted y l) = insert_sorted y (insert_sorted x l).
Proof.
  induction l as [|z l IH]; cbn [insert_sorted]; leb_cases;
    rewrite ?IH; leb_close.
Qed.

Lemma sorted_permutation (l l' : list string) :
  Permutation l l' -> sorted l = sorted l'.
Proof.
  unfold sorted.
  induction 1 as [|x l l' _ IH|x y l|l l' l'' _ IH1 _ IH2]; cbn [fold_right].
  - reflexivity.
  - now rewrite IH.
  - apply insert_sorted_comm.
  - congruence.
Qed.

Lemma filter_permutation {A : Type} (f : A -> bool) (l l' : list A) :
  Permutation l l' -> Permutation (filter f l) (filter f l').
Proof.
  induction 1 as [|x l l' _ IH|x y l|l l' l'' _ IH1 _ IH2]; cbn.
  - constructor.
  - destruct (f x); [now constructor | exact IH].
  - destruct (f x), (f y); try reflexivity. apply perm_swap.
  - now transitivity (filter f l').
Qed.

End SortFacts.

Section FileOrder.

Context {T : Type} {NumT : Num T}.

(** X7.  [Stage2] sorts the selected file paths itself: listing the test
    files in another order gives the same run, trace included. *)
Theorem stage2_ignores_file_order
        (stem : string -> string)
        (load_input : string -> nat -> nat -> result (ndarray T))
        (preprocess_input : ndarray T -> result (ndarray T))
        (post_process_all : ndarray T -> T -> nat -> result (ndarray T))
        (mask2rle : ndarray T -> nat -> nat -> result string)
        (cwd : string) (seg_model : SegModel T) (sub_df : DataFrame)
        (test_fpaths test_fpaths' : list string)
        (channels img_size batch_size : nat)
        (tta : bool) (threshold : T) (save_pred_arr_p : bool)
        (min_roi_size : nat)
        (preprocess_fn : option (ndarray T -> result (ndarray T))) :
  Permutation test_fpaths test_fpaths' ->
  Stage2 stem load_input preprocess_input post_process_all mask2rle cwd
         seg_model sub_df test_fpaths channels img_size batch_size tta
         threshold save_pred_arr_p min_roi_size preprocess_fn =
  Stage2 stem load_input preprocess_input post_process_all mask2rle cwd
         seg_model sub_df test_fpaths' channels img_size batch_size tta
         threshold save_pred_arr_p min_roi_size preprocess_fn.
Proof.
  intros Hperm. unfold Stage2.
  assert (E : select_fpaths stem (select_ids sub_df) test_fpaths =
              select_fpaths stem (select_ids sub_df) test_fpaths').
  { unfold select_fpaths. now apply sorted_permutation, filter_permutation. }
  now rewrite E.
Qed.

End FileOrder.

(* ================================================================== *)
(** * Ensembling: when it fails, what it returns *)

Section EnsembleShapes.

Context {T : Type} {NumT : Num T}.

Lemma same_shapes_false (p : ndarray T) (ps : list (ndarray T)) :
  ~ Forall (fun q => shape q = shape p) ps -> same_shapes (shape p) ps = false.
Proof.
  intros Hn. destruct (same_shapes (shape p) ps) eqn:E; [|reflexivity].
  exfalso. now apply Hn, same_shapes_Forall.
Qed.

(** X8.  An ensemble is averaged only when there is something to average
    and all predictions have one shape: the empty collection raises before
    any model is called, predictions of different shapes raise, and a
    result comes from predictions of one shape, squeezed. *)
Theorem ensemble_needs_predictions_of_one_shape
        (x : ndarray T) (bs : nat) (tta : bool) :
  let one := fun m => if tta then tta_value m x bs else predict m x bs in
  run_seg_prediction x (Ensemble []) bs tta =
    ([], Raise (ValueError "need at least one array to stack")) /\
  (forall ms p ps,
      mapM one ms = Ok (p :: ps) ->
      ~ Forall (fun q => shape q = shape p) ps ->
      value (run_seg_prediction x (Ensemble ms) bs tta) =
        Raise (ValueError "all input arrays must have the same shape")) /\
  (forall ms r,
      value (run_seg_prediction x (Ensemble ms) bs tta) = Ok r ->
      exists p ps,
        mapM one ms = Ok (p :: ps) /\
        Forall (fun q => shape q = shape p) ps /\
        shape r = filter (fun d => negb (d =? 1)) (shape p)).
Proof.
  intros one. repeat split.
  - now destruct tta.
  - intros ms p ps Hps Hdiff. rewrite value_run_seg_prediction.
    unfold run_value. fold one. rewrite Hps. cbn [bind result_monad].
    unfold ensemble, np_stack. now rewrite (@same_shapes_false p ps Hdiff).
  - intros ms r. rewrite value_run_seg_prediction. unfold run_value.
    fold one. destruct (mapM one ms) as [ps|]; [|discriminate].
    cbn [bind result_monad]. intros Hr.
    destruct (ensemble_Ok_inv _ Hr) as (p & tl & -> & Hs).
    exists p, tl. repeat split.
    + now inversion Hs.
    + now apply ensemble_shape with tl.
Qed.

Lemma size_of_squeeze (s : list nat) :
  size_of (filter (fun d => negb (d =? 1)) s) = size_of s.
Proof.
  unfold size_of. induction s as [|d s IH]; [reflexivity|]. cbn [filter].
  destruct (Nat.eqb_spec d 1) as [->|Hd]; cbn [negb fold_right];
    rewrite IH; lia.
Qed.

Lemma np_squeeze_wf (a : ndarray T) : wf a -> wf (np_squeeze a).
Proof.
  unfold wf, np_squeeze. cbn [shape data]. now rewrite size_of_squeeze.
Qed.

Lemma fold_map2_length (f : T -> T -> T) (k : nat) (rows : list (list T))
      (r : list T) :
  length r = k -> Forall (fun c => length c = k) rows ->
  length (fold_left (map2 f) rows r) = k.
Proof.
  intros Hr Hrows. revert r Hr.
  induction Hrows as [|c rows Hc _ IH]; intros r Hr; cbn [fold_left];
    [assumption|].
  apply IH. rewrite map2_length, Hr, Hc. apply Nat.min_id.
Qed.

Lemma tta_value_segments (m : Model T) (bs C K N H W : nat) (x : ndarray T) :
  segments m bs C K ->
  shape x = [S N; H; W; C] -> wf x ->
  exists r, tta_value m x bs = Ok r /\ shape r = [S N; H; W; K] /\ wf r.
Proof.
  intros Hseg Hsx Hwx.
  destruct (Hseg x _ _ _ Hsx Hwx) as (p & Hp & Hsp & Hwp).
  pose proof (fliplr_all_batch x Hsx) as Hx'.
  set (x' := mk_array _ _) in Hx'.
  assert (Hsx' : shape x' = [S N; H; W; C]) by (unfold x'; exact Hsx).
  pose proof (fliplr_all_wf Hwx Hx') as Hwx'.
  destruct (Hseg x' _ _ _ Hsx' Hwx') as (q & Hq & Hsq & Hwq).
  pose proof (fliplr_all_batch q Hsq) as Hq'.
  set (q' := mk_array _ _) in Hq'.
  assert (Hsq' : shape q' = shape p) by (unfold q'; cbn [shape]; congruence).
  pose proof (fliplr_all_wf Hwq Hq') as Hwq'.
  exists (mean2 p q'). repeat split.
  - unfold tta_value. rewrite Hp. cbn [bind result_monad]. rewrite Hx'.
    rewrite Hq. rewrite Hq'. now apply np_mean_pair.
  - exact Hsp.
  - now apply mean2_wf.
Qed.

Lemma one_prediction_segments (m : Model T) (bs C N H W : nat)
      (x : ndarray T) (use_tta : bool) :
  segments m bs C 1 ->
  shape x = [S N; H; W; C] -> wf x ->
  exists p, (if use_tta then tta_value m x bs else predict m x bs) = Ok p /\
            shape p = [S N; H; W; 1] /\ wf p.
Proof.
  intros Hseg Hsx Hwx. destruct use_tta.
  - now apply tta_value_segments with C.
  - now apply Hseg.
Qed.

(** X9.  With two or more images of height and width other than one, and
    one-class segmentation models, the runner returns: an array of shape
    (N, H, W) holding N masks of shape (H, W), for a single model and
    for a non-empty collection, with and without test-time
    augmentation. *)
Theorem runner_returns_one_mask_per_image
        (seg_model : SegModel T) (x : ndarray T) (bs C N H W : nat)
        (tta : bool) :
  models_segment seg_model bs C ->
  seg_model <> Ensemble [] ->
  shape x = [N; H; W; C] -> wf x ->
  2 <= N -> H <> 1 -> W <> 1 ->
  exists r masks,
    value (run_seg_prediction x seg_model bs tta) = Ok r /\
    shape r = [N; H; W] /\ wf r /\
    iter_array r = Ok masks /\
    length masks = N /\
    Forall (fun mask => shape mask = [H; W]) masks.
Proof.
  intros Hseg Hne Hsx Hwx HN HH HW.
  destruct N as [|N]; [lia|].
  assert (Hsq : filter (fun d => negb (d =? 1)) [S N; H; W; 1] = [S N; H; W]).
  { cbn [filter]. apply Nat.eqb_neq in HH, HW.
    replace (S N =? 1) with false by (symmetry; apply Nat.eqb_neq; lia).
    now rewrite HH, HW. }
  assert (Hrun : exists r, value (run_seg_prediction x seg_model bs tta) = Ok r
                           /\ shape r = [S N; H; W] /\ wf r).
  { rewrite value_run_seg_prediction. unfold run_value.
    destruct seg_model as [m|ms]; cbn [models_segment] in Hseg.
    - destruct (one_prediction_segments tta Hseg Hsx Hwx) as (p & Hp & Hsp & Hwp).
      rewrite Hp. exists (np_squeeze p). repeat split.
      + unfold np_squeeze. cbn [shape]. now rewrite Hsp.
      + now apply np_squeeze_wf.
    - assert (Hps : exists ps,
                 mapM (fun m => if tta then tta_value m x bs
                                else predict m x bs) ms = Ok ps /\
                 length ps = length ms /\
                 Forall (fun p => shape p = [S N; H; W; 1] /\ wf p) ps).
      { clear Hne. induction Hseg as [|m ms Hm _ IH].
        - exists []. repeat split. constructor.
        - destruct IH as (ps & Hps & Hlen & Hall).
          destruct (one_prediction_segments tta Hm Hsx Hwx)
            as (p & Hp & Hsp & Hwp).
          exists (p :: ps). cbn [mapM bind ret result_monad].
          rewrite Hp, Hps. repeat split; cbn; auto. }
      destruct Hps as (ps & Hps & Hlen & Hall). rewrite Hps.
      cbn [bind result_monad].
      assert (Hpne : ps <> []).
      { intros ->. destruct ms; [congruence | discriminate]. }
      rewrite (ensemble_closed (s := [S N; H; W; 1])); auto.
      + eexists. split; [reflexivity|]. split.
        * unfold np_squeeze. cbn [shape]. exact Hsq.
        * apply np_squeeze_wf. unfold wf. cbn [shape data].
          rewrite length_map. destruct ps as [|p ps]; [congruence|].
          cbn [map sum_rows]. inversion Hall as [|? ? [Hsp Hwp] Hrest]; subst.
          apply fold_map2_length.
          -- unfold wf in Hwp. now rewrite Hwp, Hsp.
          -- apply Forall_map. eapply Forall_impl; [|exact Hrest].
             intros q [Hsq' Hwq]. unfold wf in Hwq. now rewrite Hwq, Hsq'.
      + eapply Forall_impl; [|exact Hall]. now intros q [? _].
      + eapply Forall_impl; [|exact Hall]. now intros q [_ ?]. }
  destruct Hrun as (r & Hr & Hsr & Hwr).
  exists r, (map (mk_array [H; W]) (chunks (size_of [H; W]) (S N) (data r))).
  repeat split; auto.
  - unfold iter_array. rewrite Hsr. reflexivity.
  - now rewrite length_map, chunks_length.
  - apply Forall_map, Forall_forall. now intros c _.
Qed.

End EnsembleShapes.

(* ================================================================== *)
(** * Mirroring a batch *)

Section Mirror.

Context {T : Type} {NumT : Num T}.

Lemma block_index_lt (a A b B : nat) : a < A -> b < B -> a * B + b < A * B.
Proof. nia. Qed.

(** The pixels of a mirrored batch. *)
Lemma fliplr_all_nth (a b : ndarray T) (N H W C : nat) :
  wf a -> shape a = [S N; H; W; C] -> fliplr_all a = Ok b ->
  forall n h w c d,
    n < S N -> h < H -> w < W -> c < C ->
    nth (((n * H + h) * W + w) * C + c) (data b) d =
    nth (((n * H + h) * W + (W - 1 - w)) * C + c) (data a) d.
Proof.
  intros Hwf Hs Hb. rewrite (fliplr_all_batch a Hs) in Hb.
  apply Ok_inj in Hb. subst b.
  intros n h w c d Hn Hh Hw Hc. cbn [data].
  set (k := size_of [C]). set (K := size_of [H; W; C]).
  assert (Hk : k = C * 1) by reflexivity.
  assert (HK : K = H * (W * k)) by reflexivity.
  unfold wf in Hwf. rewrite Hs in Hwf.
  change (size_of [S N; H; W; C]) with (S N * K) in Hwf.
  clearbody k K.
  assert (Hck : c < k) by lia.
  assert (Hwc : w * k + c < W * k) by now apply block_index_lt.
  assert (Hwc' : (W - 1 - w) * k + c < W * k)
    by (apply block_index_lt; lia).
  assert (Hj : h * (W * k) + (w * k + c) < K)
    by (rewrite HK; now apply block_index_lt).
  assert (Hj' : h * (W * k) + ((W - 1 - w) * k + c) < K)
    by (rewrite HK; now apply block_index_lt).
  set (cs := chunks K (S N) (data a)).
  assert (Hcs : Forall (fun blk => length blk = K) cs)
    by (apply Forall_chunks; exact Hwf).
  assert (Hfl : Forall (fun blk => length blk = K) (map (flip_data H W k) cs)).
  { apply Forall_map. eapply Forall_impl; [|exact Hcs].
    intros blk Hblk. rewrite HK in *. now apply flip_data_length. }
  replace (((n * H + h) * W + w) * C + c)
    with (n * K + (h * (W * k) + (w * k + c))) by (rewrite HK, Hk; ring).
  replace (((n * H + h) * W + (W - 1 - w)) * C + c)
    with (n * K + (h * (W * k) + ((W - 1 - w) * k + c)))
    by (rewrite HK, Hk; ring).
  rewrite (nth_concat_blocks (h := K) d Hfl n Hj).
  rewrite (nth_indep _ [] (flip_data H W k []))
    by (unfold cs; now rewrite length_map, chunks_length).
  rewrite map_nth. unfold cs. rewrite nth_chunks by exact Hn.
  set (blk := firstn K (skipn (n * K) (data a))).
  assert (Hblk : length blk = H * (W * k)).
  { unfold blk. rewrite length_firstn, length_skipn, Hwf, <- HK.
    cbn [Nat.mul]. nia. }
  rewrite flip_data_mirrors by assumption.
  unfold blk. apply nth_block. exact Hj'.
Qed.

(** X10.  [np.asarray([np.fliplr(x) for x in a])] on a batch of shape
    (N, H, W, C), N > 0: the result has the shape of the batch, pixel
    (h, w) of every image comes from pixel (h, W - 1 - w) of the same
    image, channel by channel, and mirroring the result gives the batch
    back. *)
Theorem mirroring_a_batch (a : ndarray T) (N H W C : nat) :
  wf a -> shape a = [S N; H; W; C] ->
  exists b,
    fliplr_all a = Ok b /\
    shape b = shape a /\ wf b /\
    fliplr_all b = Ok a /\
    forall n h w c d,
      n < S N -> h < H -> w < W -> c < C ->
      nth (((n * H + h) * W + w) * C + c) (data b) d =
      nth (((n * H + h) * W + (W - 1 - w)) * C + c) (data a) d.
Proof.
  intros Hwf Hs. pose proof (fliplr_all_batch a Hs) as Hb.
  set (b := mk_array _ _) in Hb. exists b.
  assert (Hwb : wf b) by exact (fliplr_all_wf Hwf Hb).
  repeat split; auto.
  - exact (fliplr_all_involutive Hwf Hs Hb).
  - now apply (fliplr_all_nth Hwf Hs Hb).
Qed.

End Mirror.

(* ================================================================== *)
(** * Test-time augmentation, pixel by pixel *)

Section MirroredAverage.

Context {T : Type} {NumT : Num T}.

Lemma index4_lt (N H W C n h w c : nat) :
  n < N -> h < H -> w < W -> c < C ->
  ((n * H + h) * W + w) * C + c < size_of [N; H; W; C].
Proof.
  intros Hn Hh Hw Hc. cbn [size_of fold_right]. rewrite Nat.mul_1_r.
  assert (H1 : n * H + h < N * H) by now apply block_index_lt.
  assert (H2 : (n * H + h) * W + w < N * H * W) by now apply block_index_lt.
  assert (H3 : ((n * H + h) * W + w) * C + c < N * H * W * C)
    by now apply block_index_lt.
  lia.
Qed.

(** Every position of the buffer is the position of one element. *)
Lemma index4 (N H W C i : nat) :
  i < size_of [N; H; W; C] ->
  exists n h w c,
    n < N /\ h < H /\ w < W /\ c < C /\
    i = ((n * H + h) * W + w) * C + c.
Proof.
  cbn [size_of fold_right]. rewrite Nat.mul_1_r. intros Hi.
  assert (HC : C <> 0) by (intros ->; lia).
  assert (HW : W <> 0) by (intros ->; lia).
  assert (HH : H <> 0) by (intros ->; lia).
  exists (i / C / W / H), ((i / C / W) mod H), ((i / C) mod W), (i mod C).
  pose proof (Nat.div_mod_eq i C) as E1.
  pose proof (Nat.div_mod_eq (i / C) W) as E2.
  pose proof (Nat.div_mod_eq (i / C / W) H) as E3.
  pose proof (Nat.mod_upper_bound i C HC) as B1.
  pose proof (Nat.mod_upper_bound (i / C) W HW) as B2.
  pose proof (Nat.mod_upper_bound (i / C / W) H HH) as B3.
  assert (B4 : i / C / W / H < N).
  { apply Nat.Div0.div_lt_upper_bound, Nat.Div0.div_lt_upper_bound,
      Nat.Div0.div_lt_upper_bound. lia. }
  repeat split; try assumption.
  set (q1 := i / C) in *. set (r1 := i mod C) in *.
  set (q2 := q1 / W) in *. set (r2 := q1 mod W) in *.
  set (q3 := q2 / H) in *. set (r3 := q2 mod H) in *.
  clearbody q1 r1 q2 r2 q3 r3. subst i q1 q2. ring.
Qed.

(** Two arrays of one shape with the same elements are the same array. *)
Lemma array_ext4 (a b : ndarray T) (N H W C : nat) :
  shape a = [N; H; W; C] -> shape b = [N; H; W; C] -> wf a -> wf b ->
  (forall n h w c, n < N -> h < H -> w < W -> c < C ->
                   item4 a n h w c = item4 b n h w c) ->
  a = b.
Proof.
  destruct a as [sa da], b as [sb db]. unfold wf, item4. cbn [shape data].
  intros -> -> Ha Hb Hitems. f_equal.
  apply (nth_ext _ _ zero zero); [congruence|].
  intros i Hi. rewrite Ha in Hi.
  destruct (index4 _ _ _ _ Hi) as (n & h & w & c & Hn & Hh & Hw & Hc & ->).
  now apply Hitems.
Qed.

Lemma nth_map2 (f : T -> T -> T) (xs ys : list T) (i : nat) (d : T) :
  i < length xs -> i < length ys ->
  nth i (map2 f xs ys) d = f (nth i xs d) (nth i ys d).
Proof.
  revert ys i; induction xs as [|x xs IH]; intros [|y ys] [|i]; cbn;
    try lia; [reflexivity|].
  intros Hx Hy. apply IH; lia.
Qed.

Lemma map2_diag_Forall (f : T -> T -> T) (xs : list T) :
  Forall (fun a => f a a = a) xs -> map2 f xs xs = xs.
Proof. induction 1 as [|x xs Hx _ IH]; cbn; congruence. Qed.

(** C3.  Let [xm] be the batch [x] with every image mirrored left-right,
    and let [p] and [q] be the model's predictions on [x] and on [xm].
    With test-time augmentation the runner asks for exactly these two
    predictions and returns, at every pixel, the arithmetic mean of [p]
    at that pixel and of [q] at the mirrored pixel (squeezed, as every
    result of the runner is).  When [q] is the mirror image of [p], as
    for a model that commutes with the mirror, this is the plain
    prediction. *)
Theorem tta_is_mean_of_plain_and_mirrored
        (m : Model T) (bs N H W C K : nat) (x xm p q : ndarray T) :
  shape x = [S N; H; W; C] -> wf x ->
  shape xm = [S N; H; W; C] -> wf xm ->
  (forall n h w c, n < S N -> h < H -> w < W -> c < C ->
                   item4 xm n h w c = item4 x n h (W - 1 - w) c) ->
  predict m x bs = Ok p -> shape p = [S N; H; W; K] -> wf p ->
  predict m xm bs = Ok q -> shape q = [S N; H; W; K] -> wf q ->
  exists r,
    TTA_Segmentation_All m x bs
    = ([EvPredict x bs; EvPredict xm bs], Ok r) /\
    shape r = [S N; H; W; K] /\ wf r /\
    (forall n h w k, n < S N -> h < H -> w < W -> k < K ->
       item4 r n h w k
       = divn (add (item4 p n h w k) (item4 q n h (W - 1 - w) k)) 2) /\
    value (run_seg_prediction x (Single m) bs true) = Ok (np_squeeze r) /\
    ((forall n h w k, n < S N -> h < H -> w < W -> k < K ->
                      item4 q n h w k = item4 p n h (W - 1 - w) k) ->
     Forall (fun a => divn (add a a) 2 = a) (data p) ->
     r = p /\
     value (run_seg_prediction x (Single m) bs true) =
     value (run_seg_prediction x (Single m) bs false)).
Proof.
  intros Hsx Hwx Hsm Hwm Hmir Hp Hsp Hwp Hq Hsq Hwq.
  pose proof (fliplr_all_batch x Hsx) as Hx'.
  set (x' := mk_array _ _) in Hx'.
  assert (Hsx' : shape x' = [S N; H; W; C]) by (unfold x'; exact Hsx).
  pose proof (fliplr_all_wf Hwx Hx') as Hwx'.
  assert (Exm : xm = x').
  { apply (array_ext4 Hsm Hsx' Hwm Hwx'). intros n h w c Hn Hh Hw Hc.
    rewrite Hmir by assumption. unfold item4. rewrite Hsx, Hsx'.
    symmetry. now apply (fliplr_all_nth Hwx Hsx Hx'). }
  subst xm.
  pose proof (fliplr_all_batch q Hsq) as Hq'.
  set (q' := mk_array _ _) in Hq'.
  assert (Hsq' : shape q' = [S N; H; W; K]) by (unfold q'; exact Hsq).
  pose proof (fliplr_all_wf Hwq Hq') as Hwq'.
  assert (Hitem : forall n h w k, n < S N -> h < H -> w < W -> k < K ->
            item4 q' n h w k = item4 q n h (W - 1 - w) k).
  { intros n h w k Hn Hh Hw Hk. unfold item4. rewrite Hsq, Hsq'.
    now apply (fliplr_all_nth Hwq Hsq Hq'). }
  assert (Htta : tta_value m x bs = Ok (mean2 p q')).
  { unfold tta_value. rewrite Hp. cbn [bind result_monad]. rewrite Hx'.
    rewrite Hq. rewrite Hq'. apply np_mean_pair; congruence. }
  assert (Hrun : value (run_seg_prediction x (Single m) bs true) =
                 Ok (np_squeeze (mean2 p q'))).
  { rewrite value_run_seg_prediction. unfold run_value. now rewrite Htta. }
  exists (mean2 p q'). split; [|split; [|split; [|split; [|split]]]].
  - rewrite (surjective_pairing (TTA_Segmentation_All m x bs)).
    change (fst (TTA_Segmentation_All m x bs))
      with (trace (TTA_Segmentation_All m x bs)).
    change (snd (TTA_Segmentation_All m x bs))
      with (value (TTA_Segmentation_All m x bs)).
    rewrite value_TTA, Htta.
    rewrite (proj2 (trace_TTA m x bs) (mean2 p q'))
      by now rewrite value_TTA.
    unfold predict_calls. now rewrite Hx'.
  - exact Hsp.
  - apply mean2_wf; congruence.
  - intros n h w k Hn Hh Hw Hk. rewrite <- Hitem by assumption.
    unfold item4, mean2. cbn [shape data]. rewrite Hsp, Hsq'.
    apply nth_map2.
    + unfold wf in Hwp. rewrite Hwp, Hsp. now apply index4_lt.
    + unfold wf in Hwq'. rewrite Hwq', Hsq'. now apply index4_lt.
  - exact Hrun.
  - intros Hqp Hhalf.
    assert (Eq : q' = p).
    { apply (array_ext4 Hsq' Hsp Hwq' Hwp). intros n h w k Hn Hh Hw Hk.
      rewrite Hitem, Hqp by (assumption || lia).
      now replace (W - 1 - (W - 1 - w)) with w by lia. }
    assert (Er : mean2 p q' = p).
    { rewrite Eq. unfold mean2.
      rewrite (map2_diag_Forall (fun a b => divn (add a b) 2) Hhalf).
      now destruct p. }
    split; [exact Er|].
    rewrite Hrun, Er, value_run_seg_prediction. unfold run_value.
    now rewrite Hp.
Qed.

End MirroredAverage.

(* ================================================================== *)
(** * The further properties at concrete inputs *)

Section FurtherExamples.

Lemma edit_gives_each_id_its_own_mask_witness :
  exists mask rle,
    nth_error [mk_array [1; 1] [1%Qc]; mk_array [1; 1] [0%Qc]] 1 = Some mask /\
    demo_mask2rle mask 1024 1024 = Ok rle /\
    Forall (fun r' => ImageId r' = "c"%string ->
                      EncodedPixels r' =
                      VStr (if String.eqb rle "" then "-1" else rle))
           [mk_row "a" (VStr "1024 1024"); mk_row "b" (VInt (-1));
            mk_row "c" (VStr "-1")].
Proof.
  apply (@edit_gives_each_id_its_own_mask Qc demo_mask2rle demo_table _
           (mk_array [2; 1; 1] [1%Qc; 0%Qc]) ["a"; "c"]%string
           [mk_array [1; 1] [1%Qc]; mk_array [1; 1] [0%Qc]] 1 "c"%string).
  - repeat constructor; cbn; intuition discriminate.
  - reflexivity.
  - cbn. lia.
  - vm_compute. reflexivity.
  - reflexivity.
Defined.

Lemma edit_leaves_surplus_ids_untouched_witness :
  exists df',
    edit_classification_df demo_mask2rle demo_table
      (mk_array [1; 1; 1] [1%Qc]) ["a"; "c"]%string = Ok df' /\
    Forall2
      (fun r r' =>
         ~ In (ImageId r) (firstn 1 ["a"; "c"]%string) ->
         r' = unblank_row r /\
         (EncodedPixels r = VInt 1 -> EncodedPixels r' = VInt 1))
      demo_table df'.
Proof.
  apply (@edit_leaves_surplus_ids_untouched Qc demo_mask2rle demo_table
           (mk_array [1; 1; 1] [1%Qc]) ["a"; "c"]%string
           [mk_array [1; 1] [1%Qc]] ["1024 1024"%string]).
  - reflexivity.
  - vm_compute. reflexivity.
Defined.

Lemma stage2_effects_in_order_witness :
  exists x preds post df',
    value (run_seg_prediction x (Single echo_model) 32 true) = Ok preds /\
    demo_post_process preds half 3500 = Ok post /\
    edit_classification_df demo_mask2rle demo_table post
      (select_ids demo_table) = Ok df' /\
    trace (demo_run demo_mask2rle demo_table demo_files) =
      flat_map (fun _ => predict_calls x 32 true)
               (models_of (Single (echo_model (T:=Qc))))
      ++ [EvSave (os_path_join "/work" "predicted_probability_masks.npy") preds]
      ++ [EvToCsv "submission_final.csv" df'].
Proof.
  apply (@stage2_effects_in_order Qc _ posix_stem demo_load demo_preprocess
           demo_post_process demo_mask2rle "/work" (Single echo_model)
           demo_table demo_files 1 2 32 true half true 3500 None).
  vm_compute. reflexivity.
Defined.

Lemma failed_run_writes_no_table_witness :
  value (demo_run (fun _ _ _ => Raise (OtherError "no encoder"))
                  demo_table demo_files) = Raise (OtherError "no encoder") /\
  ~ In (EvToCsv "submission_final.csv" demo_table)
       (trace (demo_run (fun _ _ _ => Raise (OtherError "no encoder"))
                        demo_table demo_files)).
Proof.
  split; [vm_compute; reflexivity |].
  apply (@failed_run_writes_no_table Qc _ posix_stem demo_load demo_preprocess
           demo_post_process (fun _ _ _ => Raise (OtherError "no encoder"))
           "/work" (Single echo_model) demo_table demo_files 1 2 32 true half
           true 3500 None (OtherError "no encoder")).
  vm_compute. reflexivity.
Defined.

Lemma images_follow_the_ids_witness :
  exists imgs x0 x tr,
    Forall2 (fun id_ img =>
               exists fpath, In fpath demo_files /\ posix_stem fpath = id_ /\
                             demo_load fpath 2 1 = Ok img)
            (select_ids demo_table) imgs /\
    np_asarray imgs = Ok x0 /\
    demo_preprocess x0 = Ok x /\
    trace (demo_run (fun _ _ _ => Raise (OtherError "no encoder"))
                    demo_table demo_files)
    = EvPredict x 32 :: tr.
Proof.
  apply (@images_follow_the_ids Qc _ posix_stem demo_load demo_preprocess
           demo_post_process (fun _ _ _ => Raise (OtherError "no encoder"))
           "/work" (Single echo_model) demo_table demo_files 1 2 32 true half
           true 3500 None).
  vm_compute. discriminate.
Defined.

Lemma stage2_ignores_file_order_witness :
  demo_run demo_mask2rle demo_table demo_files =
  demo_run demo_mask2rle demo_table (rev demo_files).
Proof.
  apply stage2_ignores_file_order. apply Permutation_rev.
Defined.

Lemma runner_returns_one_mask_per_image_witness :
  exists r masks,
    value (run_seg_prediction (full [2; 2; 2; 1] half)
             (Ensemble [echo_model; const_model 1%Qc]) 32 true) = Ok r /\
    shape r = [2; 2; 2] /\ wf r /\
    iter_array r = Ok masks /\
    length masks = 2 /\
    Forall (fun mask => shape mask = [2; 2]) masks.
Proof.
  apply (@runner_returns_one_mask_per_image Qc _
           (Ensemble [echo_model; const_model 1%Qc])
           (full [2; 2; 2; 1] half) 32 1 2 2 2 true).
  - repeat constructor;
      [apply echo_model_segments | apply const_model_segments].
  - discriminate.
  - reflexivity.
  - apply full_wf.
  - lia.
  - discriminate.
  - discriminate.
Defined.

Lemma tta_is_mean_of_plain_and_mirrored_witness :
  exists r,
    TTA_Segmentation_All echo_model two_images 32
    = ([EvPredict two_images 32;
        EvPredict (mk_array [2; 1; 2; 1] [0%Qc; 1%Qc; 1%Qc; half]) 32],
       Ok r) /\
    shape r = [2; 1; 2; 1] /\ wf r /\
    (forall n h w k, n < 2 -> h < 1 -> w < 2 -> k < 1 ->
       item4 r n h w k
       = divn (add (item4 two_images n h w k)
                   (item4 (mk_array [2; 1; 2; 1] [0%Qc; 1%Qc; 1%Qc; half])
                          n h (2 - 1 - w) k)) 2) /\
    value (run_seg_prediction two_images (Single echo_model) 32 true)
    = Ok (np_squeeze r) /\
    ((forall n h w k, n < 2 -> h < 1 -> w < 2 -> k < 1 ->
        item4 (mk_array [2; 1; 2; 1] [0%Qc; 1%Qc; 1%Qc; half]) n h w k
        = item4 two_images n h (2 - 1 - w) k) ->
     Forall (fun a => divn (add a a) 2 = a) (data two_images) ->
     r = two_images /\
     value (run_seg_prediction two_images (Single echo_model) 32 true) =
     value (run_seg_prediction two_images (Single echo_model) 32 false)).
Proof.
  apply (@tta_is_mean_of_plain_and_mirrored Qc _ echo_model 32 1 1 2 1 1
           two_images (mk_array [2; 1; 2; 1] [0%Qc; 1%Qc; 1%Qc; half])
           two_images (mk_array [2; 1; 2; 1] [0%Qc; 1%Qc; 1%Qc; half]));
    try reflexivity.
  intros n h w c Hn Hh Hw Hc.
  assert (h = 0) by lia. assert (c = 0) by lia. subst h c.
  destruct n as [|[|n]]; [| |lia]; destruct w as [|[|w]]; try lia;
    reflexivity.
Defined.

Lemma mirroring_a_batch_witness :
  exists b,
    fliplr_all two_images = Ok b /\
    shape b = shape two_images /\ wf b /\
    fliplr_all b = Ok two_images /\
    forall n h w c d,
      n < 2 -> h < 1 -> w < 2 -> c < 1 ->
      nth (((n * 1 + h) * 2 + w) * 1 + c) (data b) d =
      nth (((n * 1 + h) * 2 + (2 - 1 - w)) * 1 + c) (data two_images) d.
Proof.
  apply (@mirroring_a_batch Qc two_images 1 1 2 1); reflexivity.
Defined.

End FurtherExamples.

(* ================================================================== *)
(** * Edges of the selection, and the rows a run passes through *)

Section OrchestratorEdges.

Context {T : Type} {NumT : Num T}.

Variable stem : string -> string.
Variable load_input : string -> nat -> nat -> result (ndarray T).
Variable preprocess_input : ndarray T -> result (ndarray T).
Variable post_process_all : ndarray T -> T -> nat -> result (ndarray T).
Variable mask2rle : ndarray T -> nat -> nat -> result string.
Variable cwd : string.

Variable seg_model : SegModel T.
Variable sub_df : DataFrame.
Variable test_fpaths : list string.
Variables channels img_size batch_size : nat.
Variable tta : bool.
Variable threshold : T.
Variable save_pred_arr_p : bool.
Variable min_roi_size : nat.
Variable preprocess_fn : option (ndarray T -> result (ndarray T)).

Local Notation "'the_run'" :=
  (Stage2 stem load_input preprocess_input post_process_all mask2rle cwd
          seg_model sub_df test_fpaths channels img_size batch_size tta
          threshold save_pred_arr_p min_roi_size preprocess_fn).

Local Notation "'seg_ids'" := (select_ids sub_df).
Local Notation "'x_test_fpaths'" := (select_fpaths stem seg_ids test_fpaths).
Local Notation "'mismatch'" :=
  ([], Raise (AssertionError
                "The x_test is loaded must match the ordering of seg_ids.")).

(** Files kept by a filter have distinct stems when all files have. *)
Lemma kept_stems_distinct (keep : string -> bool) (files : list string) :
  NoDup (map stem files) -> NoDup (map stem (filter keep files)).
Proof.
  intros Hnd. induction files as [|fpath files IH]; [constructor|].
  cbn [map] in Hnd. apply NoDup_cons_iff in Hnd. destruct Hnd as [Hout Hnd].
  cbn [filter]. destruct (keep fpath); [|now apply IH].
  cbn [map]. apply NoDup_cons; [|now apply IH].
  intros Hin. apply Hout. apply in_map_iff in Hin.
  destruct Hin as (other & Hstem & Hin). apply filter_In in Hin.
  rewrite <- Hstem. apply in_map. tauto.
Qed.

Lemma StronglySorted_nth_error {A : Type} (R : A -> A -> Prop)
      (l : list A) (i j : nat) (a b : A) :
  StronglySorted R l -> i < j ->
  nth_error l i = Some a -> nth_error l j = Some b -> R a b.
Proof.
  intros Hs. revert i j.
  induction Hs as [|x l Hs IH Hx]; intros i j Hij Ha Hb.
  - now destruct i.
  - destruct j as [|j]; [lia|]. cbn [nth_error] in Hb.
    destruct i as [|i]; cbn [nth_error] in Ha.
    + injection Ha as ->. rewrite Forall_forall in Hx.
      apply Hx. eapply nth_error_In; eassumption.
    + apply (IH i j); [lia | assumption | assumption].
Qed.

Lemma sorted_StronglySorted (l : list string) :
  StronglySorted str_le (sorted l).
Proof.
  apply Sorted_StronglySorted; [|apply sorted_Sorted].
  intros a b c. apply str_le_trans.
Qed.

(** X19.  When no two listed files share a stem, two pending rows with
    the same id always stop the run at its assertion: the id is selected
    twice and its file once. *)
Theorem duplicate_pending_ids_fail :
  NoDup (map stem test_fpaths) ->
  ~ NoDup (loc_ids is_pending sub_df) ->
  the_run = mismatch.
Proof.
  intros Hfiles Hids. apply Stage2_mismatch.
  destruct (strs_eqb (map stem x_test_fpaths) seg_ids) eqn:E; [|reflexivity].
  exfalso. apply Hids. apply strs_eqb_eq in E.
  apply (Permutation_NoDup (sorted_perm _)).
  change (sorted (loc_ids is_pending sub_df)) with seg_ids.
  rewrite <- E. unfold select_fpaths.
  apply (Permutation_NoDup
           (Permutation_map stem (Permutation_sym (sorted_perm _)))).
  now apply kept_stems_distinct.
Qed.

(** X20.  The check compares the stems in the order of the sorted paths
    with the sorted ids.  Two selected files that sort one way by path
    and the other way by stem (files of different directories, say)
    therefore stop the run at its assertion, although each id has its
    file. *)
Theorem files_must_sort_like_their_stems (f1 f2 : string) :
  In f1 test_fpaths -> In f2 test_fpaths ->
  In (stem f1) (select_ids sub_df) -> In (stem f2) (select_ids sub_df) ->
  str_le f1 f2 ->
  ~ str_le (stem f1) (stem f2) ->
  the_run = mismatch.
Proof.
  intros Hf1 Hf2 Hs1 Hs2 Hpath Hstem. unfold str_le in Hpath, Hstem.
  apply not_true_is_false in Hstem. apply Stage2_mismatch.
  destruct (strs_eqb (map stem x_test_fpaths) seg_ids) eqn:E; [|reflexivity].
  exfalso. apply strs_eqb_eq in E.
  assert (Hrefl : forall s, String.leb s s = true).
  { intros s. now destruct (String.leb_total s s). }
  assert (Hsel : forall f, In f test_fpaths -> In (stem f) seg_ids ->
                           In f x_test_fpaths).
  { intros f Hf Hs. unfold select_fpaths.
    apply (proj2 (in_sorted _ _)), filter_In. split; [assumption|].
    now apply str_in_In. }
  destruct (In_nth_error _ _ (Hsel f1 Hf1 Hs1)) as [i Hi].
  destruct (In_nth_error _ _ (Hsel f2 Hf2 Hs2)) as [j Hj].
  assert (Hpaths : StronglySorted str_le x_test_fpaths)
    by apply sorted_StronglySorted.
  assert (Hids : StronglySorted str_le (map stem x_test_fpaths)).
  { rewrite E. apply sorted_StronglySorted. }
  destruct (Nat.lt_trichotomy i j) as [Hij|[Hij|Hij]].
  - assert (Hle : str_le (stem f1) (stem f2)).
    { apply (StronglySorted_nth_error (i:=i) (j:=j) Hids Hij);
        now apply map_nth_error. }
    unfold str_le in Hle. congruence.
  - subst j. rewrite Hi in Hj. injection Hj as <-.
    rewrite Hrefl in Hstem. discriminate.
  - assert (Hle : str_le f2 f1)
      by exact (StronglySorted_nth_error Hpaths Hij Hj Hi).
    assert (f1 = f2) by (apply String.leb_antisym; assumption).
    subst f2. rewrite Hrefl in Hstem. discriminate.
Qed.

(** X21.  A run that completes writes a table with the rows of the input
    table, in their order and with their ids; a row whose id was not
    selected is written as it was, but for a blank field, which
    becomes "-1". *)
Theorem stage2_passes_other_rows_through :
  value the_run = Ok tt ->
  exists df',
    In (EvToCsv "submission_final.csv" df') (trace the_run) /\
    map ImageId df' = map ImageId sub_df /\
    Forall2 (fun r r' => ~ In (ImageId r) seg_ids -> r' = unblank_row r)
            sub_df df'.
Proof.
  intros Hrun.
  destruct (Stage2_completes_inv _ _ _ _ _ _ _ _ _ _ _ _ _ _ _ _ _ Hrun)
    as (imgs & x0 & x & preds & post & df' & _ & _ & _ & _ & _ & _ & Hdf & Htr).
  exists df'. split; [|split].
  - rewrite Htr. apply in_or_app. right. unfold artifacts.
    apply in_or_app. right. now left.
  - apply edit_classification_df_inv in Hdf.
    destruct Hdf as (masks & rles & _ & _ & ->).
    rewrite map_map. apply map_ext. intros r.
    destruct (unblank_row_spec (fold_left inject_row (combine seg_ids rles) r))
      as (-> & _). apply inject_rows_id.
  - apply edit_classification_df_inv in Hdf.
    destruct Hdf as (masks & rles & _ & _ & ->).
    apply Forall2_map_self. intros r _ Hout.
    rewrite inject_rows_untouched; [reflexivity|].
    intros Hin. apply Hout. apply in_map_iff in Hin.
    destruct Hin as ([id_ rle] & <- & Hin). now apply in_combine_l in Hin.
Qed.

End OrchestratorEdges.

Section EdgeExamples.

Lemma duplicate_pending_ids_fail_witness :
  demo_run demo_mask2rle [mk_row "a" (VInt 1); mk_row "a" (VInt 1)] demo_files
  = ([], Raise (AssertionError
                  "The x_test is loaded must match the ordering of seg_ids.")).
Proof.
  apply duplicate_pending_ids_fail.
  - vm_compute. repeat constructor; cbn; intuition discriminate.
  - vm_compute. intros Hnd. inversion Hnd as [|? ? Hout _]. apply Hout.
    now left.
Defined.

Lemma files_must_sort_like_their_stems_witness :
  demo_run demo_mask2rle [mk_row "x1" (VInt 1); mk_row "x2" (VInt 1)]
           ["b/x1.png"; "a/x2.png"]%string
  = ([], Raise (AssertionError
                  "The x_test is loaded must match the ordering of seg_ids.")).
Proof.
  apply (@files_must_sort_like_their_stems Qc _ posix_stem demo_load
           demo_preprocess demo_post_process demo_mask2rle "/work"
           (Single echo_model) _ _ 1 2 32 true half true 3500 None
           "a/x2.png" "b/x1.png");
    vm_compute; intuition discriminate.
Defined.

Lemma stage2_passes_other_rows_through_witness :
  exists df',
    In (EvToCsv "submission_final.csv" df')
       (trace (demo_run demo_mask2rle demo_table demo_files)) /\
    map ImageId df' = map ImageId demo_table /\
    Forall2 (fun r r' => ~ In (ImageId r) (select_ids demo_table) ->
                         r' = unblank_row r)
            demo_table df'.
Proof.
  apply (@stage2_passes_other_rows_through Qc _ posix_stem demo_load
           demo_preprocess demo_post_process demo_mask2rle "/work"
           (Single echo_model) demo_table demo_files 1 2 32 true half
           true 3500 None).
  vm_compute. reflexivity.
Defined.

End EdgeExamples.

(* ================================================================== *)
(** * The network graph *)

Module VaeCnnFacts.

Import VaeCnn.

(** ** Arithmetic of the sizes *)

Lemma mod16 (n : nat) : (16 * n) mod 16 = 0.
Proof. rewrite Nat.mul_comm. apply Nat.Div0.mod_mul. Qed.

Lemma div16 (n : nat) : (16 * n) / 16 = n.
Proof. rewrite Nat.mul_comm. apply Nat.div_mul. discriminate. Qed.

Lemma halves (m n : nat) : m = 2 * n -> (m + 2 - 1) / 2 = n.
Proof.
  intros ->. replace (2 * n + 2 - 1) with (1 + n * 2) by lia.
  rewrite Nat.div_add by discriminate. reflexivity.
Qed.

(** ** The layers on a batch of images *)

Lemma conv_same_1 (n k : nat) :
  conv_output_length (Some n) k "same" 1 = Ok (Some n).
Proof.
  unfold conv_output_length. cbn [String.eqb Ascii.eqb Bool.eqb].
  now rewrite Nat.add_sub, Nat.div_1_r.
Qed.

Lemma conv_valid_1 (n : nat) :
  conv_output_length (Some n) 1 "valid" 1 = Ok (Some n).
Proof.
  unfold conv_output_length. cbn [String.eqb Ascii.eqb Bool.eqb].
  rewrite (proj2 (Nat.ltb_ge _ _)) by lia.
  now rewrite !Nat.add_sub, Nat.div_1_r.
Qed.

Lemma conv_same_2 (n k : nat) :
  conv_output_length (Some n) k "same" 2 = Ok (Some ((n + 2 - 1) / 2)).
Proof. reflexivity. Qed.

Lemma Conv2D_same_last (f : nat) (k : nat * nat) (b : dim) (h w c : nat) :
  0 < f ->
  Conv2D f k 1 "same" "channels_last" [b; Some h; Some w; Some c]
  = Ok [b; Some h; Some w; Some f].
Proof.
  intros Hf. unfold Conv2D. rewrite (proj2 (Nat.eqb_neq f 0)) by lia.
  change (normalize_padding "same") with (Ok "same"%string).
  change (normalize_data_format "channels_last")
    with (Ok "channels_last"%string).
  cbn [bind result_monad Nat.eqb String.eqb Ascii.eqb Bool.eqb].
  now rewrite !conv_same_1.
Qed.

Lemma Conv2D_same_first (f : nat) (k : nat * nat) (b : dim) (h w c : nat) :
  0 < f ->
  Conv2D f k 1 "same" "channels_first" [b; Some c; Some h; Some w]
  = Ok [b; Some f; Some h; Some w].
Proof.
  intros Hf. unfold Conv2D. rewrite (proj2 (Nat.eqb_neq f 0)) by lia.
  change (normalize_padding "same") with (Ok "same"%string).
  change (normalize_data_format "channels_first")
    with (Ok "channels_first"%string).
  cbn [bind result_monad Nat.eqb String.eqb Ascii.eqb Bool.eqb].
  now rewrite !conv_same_1.
Qed.

Lemma Conv2D_1x1_last (f : nat) (b : dim) (h w c : nat) :
  0 < f ->
  Conv2D f (1, 1) 1 "valid" "channels_last" [b; Some h; Some w; Some c]
  = Ok [b; Some h; Some w; Some f].
Proof.
  intros Hf. unfold Conv2D. rewrite (proj2 (Nat.eqb_neq f 0)) by lia.
  change (normalize_padding "valid") with (Ok "valid"%string).
  change (normalize_data_format "channels_last")
    with (Ok "channels_last"%string).
  cbn [bind result_monad Nat.eqb String.eqb Ascii.eqb Bool.eqb fst snd].
  now rewrite !conv_valid_1.
Qed.

Lemma Conv2D_1x1_first (f : nat) (b : dim) (h w c : nat) :
  0 < f ->
  Conv2D f (1, 1) 1 "valid" "channels_first" [b; Some c; Some h; Some w]
  = Ok [b; Some f; Some h; Some w].
Proof.
  intros Hf. unfold Conv2D. rewrite (proj2 (Nat.eqb_neq f 0)) by lia.
  change (normalize_padding "valid") with (Ok "valid"%string).
  change (normalize_data_format "channels_first")
    with (Ok "channels_first"%string).
  cbn [bind result_monad Nat.eqb String.eqb Ascii.eqb Bool.eqb fst snd].
  now rewrite !conv_valid_1.
Qed.

Lemma Conv2D_down_last (f : nat) (k : nat * nat) (b : dim) (h w c : nat) :
  0 < f ->
  Conv2D f k 2 "same" "channels_last" [b; Some h; Some w; Some c]
  = Ok [b; Some ((h + 2 - 1) / 2); Some ((w + 2 - 1) / 2); Some f].
Proof.
  intros Hf. unfold Conv2D. rewrite (proj2 (Nat.eqb_neq f 0)) by lia.
  reflexivity.
Qed.

Lemma Conv2D_down_first (f : nat) (k : nat * nat) (b : dim) (h w c : nat) :
  0 < f ->
  Conv2D f k 2 "same" "channels_first" [b; Some c; Some h; Some w]
  = Ok [b; Some f; Some ((h + 2 - 1) / 2); Some ((w + 2 - 1) / 2)].
Proof.
  intros Hf. unfold Conv2D. rewrite (proj2 (Nat.eqb_neq f 0)) by lia.
  reflexivity.
Qed.

Lemma UpSampling2D_last (b : dim) (h w c : nat) :
  UpSampling2D 2 "channels_last" [b; Some h; Some w; Some c]
  = Ok [b; Some (2 * h); Some (2 * w); Some c].
Proof. reflexivity. Qed.

Lemma UpSampling2D_first (b : dim) (h w c : nat) :
  UpSampling2D 2 "channels_first" [b; Some c; Some h; Some w]
  = Ok [b; Some c; Some (2 * h); Some (2 * w)].
Proof. reflexivity. Qed.

Lemma elemwise_dims_same (msg : string) (s : tensor) :
  elemwise_dims msg s s = Ok s.
Proof.
  induction s as [|[a|] s IH]; [reflexivity| |];
    cbn [elemwise_dims bind result_monad]; rewrite IH; [|reflexivity].
  destruct (a =? 1); [reflexivity|]. now rewrite Nat.eqb_refl.
Qed.

Lemma Add_same (b : dim) (s : tensor) : Add [b :: s; b :: s] = Ok (b :: s).
Proof.
  unfold Add.
  assert (Hbs : batch_sizes [b :: s; b :: s]
                = match b with Some n => [n] | None => [] end).
  { destruct b as [n|]; [|reflexivity].
    cbn [batch_sizes existsb]. now rewrite Nat.eqb_refl. }
  rewrite Hbs.
  assert (Hone : (1 <? length match b with Some n => [n] | None => [] end)
                 = false) by now destruct b.
  rewrite Hone. cbn [fold_left tl bind result_monad].
  unfold compute_elemwise_op_output_shape.
  rewrite Nat.ltb_irrefl, Nat.sub_diag. cbn [skipn firstn app].
  rewrite elemwise_dims_same. cbn [bind result_monad]. now destruct b.
Qed.

Lemma prod_known_pos (h w c : nat) :
  0 < h -> 0 < w -> 0 < c ->
  prod_known [Some h; Some w; Some c] = Some (h * (w * (c * 1))).
Proof.
  intros Hh Hw Hc.
  destruct h; [lia|]. destruct w; [lia|]. destruct c; [lia|]. reflexivity.
Qed.

Lemma Reshape_ok (target : list nat) (b : dim) (n : nat) :
  n = fold_right Nat.mul 1 target ->
  Reshape target [b; Some n] = Ok (b :: map Some target).
Proof.
  intros ->. unfold Reshape. cbn [known option_map fold_right].
  now rewrite Nat.mul_1_r, Nat.eqb_refl.
Qed.

Lemma broadcast_dim_same (d : dim) : broadcast_dim d d = Ok d.
Proof.
  destruct d as [a|]; [|reflexivity]. unfold broadcast_dim.
  destruct (a =? 1); [reflexivity|]. now rewrite Nat.eqb_refl.
Qed.

Lemma accepts_last_at (GN : nat -> Z -> tensor -> result tensor)
    (x : tensor) (c : nat) :
  accepts_last GN -> last x None = Some c -> 0 < c -> c mod 8 = 0 ->
  GN 8 (-1)%Z x = Ok x.
Proof. intros Hgn. apply Hgn. Qed.

(** ** The residual block *)

Section Blocks.

Variable GN : nat -> Z -> tensor -> result tensor.

(** With its default format, the block keeps the image axes and sets the
    last axis to [filters]. *)
Lemma green_block_last (b : dim) (h w c f : nat) :
  accepts_last GN ->
  0 < c -> c mod 8 = 0 -> 0 < f -> f mod 8 = 0 ->
  green_block GN [b; Some h; Some w; Some c] f "channels_last"
  = Ok [b; Some h; Some w; Some f].
Proof.
  intros Hgn Hc Hc8 Hf Hf8. unfold green_block, Activation.
  cbn [String.eqb Ascii.eqb Bool.eqb].
  rewrite Conv2D_1x1_last by lia. cbn [bind result_monad Activation].
  rewrite (Hgn _ c) by (assumption || reflexivity).
  cbn [bind result_monad Activation].
  rewrite Conv2D_same_last by lia. cbn [bind result_monad Activation].
  rewrite (Hgn _ f) by (assumption || reflexivity).
  cbn [bind result_monad Activation].
  rewrite Conv2D_same_last by lia. cbn [bind result_monad Activation].
  apply Add_same.
Qed.

(** Whatever group normalisation accepts, a block that returns has kept
    the image axes and set the last axis to [filters]. *)
Lemma green_block_shape (b : dim) (h w c f : nat) (y : tensor) :
  keeps_shape GN -> 0 < f ->
  green_block GN [b; Some h; Some w; Some c] f "channels_last" = Ok y ->
  y = [b; Some h; Some w; Some f].
Proof.
  intros Hgn Hf. unfold green_block, Activation.
  cbn [String.eqb Ascii.eqb Bool.eqb].
  rewrite Conv2D_1x1_last by lia. cbn [bind result_monad Activation].
  destruct (GN 8 (-1)%Z [b; Some h; Some w; Some c]) as [t|] eqn:E1;
    [|discriminate].
  apply Hgn in E1. subst t. cbn [bind result_monad Activation].
  rewrite Conv2D_same_last by lia. cbn [bind result_monad Activation].
  destruct (GN 8 (-1)%Z [b; Some h; Some w; Some f]) as [t|] eqn:E2;
    [|discriminate].
  apply Hgn in E2. subst t. cbn [bind result_monad Activation].
  rewrite Conv2D_same_last by lia. cbn [bind result_monad Activation].
  rewrite Add_same. intros E. now apply Ok_inj in E.
Qed.

End Blocks.

(** ** The graph when group normalisation accepts its inputs *)

Section ChannelsLast.

Variable GN : nat -> Z -> tensor -> result tensor.
Hypothesis Hgn : accepts_last GN.

Ltac step := cbn [bind result_monad].
Ltac block :=
  rewrite (green_block_last _ _ _ Hgn)
    by (assumption || reflexivity || (vm_compute; lia));
  step.

Lemma build_model_last_unfolded (h w c oc : nat) (w2 wk : Q) :
  0 < h -> 0 < w -> 0 < oc ->
  build_model GN [16 * h; 16 * w; c] oc w2 wk "channels_last"
  = if (c <? 4) || (c mod 4 =? 0)
    then
      l <- loss [16 * h; 16 * w; c]
                [None; Some (16 * h); Some (16 * w); Some c]
                [None; Some (16 * h); Some (16 * w); Some 4]
                [None; Some 128] [None; Some 128]
                (1 # 100000000) w2 wk "channels_last" ;;
      Ok (mk_model [None; Some (16 * h); Some (16 * w); Some c]
                   [None; Some (16 * h); Some (16 * w); Some oc] l)
    else Raise (AssertionError "The no. of channels must be divisible by 4").
Proof.
  intros Hh Hw Hoc. unfold build_model, Input, Dropout, Activation.
  cbn [String.eqb Ascii.eqb Bool.eqb unpack3 bound py_assert length Nat.eqb
       map bind result_monad].
  rewrite !mod16. cbn [Nat.eqb andb py_assert bind result_monad].
  rewrite !div16.
  (* encoder *)
  rewrite Conv2D_same_last by lia. step. block.
  rewrite Conv2D_down_last, (@halves (16 * h) (8 * h)),
    (@halves (16 * w) (8 * w)) by lia. step. block. block.
  rewrite Conv2D_down_last, (@halves (8 * h) (4 * h)),
    (@halves (8 * w) (4 * w)) by lia. step. block. block.
  rewrite Conv2D_down_last, (@halves (4 * h) (2 * h)),
    (@halves (4 * w) (2 * w)) by lia. step. block. block. block. block.
  (* ground-truth decoder *)
  rewrite Conv2D_1x1_last by lia. step. rewrite UpSampling2D_last. step.
  replace (2 * (2 * h)) with (4 * h) by lia.
  replace (2 * (2 * w)) with (4 * w) by lia.
  rewrite Add_same. step. block.
  rewrite Conv2D_1x1_last by lia. step. rewrite UpSampling2D_last. step.
  replace (2 * (4 * h)) with (8 * h) by lia.
  replace (2 * (4 * w)) with (8 * w) by lia.
  rewrite Add_same. step. block.
  rewrite Conv2D_1x1_last by lia. step. rewrite UpSampling2D_last. step.
  replace (2 * (8 * h)) with (16 * h) by lia.
  replace (2 * (8 * w)) with (16 * w) by lia.
  rewrite Add_same. step. block.
  rewrite Conv2D_same_last by lia. step. rewrite Conv2D_1x1_last by lia. step.
  (* variational decoder *)
  rewrite (@accepts_last_at GN _ 256 Hgn) by (reflexivity || lia). step.
  rewrite Conv2D_down_last, (@halves (2 * h) h), (@halves (2 * w) w) by lia.
  step. unfold Flatten. rewrite prod_known_pos by lia. step.
  cbn [Dense last removelast app bind result_monad].
  change (sampling [None; Some 128] [None; Some 128])
    with (Ok [None; Some 128]).
  step.
  assert (Hvu :
    (if c <? 4
     then
       x <- Dense (c * h * w) [None; Some 128] ;;
       Reshape [h; w; c] x
     else
       py_assert (c mod 4 =? 0)
                 "The no. of channels must be divisible by 4" ;;;
       x <- Dense (c / 4 * h * w) [None; Some 128] ;;
       Reshape [h; w; c / 4] x)
    = if (c <? 4) || (c mod 4 =? 0)
      then Ok [None; Some h; Some w; Some (if c <? 4 then c else c / 4)]
      else Raise (AssertionError "The no. of channels must be divisible by 4")).
  { destruct (c <? 4); cbn [orb].
    - cbn [Dense last removelast app bind result_monad].
      rewrite Reshape_ok; [reflexivity|]. cbn [fold_right]. lia.
    - destruct (c mod 4 =? 0); cbn [py_assert bind result_monad];
        [|reflexivity].
      cbn [Dense last removelast app bind result_monad].
      rewrite Reshape_ok; [reflexivity|]. cbn [fold_right]. lia. }
  cbn [bind result_monad] in Hvu. rewrite Hvu. clear Hvu.
  destruct ((c <? 4) || (c mod 4 =? 0)); step; [|reflexivity].
  rewrite Conv2D_1x1_last by lia. step. rewrite UpSampling2D_last. step.
  rewrite Conv2D_1x1_last by lia. step. rewrite UpSampling2D_last. step. block.
  rewrite Conv2D_1x1_last by lia. step. rewrite UpSampling2D_last. step. block.
  rewrite Conv2D_1x1_last by lia. step. rewrite UpSampling2D_last. step. block.
  rewrite Conv2D_same_last by lia. step. rewrite Conv2D_1x1_last by lia. step.
  replace (2 * (2 * (2 * (2 * h)))) with (16 * h) by lia.
  replace (2 * (2 * (2 * (2 * w)))) with (16 * w) by lia.
  reflexivity.
Qed.

(** The loss against a four-channel reconstruction: the difference with
    the input can be formed only for one or four input channels. *)
Lemma loss_last (H W c : nat) (e w2 wk : Q) :
  0 < H -> 0 < W -> 0 < c ->
  loss [H; W; c] [None; Some H; Some W; Some c]
       [None; Some H; Some W; Some 4] [None; Some 128] [None; Some 128]
       e w2 wk "channels_last"
  = if (c =? 1) || (c =? 4)
    then Ok (mk_loss [None] [None] e w2 wk)
    else Raise (ValueError "Dimensions must be equal").
Proof.
  intros HH HW Hc. unfold loss.
  cbn [String.eqb Ascii.eqb Bool.eqb unpack3 bind result_monad].
  assert (Hd : broadcast [None; Some H; Some W; Some c]
                         [None; Some H; Some W; Some 4]
               = if (c =? 1) || (c =? 4)
                 then Ok [None; Some H; Some W; Some 4]
                 else Raise (ValueError "Dimensions must be equal")).
  { unfold broadcast. cbn [rev app broadcast_rev bind result_monad].
    rewrite !broadcast_dim_same. unfold broadcast_dim at 1.
    change (4 =? 1) with false. cbn [bind result_monad].
    destruct (c =? 1) eqn:E1; [reflexivity|].
    destruct (c =? 4) eqn:E4; [|reflexivity].
    apply Nat.eqb_eq in E4. subst c. reflexivity. }
  rewrite Hd. destruct ((c =? 1) || (c =? 4)); [|reflexivity].
  cbn [bind result_monad K_mean_123 bound].
  rewrite (proj2 (Nat.eqb_neq (c * H * W) 0)) by nia.
  reflexivity.
Qed.

(** X11. In the channels-last format, for an image whose height and width
    are positive multiples of 16 and that has one or four channels,
    [build_model] returns a model that maps a batch of such images to maps
    of the same height and width with [output_channels] channels; its
    loss holds one L2 term and one KL term per sample.  The module's own
    entry point, [build_model(output_channels=1)], is such a call. *)
Theorem build_model_channels_last (H W c oc : nat) (w2 wk : Q) :
  0 < H -> H mod 16 = 0 -> 0 < W -> W mod 16 = 0 ->
  c = 1 \/ c = 4 -> 0 < oc ->
  build_model GN [H; W; c] oc w2 wk "channels_last"
  = Ok (mk_model [None; Some H; Some W; Some c]
                 [None; Some H; Some W; Some oc]
                 (mk_loss [None] [None] (1 # 100000000) w2 wk)).
Proof.
  intros HH HH16 HW HW16 Hc Hoc.
  apply Nat.Div0.div_exact in HH16, HW16.
  rewrite HH16, HW16 at 1.
  rewrite build_model_last_unfolded by lia.
  rewrite <- HH16, <- HW16, loss_last by lia.
  destruct Hc; subst c; reflexivity.
Qed.

(** X12. For every other positive number of channels the same call
    raises.  A count above four that is not a multiple of four fails the
    assertion of the variational decoder.  For every other count all
    layers are made, the reconstruction has four channels, and the call
    is the call of [loss] on the input and that reconstruction, which
    raises because the two cannot be subtracted. *)
Theorem build_model_other_channel_counts (H W c oc : nat) (w2 wk : Q) :
  0 < H -> H mod 16 = 0 -> 0 < W -> W mod 16 = 0 ->
  0 < c -> c <> 1 -> c <> 4 -> 0 < oc ->
  let inp := [None; Some H; Some W; Some c] in
  let out_VAE := [None; Some H; Some W; Some 4] in
  (4 < c /\ c mod 4 <> 0 ->
   build_model GN [H; W; c] oc w2 wk "channels_last"
   = Raise (AssertionError "The no. of channels must be divisible by 4"))
  /\
  (c < 4 \/ c mod 4 = 0 ->
   build_model GN [H; W; c] oc w2 wk "channels_last"
   = (l <- loss [H; W; c] inp out_VAE [None; Some 128] [None; Some 128]
                (1 # 100000000) w2 wk "channels_last" ;;
      Ok (mk_model inp [None; Some H; Some W; Some oc] l))
   /\ broadcast inp out_VAE = Raise (ValueError "Dimensions must be equal")
   /\ build_model GN [H; W; c] oc w2 wk "channels_last"
      = Raise (ValueError "Dimensions must be equal")).
Proof.
  intros HH HH16 HW HW16 Hc Hc1 Hc4 Hoc inp out_VAE. subst inp out_VAE.
  apply Nat.Div0.div_exact in HH16, HW16.
  assert (Hb : build_model GN [H; W; c] oc w2 wk "channels_last"
               = if (c <? 4) || (c mod 4 =? 0)
                 then
                   l <- loss [H; W; c] [None; Some H; Some W; Some c]
                             [None; Some H; Some W; Some 4]
                             [None; Some 128] [None; Some 128]
                             (1 # 100000000) w2 wk "channels_last" ;;
                   Ok (mk_model [None; Some H; Some W; Some c]
                                [None; Some H; Some W; Some oc] l)
                 else Raise (AssertionError
                               "The no. of channels must be divisible by 4")).
  { rewrite HH16, HW16 at 1. rewrite build_model_last_unfolded by lia.
    now rewrite <- HH16, <- HW16. }
  split.
  - intros [Hgt Hmod]. rewrite Hb.
    rewrite (proj2 (Nat.ltb_ge c 4)) by lia.
    now rewrite (proj2 (Nat.eqb_neq _ _) Hmod).
  - intros Hcase.
    assert (Hif : (c <? 4) || (c mod 4 =? 0) = true).
    { apply orb_true_iff.
      destruct Hcase as [Hlt|Hmod]; [left|right];
        [now apply Nat.ltb_lt | now apply Nat.eqb_eq]. }
    rewrite Hif in Hb. split; [exact Hb|]. split.
    + unfold broadcast. cbn [rev app broadcast_rev bind result_monad].
      unfold broadcast_dim at 1.
      rewrite (proj2 (Nat.eqb_neq _ _) Hc1), (proj2 (Nat.eqb_neq _ _) Hc4).
      reflexivity.
    + rewrite Hb, loss_last by lia.
      rewrite (proj2 (Nat.eqb_neq _ _) Hc1), (proj2 (Nat.eqb_neq _ _) Hc4).
      reflexivity.
Qed.

(** X17. With its default format the residual block keeps the batch and
    image axes of a four-axis input and sets the last axis to [filters],
    when both channel counts are positive multiples of eight. *)
Theorem green_block_sets_the_channels (b : dim) (h w c f : nat) :
  0 < c -> c mod 8 = 0 -> 0 < f -> f mod 8 = 0 ->
  green_block GN [b; Some h; Some w; Some c] f "channels_last"
  = Ok [b; Some h; Some w; Some f].
Proof. intros. now apply green_block_last. Qed.

Lemma div4_of_16 (h : nat) : (16 * h) / 4 = 4 * h.
Proof.
  replace (16 * h) with (4 * h * 4) by lia. apply Nat.div_mul. discriminate.
Qed.

(** X18. In the channels-first format, for an image whose height and
    width are positive multiples of 16, the call raises the error of a
    merge layer whose two inputs have the shapes (128, H/4, 512) and
    (64, H/4, 128): the residual blocks, called without the format, have
    worked on the last axis. *)
Theorem channels_first_fails_at_the_first_addition (c H W oc : nat)
    (w2 wk : Q) :
  0 < c -> 0 < H -> H mod 16 = 0 -> 0 < W -> W mod 16 = 0 ->
  build_model GN [c; H; W] oc w2 wk "channels_first"
  = Raise (ValueError
             (incompatible_shapes [Some 128; Some (H / 4); Some 512]
                                  [Some 64; Some (H / 4); Some 128])).
Proof.
  intros _ HH HH16 HW HW16.
  assert (HW8 : W mod 8 = 0).
  { apply Nat.Div0.div_exact in HW16. rewrite HW16.
    replace (16 * (W / 16)) with (2 * (W / 16) * 8) by lia.
    apply Nat.Div0.mod_mul. }
  unfold build_model, Input, Dropout, Activation.
  cbn [String.eqb Ascii.eqb Bool.eqb unpack3 bound py_assert length Nat.eqb
       map bind result_monad].
  rewrite HH16, HW16. cbn [Nat.eqb andb py_assert bind result_monad].
  apply Nat.Div0.div_exact in HH16.
  set (h := H / 16) in *. assert (Hh : 0 < h) by lia. clearbody h. subst H.
  rewrite div4_of_16.
  rewrite Conv2D_same_first by lia. step.
  block.
  rewrite Conv2D_down_first, (@halves (16 * h) (8 * h)) by lia. step.
  block. block.
  rewrite Conv2D_down_first, (@halves (8 * h) (4 * h)) by lia. step.
  block. block.
  rewrite Conv2D_down_first, (@halves (4 * h) (2 * h)) by lia. step.
  block. block. block. block.
  rewrite Conv2D_1x1_first by lia. step. rewrite UpSampling2D_first. step.
  replace (2 * (2 * h)) with (4 * h) by lia.
  reflexivity.
Qed.

End ChannelsLast.

(** ** The channels-first format, whatever group normalisation does *)

Section ChannelsFirst.

Variable GN : nat -> Z -> tensor -> result tensor.
Hypothesis Hgn : keeps_shape GN.

Ltac step := cbn [bind result_monad].
Ltac stop := eexists; reflexivity.
Ltac block :=
  match goal with
  | |- context [green_block GN ?x ?f "channels_last"] =>
      let E := fresh "E" in
      destruct (green_block GN x f "channels_last") as [?|?] eqn:E;
      [apply (@green_block_shape GN _ _ _ _ _ _ Hgn) in E; [subst; step | lia]
      | stop]
  end.

(** X13. In the channels-first format [build_model] never returns a
    model, whatever the input shape: the residual blocks are called
    without the format and work on the last axis, so the first addition
    of the decoder meets 128 rows on one side and 64 on the other. *)
Theorem channels_first_never_builds (input_shape : list nat) (oc : nat)
    (w2 wk : Q) :
  exists e,
    build_model GN input_shape oc w2 wk "channels_first" = Raise e.
Proof.
  unfold build_model, Input, Dropout, Activation.
  cbn [String.eqb Ascii.eqb Bool.eqb].
  destruct input_shape as [|c [|H [|W [|d rest]]]]; try stop.
  cbn [unpack3 bound py_assert length Nat.eqb map bind result_monad].
  destruct ((H mod 16 =? 0) && (W mod 16 =? 0)); [|stop].
  cbn [py_assert bind result_monad].
  rewrite Conv2D_same_first by lia. step. block.
  rewrite Conv2D_down_first by lia. step. block. block.
  rewrite Conv2D_down_first by lia. step. block. block.
  rewrite Conv2D_down_first by lia. step. block. block. block. block.
  rewrite Conv2D_1x1_first by lia. step. rewrite UpSampling2D_first. step.
  (* the first addition of the decoder: 128 rows against 64 *)
  stop.
Qed.

End ChannelsFirst.

(** ** What is checked before any layer is made *)

Section Prologue.

Variable GN : nat -> Z -> tensor -> result tensor.

(** X14. A shape that is not a triple is reported by the unpacking of
    the shape for the two known formats; the assertion on its length is
    reached, and fails, only for an unknown format. *)
Theorem shape_that_is_not_a_triple (input_shape : list nat) (oc : nat)
    (w2 wk : Q) (data_format : string) :
  length input_shape <> 3 ->
  build_model GN input_shape oc w2 wk data_format
  = Raise (if (data_format =? "channels_last")%string
              || (data_format =? "channels_first")%string
           then ValueError (if length input_shape <? 3
                            then "not enough values to unpack"
                            else "too many values to unpack")
           else AssertionError "Input shape must be a 3-tuple").
Proof.
  intros Hlen. unfold build_model.
  destruct (data_format =? "channels_last")%string;
    [|destruct (data_format =? "channels_first")%string];
    destruct input_shape as [|a [|b [|c [|d rest]]]];
    solve [reflexivity | now contradiction Hlen].
Qed.

(** X15. With a triple and a format that is neither of the two, the
    sizes were never bound: the call ends in an unbound-variable error
    and not in a message about the format. *)
Theorem unknown_format_is_not_reported (a b c oc : nat) (w2 wk : Q)
    (data_format : string) :
  data_format <> "channels_last"%string ->
  data_format <> "channels_first"%string ->
  build_model GN [a; b; c] oc w2 wk data_format
  = Raise (OtherError "UnboundLocalError: H").
Proof.
  intros H1 H2. unfold build_model.
  rewrite (proj2 (String.eqb_neq _ _) H1), (proj2 (String.eqb_neq _ _) H2).
  reflexivity.
Qed.

(** X16. A height or a width that is not a multiple of 16 is refused by
    the assertion, in either format and before any layer is made. *)
Theorem sizes_must_be_multiples_of_16 (a b c oc : nat) (w2 wk : Q)
    (data_format : string) (H W : nat) :
  (data_format = "channels_last"%string /\ H = a /\ W = b)
  \/ (data_format = "channels_first"%string /\ H = b /\ W = c) ->
  H mod 16 <> 0 \/ W mod 16 <> 0 ->
  build_model GN [a; b; c] oc w2 wk data_format
  = Raise (AssertionError "All the input dimensions must be divisible by 16").
Proof.
  intros Hfmt Hsize.
  assert (Hb : (H mod 16 =? 0) && (W mod 16 =? 0) = false).
  { apply andb_false_iff.
    destruct Hsize as [Hs|Hs]; [left|right]; now apply Nat.eqb_neq. }
  unfold build_model.
  destruct Hfmt as [(-> & -> & ->)|(-> & -> & ->)];
    cbn [String.eqb Ascii.eqb Bool.eqb unpack3 bound py_assert length
         Nat.eqb bind result_monad];
    rewrite Hb; reflexivity.
Qed.

End Prologue.

(** ** The stand-in for group normalisation *)

Lemma nth_error_last (x : tensor) (c : nat) :
  last x None = Some c ->
  nth_error x (Z.to_nat (Z.of_nat (length x) + -1)) = Some (Some c).
Proof.
  intros Hl.
  replace (Z.to_nat (Z.of_nat (length x) + -1)) with (length x - 1) by lia.
  induction x as [|a x IH]; [discriminate|].
  destruct x as [|a' x]; [cbn in *; now subst|].
  change (last (a :: a' :: x) None) with (last (a' :: x) None) in Hl.
  replace (length (a :: a' :: x) - 1) with (S (length (a' :: x) - 1))
    by (cbn [length]; lia).
  exact (IH Hl).
Qed.

Lemma demo_group_norm_accepts : accepts_last demo_group_norm.
Proof.
  intros x c Hl Hc H8. unfold demo_group_norm.
  change (-1 <? 0)%Z with true. cbv iota.
  rewrite (nth_error_last _ Hl).
  rewrite (proj2 (Nat.ltb_lt _ _) Hc), H8. reflexivity.
Qed.

Lemma demo_group_norm_keeps : keeps_shape demo_group_norm.
Proof.
  intros groups axis x y. unfold demo_group_norm.
  destruct (nth_error x _) as [[c|]|]; try discriminate.
  destruct (_ && _); [|discriminate].
  intros E. now apply Ok_inj in E.
Qed.

(** ** Examples *)

Lemma build_model_channels_last_witness :
  build_model demo_group_norm [160; 192; 4] 1 (1 # 10) (1 # 10)
              "channels_last"
  = Ok (mk_model [None; Some 160; Some 192; Some 4]
                 [None; Some 160; Some 192; Some 1]
                 (mk_loss [None] [None] (1 # 100000000) (1 # 10) (1 # 10))).
Proof.
  apply (@build_model_channels_last demo_group_norm demo_group_norm_accepts
           160 192 4 1); solve [lia | reflexivity | now right].
Defined.

Lemma build_model_other_channel_counts_witness :
  broadcast [None; Some 160; Some 192; Some 3]
            [None; Some 160; Some 192; Some 4]
  = Raise (ValueError "Dimensions must be equal")
  /\ build_model demo_group_norm [160; 192; 3] 1 (1 # 10) (1 # 10)
                 "channels_last"
     = Raise (ValueError "Dimensions must be equal").
Proof.
  apply (@build_model_other_channel_counts demo_group_norm
           demo_group_norm_accepts 160 192 3 1 (1 # 10) (1 # 10));
    solve [lia | reflexivity | discriminate | left; lia].
Defined.

Lemma green_block_sets_the_channels_witness :
  green_block demo_group_norm [None; Some 20; Some 24; Some 128] 256
              "channels_last"
  = Ok [None; Some 20; Some 24; Some 256].
Proof.
  apply (@green_block_sets_the_channels demo_group_norm
           demo_group_norm_accepts);
    solve [lia | reflexivity].
Defined.

Lemma channels_first_fails_at_the_first_addition_witness :
  build_model demo_group_norm [4; 160; 192] 1 (1 # 10) (1 # 10)
              "channels_first"
  = Raise (ValueError
             "Inputs have incompatible shapes. Received shapes (128, 40, 512) and (64, 40, 128)").
Proof.
  exact (@channels_first_fails_at_the_first_addition demo_group_norm
           demo_group_norm_accepts 4 160 192 1 (1 # 10) (1 # 10)
           (Nat.lt_0_succ 3) (Nat.lt_0_succ 159) eq_refl
           (Nat.lt_0_succ 191) eq_refl).
Defined.

Lemma channels_first_never_builds_witness :
  exists e,
    build_model demo_group_norm [4; 160; 192] 1 (1 # 10) (1 # 10)
                "channels_first" = Raise e.
Proof.
  apply (@channels_first_never_builds demo_group_norm demo_group_norm_keeps).
Defined.

Lemma shape_that_is_not_a_triple_witness :
  build_model demo_group_norm [160; 192] 1 (1 # 10) (1 # 10)
              "channels_last"
  = Raise (ValueError "not enough values to unpack").
Proof.
  apply (@shape_that_is_not_a_triple demo_group_norm [160; 192]).
  discriminate.
Defined.

Lemma unknown_format_is_not_reported_witness :
  build_model demo_group_norm [160; 192; 4] 1 (1 # 10) (1 # 10) "NHWC"
  = Raise (OtherError "UnboundLocalError: H").
Proof.
  apply (@unknown_format_is_not_reported demo_group_norm); discriminate.
Defined.

Lemma sizes_must_be_multiples_of_16_witness :
  build_model demo_group_norm [160; 200; 4] 1 (1 # 10) (1 # 10)
              "channels_last"
  = Raise (AssertionError "All the input dimensions must be divisible by 16").
Proof.
  apply (@sizes_must_be_multiples_of_16 demo_group_norm 160 200 4 1 _ _
           "channels_last" 160 200).
  - left. repeat split.
  - right. discriminate.
Defined.

End VaeCnnFacts.
